(** * PageRank: a shallow embedding of [pagerank.py]

    The development follows the three core functions of the program,
    [transition_model], [sample_pagerank] and [iterate_pagerank], and the
    validator [checkProbabilityDictionary] they share.

    Conventions of the embedding:
    - a Python [dict] is an association list in insertion order with
      pairwise different keys ([dict_set] overwrites in place or appends);
    - a Python [set] of pages is the list of its elements in the order in
      which the interpreter iterates over it;
    - Python floats are read as exact rationals ([Q]); [round(x, 3)] is the
      round-half-to-even rounding of [x] to three decimals.  Where a sum of
      floats can fall on the other side of a test than the exact sum (the
      credits of [sample_pagerank] in its final validation), the statements
      stop before the test;
    - exceptions are an error monad ([result]); the [while] loop of
      [iterate_pagerank] runs on fuel and answers [None] when it is exhausted;
    - the global generator of the [random] module is threaded explicitly as
      a state ([rng]): a sequence of unit draws and the position reached. *)

From Stdlib Require Import List String Bool Arith ZArith QArith Qabs Qround Lia Lqa.
From Stdlib Require Import Setoid Morphisms.
Import ListNotations.

Open Scope Q_scope.

(** ** Exceptions and the error monad *)

Inductive message : Type :=
| ProbabilityNotInBounds            (* "probability not in bounds" *)
| SumProbability (s : Q).           (* f"Sum probability {s} == 1\n" *)

Inductive exn : Type :=
| KeyError (k : string)
| IndexError
| ValueError
| ZeroDivisionError
| Exception (msg : message).

Inductive result (A : Type) : Type :=
| Ok (a : A)
| Raise (e : exn).

Arguments Ok {A} a.
Arguments Raise {A} e.

Definition bind {A B : Type} (c : result A) (k : A -> result B) : result B :=
  match c with
  | Ok a => k a
  | Raise e => Raise e
  end.

Notation "x <- c ;; k" := (bind c (fun x => k))
  (at level 61, c at next level, right associativity).
Notation "' pat <- c ;; k" := (bind c (fun x => match x with pat => k end))
  (at level 61, pat pattern, c at next level, right associativity).

(** [for x in l: s = body x s], stopping at the first exception. *)
Fixpoint for_each {A S : Type} (l : list A) (body : A -> S -> result S) (s : S)
  : result S :=
  match l with
  | [] => Ok s
  | x :: l' => s' <- body x s ;; for_each l' body s'
  end.

(** ** Dictionaries *)

Definition Page := string.

Definition dict (V : Type) := list (Page * V).

Definition keys {V : Type} (d : dict V) : list Page := map fst d.
Definition values {V : Type} (d : dict V) : list V := map snd d.

Fixpoint dict_get {V : Type} (k : Page) (d : dict V) : option V :=
  match d with
  | [] => None
  | (k', v) :: d' => if String.eqb k k' then Some v else dict_get k d'
  end.

(** [k in d] *)
Definition dict_mem {V : Type} (k : Page) (d : dict V) : bool :=
  match dict_get k d with Some _ => true | None => false end.

(** [d[k]] *)
Definition getitem {V : Type} (k : Page) (d : dict V) : result V :=
  match dict_get k d with Some v => Ok v | None => Raise (KeyError k) end.

(** [d[k] = v] *)
Fixpoint dict_set {V : Type} (k : Page) (v : V) (d : dict V) : dict V :=
  match d with
  | [] => [(k, v)]
  | (k', v') :: d' =>
      if String.eqb k k' then (k, v) :: d' else (k', v') :: dict_set k v d'
  end.

(** A dictionary as Python holds it: no key twice. *)
Definition dict_wf {V : Type} (d : dict V) : Prop := NoDup (keys d).

(** The graph: page -> set of the pages it links to. *)
Definition graph := dict (list Page).

(** Every set of links has each page once, as a Python set does. *)
Definition links_wf (corpus : graph) : Prop :=
  Forall (fun kv => NoDup (snd kv)) corpus.

(** Every link resolves to a page of the graph (what [crawl] ensures). *)
Definition links_closed (corpus : graph) : Prop :=
  forall q ls p, In (q, ls) corpus -> In p ls -> In p (keys corpus).

(** ** Numbers *)

Definition len {A : Type} (l : list A) : Q := inject_Z (Z.of_nat (List.length l)).

(** Python's [/]: a zero divisor raises. *)
Definition py_div (a b : Q) : result Q :=
  if Qeq_bool b 0 then Raise ZeroDivisionError else Ok (a / b).

Definition Qgt_bool (a b : Q) : bool := negb (Qle_bool a b).
Definition Qlt_bool (a b : Q) : bool := negb (Qle_bool b a).

(** Rounding to the nearest integer, ties to even. *)
Definition round_half_even (x : Q) : Z :=
  let f := Qfloor x in
  match Qcompare (x - inject_Z f) (1 # 2) with
  | Lt => f
  | Gt => (f + 1)%Z
  | Eq => if Z.even f then f else (f + 1)%Z
  end.

(** [round(x, 3)] *)
Definition round3 (x : Q) : Q := inject_Z (round_half_even (x * 1000)) / 1000.

Definition sum_values (d : dict Q) : Q := fold_left Qplus (values d) 0.

(** ** crawl *)

(** [s.endswith(suffix)] *)
Fixpoint endswith (s suffix : string) : bool :=
  String.eqb s suffix ||
  match s with
  | EmptyString => false
  | String _ s' => endswith s' suffix
  end.

(** [set(links) - {filename}]: the links found, each once, without the page
    itself. *)
Definition links_of (filename : string) (links : list string) : list Page :=
  remove string_dec filename (nodup string_dec links).

(** One turn of the first loop of [crawl]: a file whose name does not end
    with ".html" is skipped, another one becomes a page.  [findall] stands
    for [re.findall] with the pattern of the program, applied to the text
    [f.read()] returns. *)
Definition extract_file (findall : string -> list string) (pages : graph)
    (file : string * string) : graph :=
  if negb (endswith (fst file) ".html") then pages
  else dict_set (fst file) (links_of (fst file) (findall (snd file))) pages.

(** The first loop of [crawl].  The directory is the list of its entries,
    each with its text. *)
Definition crawl_extract (findall : string -> list string)
    (directory : list (string * string)) : graph :=
  fold_left (extract_file findall) directory [].

(** The second loop of [crawl]: [pages[filename] = set(link for link in
    pages[filename] if link in pages)]. *)
Definition crawl_prune (pages : graph) : result graph :=
  for_each (keys pages)
    (fun filename pages =>
       links <- getitem filename pages ;;
       Ok (dict_set filename (filter (fun link => dict_mem link pages) links) pages))
    pages.

Definition crawl (findall : string -> list string)
    (directory : list (string * string)) : result graph :=
  crawl_prune (crawl_extract findall directory).

(** ** checkProbabilityDictionary *)

(** One turn of the loop over the model: the bounds test on [model[p]], then
    the accumulation.  Iterating a dictionary and reading [model[p]] visits
    its items in order. *)
Definition check_entry (kv : Page * Q) (sumProbabilities : Q) : result Q :=
  let v := snd kv in
  if Qgt_bool v 1 || Qlt_bool v 0
  then Raise (Exception ProbabilityNotInBounds)
  else Ok (sumProbabilities + v).

Definition checkProbabilityDictionary (model : dict Q) : result bool :=
  sumProbabilities <- for_each model check_entry 0 ;;
  if negb (Qeq_bool (round3 sumProbabilities) 1)
  then Raise (Exception (SumProbability sumProbabilities))
  else Ok true.

(** ** transition_model *)

(** [if p in d: d[p] += inc] / [else: d[p] = inc], the accumulation both
    [transition_model] and [sample_pagerank] use. *)
Definition credit (p : Page) (inc : Q) (d : dict Q) : dict Q :=
  match dict_get p d with
  | Some v => dict_set p (v + inc) d
  | None => dict_set p inc d
  end.

Definition transition_model (corpus : graph) (page : Page) (damping_factor : Q)
  : result (dict Q) :=
  linkedPages <- getitem page corpus ;;
  transitionModel <-
    for_each linkedPages
      (fun p tm =>
         v <- py_div (damping_factor * 1) (len linkedPages) ;;
         Ok (dict_set p v tm))
      [] ;;
  randomSurferProbability <- py_div (1 - damping_factor) (len corpus) ;;
  transitionModel <-
    for_each (keys corpus)
      (fun p tm => Ok (credit p randomSurferProbability tm))
      transitionModel ;;
  transitionModel <-
    (if Nat.eqb (List.length linkedPages) 0
     then for_each (keys corpus)
            (fun p tm => v <- py_div 1 (len corpus) ;; Ok (dict_set p v tm))
            []
     else Ok transitionModel) ;;
  _ <- checkProbabilityDictionary transitionModel ;;
  Ok transitionModel.

(** ** The random source *)

Record rng : Type := { draws : nat -> Q; pos : nat }.

(** [random.random()] *)
Definition random (st : rng) : Q * rng :=
  (draws st (pos st), {| draws := draws st; pos := S (pos st) |}).

(** Every draw lies in [0, 1). *)
Definition unit_draws (st : rng) : Prop :=
  forall i, 0 <= draws st i /\ draws st i < 1.

(** [random.choice(seq)]: an empty sequence raises [IndexError]; otherwise
    the element at the index obtained by scaling a unit draw. *)
Definition choice {A : Type} (seq : list A) (st : rng) : result (A * rng) :=
  match seq with
  | [] => Raise IndexError
  | _ =>
      let (r, st') := random st in
      match nth_error seq (Z.to_nat (Qfloor (r * len seq))) with
      | Some x => Ok (x, st')
      | None => Raise IndexError
      end
  end.

(** [itertools.accumulate(weights)] *)
Fixpoint accumulate (acc : Q) (weights : list Q) : list Q :=
  match weights with
  | [] => []
  | w :: ws => (acc + w) :: accumulate (acc + w) ws
  end.

(** [bisect.bisect(a, x, 0, hi)] on a sorted list: how many of the first
    [hi] elements are [<= x]. *)
Fixpoint bisect (a : list Q) (x : Q) (hi : nat) : nat :=
  match hi, a with
  | S hi', c :: a' => if Qle_bool c x then S (bisect a' x hi') else 0%nat
  | _, _ => 0%nat
  end.

(** [random.choices(population, weights=weights, k=1)[0]] *)
Definition choices {A : Type} (population : list A) (weights : list Q) (st : rng)
  : result (A * rng) :=
  let cum_weights := accumulate 0 weights in
  if negb (Nat.eqb (List.length cum_weights) (List.length population))
  then Raise ValueError
  else
    match cum_weights with
    | [] => Raise IndexError
    | _ =>
        let total := last cum_weights 0 in
        if Qle_bool total 0 then Raise ValueError
        else
          let (r, st') := random st in
          match nth_error population
                  (bisect cum_weights (r * total) (List.length population - 1)) with
          | Some x => Ok (x, st')
          | None => Raise IndexError
          end
    end.

(** ** sample_pagerank *)

Inductive sample_method : Type := sampleFromLinkedPage | sampleFromAllPages.

(** [range(1, n)] *)
Definition range1 (n : Z) : list Z :=
  map Z.of_nat (seq 1 (Z.to_nat (n - 1))).

(** The body of the [for i in range(1, n)] loop.  The state is the current
    [pageToSample], the accumulated [estimatedSamplePageRank] and the random
    source. *)
Definition sample_step (corpus : graph) (damping_factor : Q) (n : Z)
    (s : Page * dict Q * rng) : result (Page * dict Q * rng) :=
  let '(pageToSample, estimatedSamplePageRank, st) := s in
  transitionModel <- transition_model corpus pageToSample damping_factor ;;
  '(pageToSample, st) <-
    choices (keys transitionModel) (values transitionModel) st ;;
  inc <- py_div 1 (inject_Z n) ;;
  let estimatedSamplePageRank := credit pageToSample inc estimatedSamplePageRank in
  '(sampleMethod, st) <-
    choices [sampleFromLinkedPage; sampleFromAllPages]
            [damping_factor; 1 - damping_factor] st ;;
  '(pageToSample, st) <-
    match sampleMethod with
    | sampleFromLinkedPage =>
        choices (keys transitionModel) (values transitionModel) st
    | sampleFromAllPages => choice (keys corpus) st
    end ;;
  Ok (pageToSample, estimatedSamplePageRank, st).

(** The first page, the loop and the final validation.  The credits of 1/n
    are added here as exact rationals.  In the program they are floats: n
    additions of 1/n can end one unit in the last place above 1, which the
    validator rejects, and for a negative n of huge magnitude 1/n is -0.0;
    what is stated below about an estimate with more than one credit
    therefore stops at the call of the validator. *)
Definition sample_pagerank (corpus : graph) (damping_factor : Q) (n : Z) (st : rng)
  : result (dict Q * rng) :=
  '(pageToSample, st) <- choice (keys corpus) st ;;
  inc <- py_div 1 (inject_Z n) ;;
  let estimatedSamplePageRank := dict_set pageToSample inc [] in
  '(_, estimatedSamplePageRank, st) <-
    for_each (range1 n)
      (fun _ s => sample_step corpus damping_factor n s)
      (pageToSample, estimatedSamplePageRank, st) ;;
  _ <- checkProbabilityDictionary estimatedSamplePageRank ;;
  Ok (estimatedSamplePageRank, st).

(** ** iterate_pagerank *)

(** [for p in corpus: iterativePageRank[p] = 1/len(corpus)] *)
Definition init_ranks (corpus : graph) : result (dict Q) :=
  for_each (keys corpus)
    (fun p ranks => v <- py_div 1 (len corpus) ;; Ok (dict_set p v ranks))
    [].

(** [incomingPages[p].append(page)] if [p] is there, else
    [incomingPages[p] = [page]]. *)
Definition record_incoming (page : Page) (incomingPages : dict (list Page))
    (p : Page) : dict (list Page) :=
  match dict_get p incomingPages with
  | Some l => dict_set p (l ++ [page]) incomingPages
  | None => dict_set p [page] incomingPages
  end.

(** The incoming-links index: [for page, linkedTo in corpus.items(): for p in
    linkedTo: ...]. *)
Definition incoming_index (corpus : graph) : dict (list Page) :=
  fold_left
    (fun incomingPages kv => fold_left (record_incoming (fst kv)) (snd kv) incomingPages)
    corpus [].

(** The inner loop: [newPageRank += damping_factor *
    iterativePageRank[incomingPage] / len(corpus[incomingPage])]. *)
Definition add_incoming (corpus : graph) (damping_factor : Q) (ranks : dict Q)
    (incomingPage : Page) (newPageRank : Q) : result Q :=
  r <- getitem incomingPage ranks ;;
  ls <- getitem incomingPage corpus ;;
  t <- py_div (damping_factor * r) (len ls) ;;
  Ok (newPageRank + t).

(** The body of [for pageToSample in corpus], on the working mapping and the
    running [pageRankChange].  A page that is not in the index is skipped by
    [continue]. *)
Definition update_page (corpus : graph) (damping_factor : Q)
    (incomingPages : dict (list Page)) (pageToSample : Page) (s : dict Q * Q)
  : result (dict Q * Q) :=
  let '(iterativePageRank, pageRankChange) := s in
  newPageRank <- py_div (1 - damping_factor) (len corpus) ;;
  match dict_get pageToSample incomingPages with
  | None => Ok (iterativePageRank, pageRankChange)
  | Some incoming =>
      newPageRank <-
        for_each incoming (add_incoming corpus damping_factor iterativePageRank)
                 newPageRank ;;
      old <- getitem pageToSample iterativePageRank ;;
      Ok (dict_set pageToSample newPageRank iterativePageRank,
          pageRankChange + Qabs (old - newPageRank))
  end.

(** One turn of the [while] loop: [pageRankChange = 0], then the [for]. *)
Definition round (corpus : graph) (damping_factor : Q)
    (incomingPages : dict (list Page)) (iterativePageRank : dict Q)
  : result (dict Q * Q) :=
  for_each (keys corpus) (update_page corpus damping_factor incomingPages)
           (iterativePageRank, 0).

(** [while pageRankChange > 0.001: ...] *)
Fixpoint while_loop (fuel : nat) (corpus : graph) (damping_factor : Q)
    (incomingPages : dict (list Page)) (iterativePageRank : dict Q)
    (pageRankChange : Q) : option (result (dict Q)) :=
  if Qgt_bool pageRankChange (1 / 1000) then
    match fuel with
    | O => None
    | S fuel' =>
        match round corpus damping_factor incomingPages iterativePageRank with
        | Raise e => Some (Raise e)
        | Ok (ranks', change') =>
            while_loop fuel' corpus damping_factor incomingPages ranks' change'
        end
    end
  else Some (Ok iterativePageRank).

Definition iterate_pagerank (corpus : graph) (damping_factor : Q) (fuel : nat)
  : option (result (dict Q)) :=
  match init_ranks corpus with
  | Raise e => Some (Raise e)
  | Ok iterativePageRank =>
      while_loop fuel corpus damping_factor (incoming_index corpus)
                 iterativePageRank 1
  end.

(** * Notions used by the statements *)

(** ** Valid distributions *)

Definition in_bounds (v : Q) : Prop := 0 <= v /\ v <= 1.

(** The distribution is valid: every value in [0,1], the sum 1.0 once
    rounded to three decimals. *)
Definition valid_distribution (model : dict Q) : Prop :=
  Forall (fun kv => in_bounds (snd kv)) model /\ round3 (sum_values model) == 1.

(** The validator failed with the exception that stands for
    InvalidDistribution. *)
Definition InvalidDistribution {A : Type} (r : result A) : Prop :=
  exists msg, r = Raise (Exception msg).

(** Every value is at least 0. *)
Definition nonneg_values (d : dict Q) : Prop := Forall (fun kv => 0 <= snd kv) d.

(** ** The dictionary of transition_model in closed form *)

(** The dictionary that gives [v] to every page of [l]. *)
Definition fill (v : Q) (l : list Page) : dict Q := map (fun p => (p, v)) l.

(** [for p in l: credit p inc tm] *)
Definition credit_all (inc : Q) (l : list Page) (tm : dict Q) : dict Q :=
  fold_left (fun tm p => credit p inc tm) l tm.

(** The value of an entry once it is credited. *)
Definition credited (inc : Q) (old : option Q) : Q :=
  match old with Some v => v + inc | None => inc end.

(** The dictionary [transition_model] builds before it validates it. *)
Definition transition_dict (corpus : graph) (linkedPages : list Page) (d : Q) : dict Q :=
  match linkedPages with
  | [] => fill (1 / len corpus) (keys corpus)
  | _ => credit_all ((1 - d) / len corpus) (keys corpus)
           (fill (d * 1 / len linkedPages) linkedPages)
  end.

(** ** Invariants of iterate_pagerank *)

(** [q] links to [p] in the graph. *)
Definition links_to (corpus : graph) (q p : Page) : Prop :=
  exists ls, In (q, ls) corpus /\ In p ls.

(** Every page recorded under [p] links to [p]. *)
Definition index_sound (corpus : graph) (incomingPages : dict (list Page)) : Prop :=
  forall p l q, dict_get p incomingPages = Some l -> In q l -> links_to corpus q p.

(** The working mapping has a rank for every page of the graph. *)
Definition covers (corpus : graph) (ranks : dict Q) : Prop :=
  forall p, In p (keys corpus) -> exists v, dict_get p ranks = Some v.

(** The rank the body of the loop computes for [p] when the mapping it reads
    is [ranks]. *)
Definition rank_from (corpus : graph) (d : Q) (incomingPages : dict (list Page))
    (ranks : dict Q) (p : Page) : option Q :=
  match update_page corpus d incomingPages p (ranks, 0) with
  | Ok (ranks', _) => dict_get p ranks'
  | Raise _ => None
  end.

(** The round as the specification words it: every page's new rank is
    computed from the previous round's complete [snapshot], and the new
    ranks are collected apart from it. *)
Definition round_from_snapshot (corpus : graph) (d : Q)
    (incomingPages : dict (list Page)) (snapshot : dict Q) : result (dict Q * Q) :=
  for_each (keys corpus)
    (fun p s =>
       let '(newRanks, change) := s in
       '(updated, delta) <- update_page corpus d incomingPages p (snapshot, 0) ;;
       match dict_get p updated with
       | Some v => Ok (dict_set p v newRanks, change + delta)
       | None => Ok (newRanks, change)
       end)
    (snapshot, 0).

(** The specification's reading of a round: the rank every page has after
    the round is the rank computed from the [snapshot] the round started
    with. *)
Definition round_reads_snapshot (corpus : graph) (d : Q) (snapshot : dict Q) : Prop :=
  forall ranks change,
    round corpus d (incoming_index corpus) snapshot = Ok (ranks, change) ->
    forall p, In p (keys corpus) ->
    exists v v_s,
      dict_get p ranks = Some v /\
      rank_from corpus d (incoming_index corpus) snapshot p = Some v_s /\
      v == v_s.

(** ** The steps of sample_pagerank *)

(** The source after [k] more draws. *)
Definition advance (k : nat) (st : rng) : rng :=
  {| draws := draws st; pos := (k + pos st)%nat |}.

(** The specification's reading of a step: the page that becomes the current
    page is the page the step credited with 1/n. *)
Definition credits_the_next_page (corpus : graph) (d : Q) (n : Z)
    (cur : Page) (est : dict Q) (st : rng) : Prop :=
  forall next est' st',
    sample_step corpus d n (cur, est, st) = Ok (next, est', st') ->
    est' = credit next (1 / inject_Z n) est.

(** ** Example graphs and random sources *)

(** Page "1.html" links to "2.html" and "3.html" in a graph of three pages. *)
Definition corpus_example : graph :=
  [("1.html", ["2.html"; "3.html"]); ("2.html", ["3.html"]); ("3.html", ["2.html"])]%string.

(** A graph of two pages: "1.html" links to "2.html", nothing links to
    "1.html". *)
Definition corpus_no_incoming : graph :=
  [("1.html", ["2.html"]); ("2.html", [])]%string.

(** "1.html" and "2.html" link to each other, "2.html" also links to the
    sink "3.html".  Every page has an incoming link and every link resolves. *)
Definition corpus_sink : graph :=
  [("1.html", ["2.html"]); ("2.html", ["1.html"; "3.html"]); ("3.html", [])]%string.

(** "1.html" links to the two other pages, which link back to it. *)
Definition corpus_cycle : graph :=
  [("1.html", ["2.html"; "3.html"]); ("2.html", ["1.html"]); ("3.html", ["1.html"])]%string.

(** A random source whose every draw is 0. *)
Definition zero_draws : rng := {| draws := fun _ => 0; pos := 0 |}.

(** A source whose first draw is 0 and whose later draws are 1/2. *)
Definition three_draws : rng :=
  {| draws := fun i => match i with 0%nat => 0 | _ => 1 # 2 end; pos := 0 |}.

(** * Notions used by the further properties *)

(** ** crawl *)

(** The pruned links of an entry. *)
Definition prune_entry (pages : graph) (kv : Page * list Page) : Page * list Page :=
  (fst kv, filter (fun link => dict_mem link pages) (snd kv)).

(** The graph [crawl] returns. *)
Definition crawled (findall : string -> list string)
    (directory : list (string * string)) : graph :=
  map (prune_entry (crawl_extract findall directory))
      (crawl_extract findall directory).

(** ** The incoming-links index and the recurrence *)

(** [p in linkedTo], for an item of the graph. *)
Definition links_to_b (p : Page) (kv : Page * list Page) : bool :=
  if in_dec string_dec p (snd kv) then true else false.

(** The pages whose links hold [p], in the order of the graph. *)
Definition linkers (corpus : graph) (p : Page) : list Page :=
  map fst (filter (links_to_b p) corpus).

(** The entry of the index once the pages of [l] are appended to it. *)
Definition append_to (o : option (list Page)) (l : list Page) : option (list Page) :=
  match l with
  | [] => o
  | _ => Some (match o with Some l0 => l0 ++ l | None => l end)
  end.

(** [iterativePageRank[q]] and [len(corpus[q])], as numbers. *)
Definition rank_of (ranks : dict Q) (q : Page) : Q :=
  match dict_get q ranks with Some r => r | None => 0 end.

Definition out_degree (corpus : graph) (q : Page) : Q :=
  match dict_get q corpus with Some ls => len ls | None => 0 end.

Definition Qsum (l : list Q) : Q := fold_right Qplus 0 l.

(** The PageRank recurrence for [p], read on the mapping [ranks]:
    (1-d)/N + d * sum over the pages q linking to p of rank(q)/|links(q)|. *)
Definition recurrence (corpus : graph) (d : Q) (ranks : dict Q) (p : Page) : Q :=
  (1 - d) / len corpus
  + d * Qsum (map (fun q => rank_of ranks q / out_degree corpus q) (linkers corpus p)).

(** ** The rounds of iterate_pagerank as a contraction *)

(** The part of the rank of [q] that the recurrence sends to [i]:
    1/|links(q)| when [q] links to [i], nothing otherwise. *)
Definition share (corpus : graph) (i q : Page) : Q :=
  match dict_get q corpus with
  | Some ls => if in_dec string_dec i ls then 1 / len ls else 0
  | None => 0
  end.

(** The sum of the recurrence for [i], over all pages of the graph. *)
Definition inflow (corpus : graph) (c : Page -> Q) (i : Page) : Q :=
  Qsum (map (fun q => share corpus i q * c q) (keys corpus)).

(** How far two rank mappings are apart on page [q]. *)
Definition gap (y z : dict Q) (q : Page) : Q := Qabs (rank_of y q - rank_of z q).

(** The sum over the pages of [l] of [u q * c q]. *)
Definition wsum (u c : Page -> Q) (l : list Page) : Q :=
  Qsum (map (fun q => u q * c q) l).

(** The weights of the pages once page [i] is visited: [i] weighs 1, and
    every other page loses d times the share it sends to [i]. *)
Definition wstep (corpus : graph) (d : Q) (i : Page) (u : Page -> Q) : Page -> Q :=
  fun q => if string_dec q i then 1 else u q - d * share corpus i q.

Definition wsweep (corpus : graph) (d : Q) (l : list Page) (u : Page -> Q)
  : Page -> Q :=
  fold_left (fun u i => wstep corpus d i u) l u.

(** The weight of a page in the norm the rounds contract: 1 minus d times
    the shares it sends to the pages that come after it in the graph. *)
Definition weight (corpus : graph) (d : Q) : Page -> Q :=
  wsweep corpus d (keys corpus) (fun _ => 1).

(** The weighted distance between two rank mappings. *)
Definition distance (corpus : graph) (d : Q) (y z : dict Q) : Q :=
  wsum (weight corpus d) (gap y z) (keys corpus).

(** [r] more rounds are enough, from a weighted distance of at most [t]
    between the last two mappings, to see a change of at most 0.001. *)
Fixpoint rounds_enough (d : Q) (r : nat) (t : Q) : Prop :=
  t <= (1 - d) * (1 / 1000) \/
  match r with
  | O => False
  | S r' => rounds_enough d r' (d * t)
  end.

(** Every rank is at least [b]. *)
Definition ranks_at_least (b : Q) (ranks : dict Q) : Prop :=
  Forall (fun kv => b <= snd kv) ranks.

(** * Properties *)

(** ** The error monad and the loops *)

Lemma bind_Ok {A B : Type} (c : result A) (k : A -> result B) (b : B) :
  bind c k = Ok b -> exists a, c = Ok a /\ k a = Ok b.
Proof.
  destruct c as [a | e]; simpl; intros H; [eauto | discriminate].
Qed.

Lemma for_each_app {A S : Type} (l1 l2 : list A) (body : A -> S -> result S) (s : S) :
  for_each (l1 ++ l2) body s = (s' <- for_each l1 body s ;; for_each l2 body s').
Proof.
  revert s; induction l1 as [| x l1 IH]; intros s; simpl; [reflexivity |].
  destruct (body x s) as [s' | e]; simpl; [apply IH | reflexivity].
Qed.

(** A loop whose body cannot raise while an invariant holds, and keeps it,
    ends normally in a state where it holds. *)
Lemma for_each_invariant {A S : Type} (I : S -> Prop) (P : A -> Prop)
    (body : A -> S -> result S) (l : list A) (s : S) :
  (forall x s, P x -> I s -> exists s', body x s = Ok s' /\ I s') ->
  Forall P l -> I s ->
  exists s', for_each l body s = Ok s' /\ I s'.
Proof.
  intros Hbody Hl; revert s.
  induction Hl as [| x l Hx Hl IH]; intros s Hs; simpl; [eauto |].
  destruct (Hbody x s Hx Hs) as (s1 & -> & Hs1); simpl.
  apply IH, Hs1.
Qed.

(** ** Dictionaries *)

Section DictFacts.
Context {V : Type}.
Implicit Types (d : dict V) (k : Page) (v : V).

Lemma dict_get_None k d : dict_get k d = None <-> ~ In k (keys d).
Proof.
  induction d as [| [k' v'] d IH]; simpl; [tauto |].
  destruct (String.eqb_spec k k') as [-> | Hne].
  - split; [discriminate | intros H; exfalso; apply H; now left].
  - rewrite IH; split; intros H; [intros [E | Hin]; [congruence | tauto] | tauto].
Qed.

Lemma dict_get_Some_In k v d : dict_get k d = Some v -> In (k, v) d.
Proof.
  induction d as [| [k' v'] d IH]; simpl; [discriminate |].
  destruct (String.eqb_spec k k') as [-> | Hne]; intros H.
  - injection H as ->; now left.
  - right; auto.
Qed.

Lemma dict_get_In_keys k v d : dict_get k d = Some v -> In k (keys d).
Proof.
  intros H; apply dict_get_Some_In in H.
  apply (in_map fst) in H; exact H.
Qed.

Lemma In_keys_dict_get k d : In k (keys d) -> exists v, dict_get k d = Some v.
Proof.
  intros H; destruct (dict_get k d) as [v |] eqn:E; [eauto |].
  apply dict_get_None in E; contradiction.
Qed.

Lemma In_dict_get k v d : dict_wf d -> In (k, v) d -> dict_get k d = Some v.
Proof.
  unfold dict_wf; induction d as [| [k' v'] d IH]; simpl; [tauto |].
  intros Hnd [E | Hin]; inversion Hnd as [| ? ? Hnotin Hnd']; subst.
  - injection E as -> ->; now rewrite String.eqb_refl.
  - destruct (String.eqb_spec k k') as [-> | Hne]; [| auto].
    exfalso; apply Hnotin. apply (in_map fst) in Hin; exact Hin.
Qed.

Lemma dict_get_set_eq k v d : dict_get k (dict_set k v d) = Some v.
Proof.
  induction d as [| [k' v'] d IH]; simpl.
  - now rewrite String.eqb_refl.
  - destruct (String.eqb_spec k k') as [-> | Hne]; simpl.
    + now rewrite String.eqb_refl.
    + apply String.eqb_neq in Hne; now rewrite Hne.
Qed.

Lemma dict_get_set_neq k k' v d :
  k <> k' -> dict_get k' (dict_set k v d) = dict_get k' d.
Proof.
  intros Hne; induction d as [| [k0 v0] d IH]; simpl.
  - apply not_eq_sym, String.eqb_neq in Hne; now rewrite Hne.
  - destruct (String.eqb_spec k k0) as [-> | Hne0]; simpl.
    + apply not_eq_sym, String.eqb_neq in Hne; now rewrite Hne.
    + now rewrite IH.
Qed.

(** Overwriting keeps the keys; a new key goes to the end. *)
Lemma keys_dict_set_mem k v v0 d :
  dict_get k d = Some v0 -> keys (dict_set k v d) = keys d.
Proof.
  induction d as [| [k' v'] d IH]; simpl; [discriminate |].
  destruct (String.eqb_spec k k') as [-> | Hne]; simpl; intros H.
  - reflexivity.
  - f_equal; auto.
Qed.

Lemma dict_set_new k v d :
  dict_get k d = None -> dict_set k v d = d ++ [(k, v)].
Proof.
  induction d as [| [k' v'] d IH]; simpl; [reflexivity |].
  destruct (String.eqb_spec k k') as [-> | Hne]; [discriminate |].
  intros H; f_equal; auto.
Qed.

Lemma In_keys_dict_set k k' v d :
  In k' (keys (dict_set k v d)) <-> k' = k \/ In k' (keys d).
Proof.
  destruct (dict_get k d) as [v0 |] eqn:E.
  - rewrite (keys_dict_set_mem _ _ _ _ E).
    apply dict_get_In_keys in E.
    split; [tauto | intros [-> | ?]; auto].
  - rewrite (dict_set_new _ _ _ E). unfold keys; rewrite map_app, in_app_iff; simpl.
    split; [intros [? | [? | []]]; auto | intros [-> | ?]; auto].
Qed.

Lemma dict_wf_set k v d : dict_wf d -> dict_wf (dict_set k v d).
Proof.
  unfold dict_wf; intros Hwf.
  destruct (dict_get k d) as [v0 |] eqn:E.
  - now rewrite (keys_dict_set_mem _ _ _ _ E).
  - rewrite (dict_set_new _ _ _ E). unfold keys; rewrite map_app; simpl.
    apply dict_get_None in E.
    apply NoDup_app; [exact Hwf | repeat constructor; simpl; tauto |].
    intros x Hx [<- | []]; contradiction.
Qed.

Lemma len_keys d : len (keys d) = len d.
Proof. unfold len, keys; now rewrite length_map. Qed.

End DictFacts.

(** ** Sums and rounding *)

Lemma fold_left_Qplus (l : list Q) (a : Q) :
  fold_left Qplus l a == a + fold_left Qplus l 0.
Proof.
  revert a; induction l as [| x l IH]; intros a; simpl.
  - ring.
  - rewrite (IH (a + x)), (IH (0 + x)). ring.
Qed.

Lemma sum_values_cons (k : Page) (v : Q) (d : dict Q) :
  sum_values ((k, v) :: d) == v + sum_values d.
Proof.
  unfold sum_values; simpl. rewrite fold_left_Qplus. ring.
Qed.

Lemma sum_values_app (d1 d2 : dict Q) :
  sum_values (d1 ++ d2) == sum_values d1 + sum_values d2.
Proof.
  induction d1 as [| [k v] d1 IH]; simpl.
  - change (sum_values []) with 0. ring.
  - rewrite !sum_values_cons, IH. ring.
Qed.

Lemma sum_values_set_new (k : Page) (v : Q) (d : dict Q) :
  dict_get k d = None -> sum_values (dict_set k v d) == sum_values d + v.
Proof.
  intros E. rewrite (dict_set_new _ _ _ E), sum_values_app, sum_values_cons.
  change (sum_values []) with 0. ring.
Qed.

Lemma sum_values_set_mem (k : Page) (v v0 : Q) (d : dict Q) :
  dict_get k d = Some v0 -> sum_values (dict_set k v d) == sum_values d - v0 + v.
Proof.
  induction d as [| [k' v'] d IH]; simpl; [discriminate |].
  destruct (String.eqb_spec k k') as [-> | Hne]; intros H.
  - injection H as ->. rewrite !sum_values_cons. ring.
  - rewrite !sum_values_cons, (IH H). ring.
Qed.

(** Crediting an entry adds the credit to the sum, new key or not. *)
Lemma sum_values_credit (p : Page) (inc : Q) (est : dict Q) :
  sum_values (credit p inc est) == sum_values est + inc.
Proof.
  unfold credit. destruct (dict_get p est) as [v |] eqn:E.
  - rewrite (sum_values_set_mem _ _ _ _ E). ring.
  - now apply sum_values_set_new.
Qed.

#[global] Instance round_half_even_comp : Proper (Qeq ==> eq) round_half_even.
Proof.
  intros x y Hxy. unfold round_half_even.
  assert (Hf : Qfloor x = Qfloor y) by now rewrite Hxy.
  rewrite Hf.
  assert (Hc : Qcompare (x - inject_Z (Qfloor y)) (1 # 2)
               = Qcompare (y - inject_Z (Qfloor y)) (1 # 2)) by now rewrite Hxy.
  now rewrite Hc.
Qed.

#[global] Instance round3_comp : Proper (Qeq ==> Qeq) round3.
Proof.
  intros x y Hxy. unfold round3.
  assert (H : round_half_even (x * 1000) = round_half_even (y * 1000))
    by now rewrite Hxy.
  now rewrite H.
Qed.

Lemma round3_one (s : Q) : s == 1 -> round3 s == 1.
Proof. intros ->. reflexivity. Qed.

(** ** checkProbabilityDictionary *)

Lemma check_entry_Ok (kv : Page * Q) (s : Q) :
  in_bounds (snd kv) -> check_entry kv s = Ok (s + snd kv).
Proof.
  intros [H0 H1]. unfold check_entry, Qgt_bool, Qlt_bool.
  apply Qle_bool_iff in H0, H1. now rewrite H0, H1.
Qed.

Lemma check_entry_Raise (kv : Page * Q) (s : Q) :
  ~ in_bounds (snd kv) -> check_entry kv s = Raise (Exception ProbabilityNotInBounds).
Proof.
  intros H. unfold check_entry, Qgt_bool, Qlt_bool.
  destruct (Qle_bool (snd kv) 1) eqn:E1; [| reflexivity].
  destruct (Qle_bool 0 (snd kv)) eqn:E0; [| reflexivity].
  exfalso; apply H; split; now apply Qle_bool_iff.
Qed.

Lemma in_bounds_dec (v : Q) : {in_bounds v} + {~ in_bounds v}.
Proof.
  unfold in_bounds.
  destruct (Qlt_le_dec v 0) as [H0 | H0]; [right; intros [? ?]; lra |].
  destruct (Qlt_le_dec 1 v) as [H1 | H1]; [right; intros [? ?]; lra |].
  left; split; assumption.
Qed.

(** The loop of the validator: the running sum when every value is in bounds,
    the bounds exception at the first value that is not. *)
Lemma check_loop (model : dict Q) (s : Q) :
  (Forall (fun kv => in_bounds (snd kv)) model /\
   for_each model check_entry s = Ok (fold_left Qplus (values model) s))
  \/
  (Exists (fun kv => ~ in_bounds (snd kv)) model /\
   for_each model check_entry s = Raise (Exception ProbabilityNotInBounds)).
Proof.
  revert s; induction model as [| kv model IH]; intros s; simpl.
  - left; split; [constructor | reflexivity].
  - destruct (in_bounds_dec (snd kv)) as [Hb | Hb].
    + rewrite (check_entry_Ok _ _ Hb); simpl.
      destruct (IH (s + snd kv)) as [[HF ->] | [HE ->]].
      * left; split; [now constructor | reflexivity].
      * right; split; [now apply Exists_cons_tl | reflexivity].
    + rewrite (check_entry_Raise _ _ Hb); simpl.
      right; split; [now apply Exists_cons_hd | reflexivity].
Qed.

Lemma check_valid (model : dict Q) :
  valid_distribution model -> checkProbabilityDictionary model = Ok true.
Proof.
  intros [HF Hs]. unfold checkProbabilityDictionary.
  destruct (check_loop model 0) as [[_ ->] | [HE _]]; simpl.
  - fold (sum_values model). apply Qeq_bool_iff in Hs. now rewrite Hs.
  - exfalso. apply Exists_exists in HE as (kv & Hin & Hnb).
    rewrite Forall_forall in HF. exact (Hnb (HF kv Hin)).
Qed.

Lemma check_invalid (model : dict Q) :
  ~ valid_distribution model -> InvalidDistribution (checkProbabilityDictionary model).
Proof.
  intros Hnv. unfold checkProbabilityDictionary.
  destruct (check_loop model 0) as [[HF ->] | [_ ->]]; simpl.
  - fold (sum_values model).
    destruct (Qeq_bool (round3 (sum_values model)) 1) eqn:E; simpl.
    + exfalso; apply Hnv; split; [exact HF | now apply Qeq_bool_iff].
    + eexists; reflexivity.
  - eexists; reflexivity.
Qed.

Lemma check_Ok_valid (model : dict Q) (b : bool) :
  checkProbabilityDictionary model = Ok b -> valid_distribution model.
Proof.
  intros H. unfold checkProbabilityDictionary in H.
  destruct (check_loop model 0) as [[HF E] | [_ E]]; rewrite E in H; simpl in H;
    [| discriminate].
  fold (sum_values model) in H.
  destruct (Qeq_bool (round3 (sum_values model)) 1) eqn:Er; simpl in H;
    [| discriminate].
  split; [exact HF | now apply Qeq_bool_iff].
Qed.

Lemma not_valid_iff (model : dict Q) :
  ~ valid_distribution model <->
  (exists p v, In (p, v) model /\ ~ (0 <= v /\ v <= 1)) \/
  ~ round3 (sum_values model) == 1.
Proof.
  split.
  - intros Hnv. destruct (check_loop model 0) as [[HF _] | [HE _]].
    + right; intros Hs; apply Hnv; split; assumption.
    + left. apply Exists_exists in HE as ([p v] & Hin & Hnb).
      exists p, v; split; assumption.
  - intros [(p & v & Hin & Hnb) | Hs] [HF Hr].
    + rewrite Forall_forall in HF. exact (Hnb (HF (p, v) Hin)).
    + exact (Hs Hr).
Qed.

(** C9: the validator fails with InvalidDistribution if and only if some
    value of the distribution lies outside [0,1] or the sum of the values,
    rounded to three decimals, is not exactly 1.0; otherwise it reports ok
    (returns [True]). *)
Theorem checkProbabilityDictionary_fails_iff (model : dict Q) :
  (InvalidDistribution (checkProbabilityDictionary model) <->
   (exists p v, In (p, v) model /\ ~ (0 <= v /\ v <= 1)) \/
   ~ round3 (sum_values model) == 1)
  /\
  (~ InvalidDistribution (checkProbabilityDictionary model) ->
   checkProbabilityDictionary model = Ok true).
Proof.
  split.
  - rewrite <- not_valid_iff. split.
    + intros [msg Hr] Hv. rewrite (check_valid _ Hv) in Hr. discriminate.
    + apply check_invalid.
  - intros Hni.
    destruct (checkProbabilityDictionary model) as [b | e] eqn:E.
    + rewrite <- E. apply check_valid. exact (check_Ok_valid _ _ E).
    + exfalso. apply Hni.
      destruct (check_loop model 0) as [[HF E0] | [_ E0]];
        unfold checkProbabilityDictionary in E; rewrite E0 in E; simpl in E.
      * destruct (negb _) in E; [| discriminate].
        injection E as <-. eexists; reflexivity.
      * injection E as <-. eexists; reflexivity.
Qed.

(** ** Lengths and divisions *)

Lemma len_cons {A : Type} (x : A) (l : list A) : len (x :: l) == 1 + len l.
Proof.
  unfold len; simpl List.length. rewrite Nat2Z.inj_succ, <- Z.add_1_l.
  now rewrite inject_Z_plus.
Qed.

Lemma len_nonneg {A : Type} (l : list A) : 0 <= len l.
Proof.
  unfold len. change 0 with (inject_Z 0). rewrite <- Zle_Qle. lia.
Qed.

Lemma len_ge_1 {A : Type} (l : list A) : l <> [] -> 1 <= len l.
Proof.
  destruct l as [| x l]; [congruence | intros _].
  rewrite len_cons. pose proof (len_nonneg l). lra.
Qed.

Lemma len_nonzero {A : Type} (l : list A) : l <> [] -> ~ len l == 0.
Proof. intros H E. apply len_ge_1 in H. lra. Qed.

Lemma py_div_Ok (a b : Q) : ~ b == 0 -> py_div a b = Ok (a / b).
Proof.
  intros H. unfold py_div.
  destruct (Qeq_bool b 0) eqn:E; [| reflexivity].
  apply Qeq_bool_iff in E. contradiction.
Qed.

Lemma py_div_zero (a b : Q) : b == 0 -> py_div a b = Raise ZeroDivisionError.
Proof.
  intros H. unfold py_div. apply Qeq_bool_iff in H. now rewrite H.
Qed.

Lemma Qdiv_ge_1_bounds (x n : Q) : 0 <= x -> 1 <= n -> 0 <= x / n /\ x / n <= x.
Proof.
  intros Hx Hn. split.
  - apply Qle_shift_div_l; [lra | lra].
  - apply Qle_shift_div_r; [lra | nra].
Qed.

(** ** Loops without exceptions *)

Lemma for_each_ext {A S : Type} (l : list A) (body1 body2 : A -> S -> result S) :
  (forall x s, In x l -> body1 x s = body2 x s) ->
  forall s, for_each l body1 s = for_each l body2 s.
Proof.
  induction l as [| x l IH]; intros Hb s; simpl; [reflexivity |].
  rewrite (Hb x s (or_introl eq_refl)).
  destruct (body2 x s) as [s' | e]; simpl; [| reflexivity].
  apply IH. intros y s0 Hy. apply Hb. now right.
Qed.

Lemma for_each_pure {A S : Type} (l : list A) (f : A -> S -> S) (s : S) :
  for_each l (fun x s => Ok (f x s)) s = Ok (fold_left (fun s x => f x s) l s).
Proof.
  revert s; induction l as [| x l IH]; intros s; simpl; [reflexivity | apply IH].
Qed.

(** ** Filling and crediting a dictionary *)

Lemma keys_fill (v : Q) (l : list Page) : keys (fill v l) = l.
Proof.
  unfold keys, fill. rewrite map_map; simpl. apply map_id.
Qed.

Lemma sum_values_fill (v : Q) (l : list Page) : sum_values (fill v l) == len l * v.
Proof.
  induction l as [| p l IH]; simpl.
  - change (sum_values []) with 0. unfold len; simpl. ring.
  - rewrite sum_values_cons, IH, len_cons. ring.
Qed.

Lemma dict_get_fill (v : Q) (l : list Page) (p : Page) :
  dict_get p (fill v l) = if in_dec string_dec p l then Some v else None.
Proof.
  destruct (in_dec string_dec p l) as [Hin | Hnin].
  - destruct (In_keys_dict_get p (fill v l)) as [v' Hv'];
      [now rewrite keys_fill |].
    rewrite Hv'. f_equal.
    apply dict_get_Some_In in Hv'. unfold fill in Hv'.
    apply in_map_iff in Hv' as (q & E & _). congruence.
  - apply dict_get_None. now rewrite keys_fill.
Qed.

(** [for p in l: tm[p] = v] on pages that are all new appends them in order. *)
Lemma set_all_new (v : Q) (l : list Page) (tm0 : dict Q) :
  NoDup l -> (forall p, In p l -> dict_get p tm0 = None) ->
  fold_left (fun tm p => dict_set p v tm) l tm0 = tm0 ++ fill v l.
Proof.
  revert tm0; induction l as [| a l IH]; intros tm0 Hnd Hnew; simpl.
  - now rewrite app_nil_r.
  - inversion Hnd as [| ? ? Hnotin Hnd']; subst.
    rewrite IH; [| exact Hnd' |].
    + rewrite (dict_set_new a v tm0) by (apply Hnew; now left).
      now rewrite <- app_assoc.
    + intros p Hp. rewrite dict_get_set_neq by (intros ->; contradiction).
      apply Hnew; now right.
Qed.

Lemma dict_get_credit_eq (p : Page) (inc : Q) (d : dict Q) :
  dict_get p (credit p inc d) = Some (credited inc (dict_get p d)).
Proof.
  unfold credit, credited. destruct (dict_get p d); apply dict_get_set_eq.
Qed.

Lemma dict_get_credit_neq (p q : Page) (inc : Q) (d : dict Q) :
  p <> q -> dict_get q (credit p inc d) = dict_get q d.
Proof.
  intros H. unfold credit. destruct (dict_get p d); now apply dict_get_set_neq.
Qed.

Lemma In_keys_credit (p q : Page) (inc : Q) (d : dict Q) :
  In q (keys (credit p inc d)) <-> q = p \/ In q (keys d).
Proof.
  unfold credit. destruct (dict_get p d); apply In_keys_dict_set.
Qed.

Lemma dict_wf_credit (p : Page) (inc : Q) (d : dict Q) :
  dict_wf d -> dict_wf (credit p inc d).
Proof.
  unfold credit. destruct (dict_get p d); apply dict_wf_set.
Qed.

Lemma credit_all_get_notin (inc : Q) (l : list Page) (tm : dict Q) (p : Page) :
  ~ In p l -> dict_get p (credit_all inc l tm) = dict_get p tm.
Proof.
  revert tm; induction l as [| a l IH]; intros tm Hnin; simpl; [reflexivity |].
  unfold credit_all in *; simpl. rewrite IH by (simpl in Hnin; tauto).
  apply dict_get_credit_neq. simpl in Hnin; intros ->; tauto.
Qed.

Lemma credit_all_get_in (inc : Q) (l : list Page) (tm : dict Q) (p : Page) :
  NoDup l -> In p l ->
  dict_get p (credit_all inc l tm) = Some (credited inc (dict_get p tm)).
Proof.
  revert tm; induction l as [| a l IH]; intros tm Hnd Hin; [destruct Hin |].
  inversion Hnd as [| ? ? Hnotin Hnd']; subst.
  change (credit_all inc (a :: l) tm) with (credit_all inc l (credit a inc tm)).
  destruct (string_dec a p) as [-> | Hne].
  - rewrite credit_all_get_notin by exact Hnotin. apply dict_get_credit_eq.
  - destruct Hin as [E | Hin]; [contradiction |].
    rewrite (IH _ Hnd' Hin). now rewrite dict_get_credit_neq.
Qed.

Lemma In_keys_credit_all (inc : Q) (l : list Page) (tm : dict Q) (p : Page) :
  In p (keys (credit_all inc l tm)) <-> In p l \/ In p (keys tm).
Proof.
  revert tm; induction l as [| a l IH]; intros tm; [simpl; tauto |].
  change (credit_all inc (a :: l) tm) with (credit_all inc l (credit a inc tm)).
  rewrite IH, In_keys_credit; simpl. intuition congruence.
Qed.

Lemma dict_wf_credit_all (inc : Q) (l : list Page) (tm : dict Q) :
  dict_wf tm -> dict_wf (credit_all inc l tm).
Proof.
  revert tm; induction l as [| a l IH]; intros tm Hwf; [exact Hwf |].
  apply IH, dict_wf_credit, Hwf.
Qed.

Lemma sum_values_credit_all (inc : Q) (l : list Page) (tm : dict Q) :
  sum_values (credit_all inc l tm) == sum_values tm + len l * inc.
Proof.
  revert tm; induction l as [| a l IH]; intros tm.
  - simpl. unfold len; simpl. ring.
  - change (credit_all inc (a :: l) tm) with (credit_all inc l (credit a inc tm)).
    rewrite IH, sum_values_credit, len_cons. ring.
Qed.

(** ** transition_model *)

Lemma set_all_loop (a b : Q) (l : list Page) :
  NoDup l -> (l <> [] -> ~ b == 0) ->
  for_each l (fun p tm => v <- py_div a b ;; Ok (dict_set p v tm)) []
  = Ok (fill (a / b) l).
Proof.
  intros Hnd Hb. destruct l as [| x l]; [reflexivity |].
  rewrite (for_each_ext _ _ (fun p tm => Ok (dict_set p (a / b) tm))).
  - rewrite for_each_pure, set_all_new; [reflexivity | exact Hnd | reflexivity].
  - intros p tm _. rewrite py_div_Ok by (apply Hb; discriminate). reflexivity.
Qed.

Lemma transition_model_unfold (corpus : graph) (page : Page) (d : Q)
    (linkedPages : list Page) :
  dict_wf corpus -> NoDup linkedPages ->
  dict_get page corpus = Some linkedPages ->
  transition_model corpus page d =
  (_ <- checkProbabilityDictionary (transition_dict corpus linkedPages d) ;;
   Ok (transition_dict corpus linkedPages d)).
Proof.
  intros Hwf Hnd Hget.
  assert (Hne : ~ len corpus == 0).
  { apply len_nonzero. intros ->. discriminate. }
  unfold transition_model, getitem. rewrite Hget; simpl.
  rewrite set_all_loop by (exact Hnd || apply len_nonzero); simpl.
  rewrite py_div_Ok by exact Hne; simpl.
  rewrite for_each_pure; simpl.
  destruct linkedPages as [| l0 ls]; simpl Nat.eqb; cbv iota.
  - rewrite set_all_loop.
    + reflexivity.
    + exact Hwf.
    + intros _. exact Hne.
  - reflexivity.
Qed.

(** The value [transition_model] gives a page of the graph when the current
    page has links. *)
Lemma transition_dict_get (corpus : graph) (linkedPages : list Page) (d : Q) (p : Page) :
  dict_wf corpus -> linkedPages <> [] -> In p (keys corpus) ->
  dict_get p (transition_dict corpus linkedPages d) =
  Some (if in_dec string_dec p linkedPages
        then d * 1 / len linkedPages + (1 - d) / len corpus
        else (1 - d) / len corpus).
Proof.
  intros Hwf Hne Hin. unfold transition_dict.
  destruct linkedPages as [| l0 ls]; [congruence |].
  rewrite credit_all_get_in by assumption.
  rewrite dict_get_fill.
  destruct (in_dec string_dec p (l0 :: ls)); reflexivity.
Qed.

Lemma transition_dict_keys (corpus : graph) (linkedPages : list Page) (d : Q) (p : Page) :
  incl linkedPages (keys corpus) ->
  In p (keys (transition_dict corpus linkedPages d)) <-> In p (keys corpus).
Proof.
  intros Hincl. unfold transition_dict.
  destruct linkedPages as [| l0 ls].
  - now rewrite keys_fill.
  - rewrite In_keys_credit_all, keys_fill. split; [intros [? | ?]; auto | auto].
Qed.

Lemma transition_dict_wf (corpus : graph) (linkedPages : list Page) (d : Q) :
  dict_wf corpus -> NoDup linkedPages ->
  dict_wf (transition_dict corpus linkedPages d).
Proof.
  intros Hwf Hnd. unfold transition_dict.
  destruct linkedPages as [| l0 ls].
  - unfold dict_wf. now rewrite keys_fill.
  - apply dict_wf_credit_all. unfold dict_wf. now rewrite keys_fill.
Qed.

Lemma transition_dict_sum (corpus : graph) (linkedPages : list Page) (d : Q) :
  corpus <> [] ->
  sum_values (transition_dict corpus linkedPages d) == 1.
Proof.
  intros Hc. apply len_nonzero in Hc. unfold transition_dict.
  destruct linkedPages as [| l0 ls].
  - rewrite sum_values_fill, len_keys. now field.
  - assert (Hl : ~ len (l0 :: ls) == 0) by (apply len_nonzero; discriminate).
    rewrite sum_values_credit_all, sum_values_fill, len_keys. now field.
Qed.

Lemma transition_dict_bounds (corpus : graph) (linkedPages : list Page) (d : Q) :
  dict_wf corpus -> NoDup linkedPages -> incl linkedPages (keys corpus) ->
  corpus <> [] -> 0 <= d -> d <= 1 ->
  Forall (fun kv => in_bounds (snd kv)) (transition_dict corpus linkedPages d).
Proof.
  intros Hwf Hnd Hincl Hc Hd0 Hd1.
  pose proof (len_ge_1 corpus Hc) as HN.
  apply Forall_forall. intros [p v] Hin. simpl.
  destruct linkedPages as [| l0 ls].
  - unfold transition_dict, fill in Hin.
    apply in_map_iff in Hin as (q & E & _). injection E as _ <-.
    unfold in_bounds. destruct (Qdiv_ge_1_bounds 1 (len corpus)); lra.
  - assert (Hk : In p (keys corpus)).
    { apply (transition_dict_keys corpus (l0 :: ls) d p Hincl).
      apply (in_map fst) in Hin. exact Hin. }
    apply In_dict_get in Hin; [| now apply transition_dict_wf].
    rewrite transition_dict_get in Hin by (assumption || discriminate).
    assert (HL : 1 <= len (l0 :: ls)) by (apply len_ge_1; discriminate).
    destruct (Qdiv_ge_1_bounds (d * 1) (len (l0 :: ls))); [lra | exact HL |].
    destruct (Qdiv_ge_1_bounds (1 - d) (len corpus)); [lra | exact HN |].
    unfold in_bounds.
    destruct (in_dec string_dec p (l0 :: ls)); injection Hin as <-; lra.
Qed.

(** On a page of the graph whose links are a set of pages of the graph,
    [transition_model] returns, and what it returns is [transition_dict]. *)
Lemma transition_model_total (corpus : graph) (page : Page) (d : Q)
    (linkedPages : list Page) :
  dict_wf corpus -> NoDup linkedPages -> incl linkedPages (keys corpus) ->
  0 <= d -> d <= 1 ->
  dict_get page corpus = Some linkedPages ->
  transition_model corpus page d = Ok (transition_dict corpus linkedPages d).
Proof.
  intros Hwf Hnd Hincl Hd0 Hd1 Hget.
  assert (Hc : corpus <> []) by (intros ->; discriminate).
  rewrite (transition_model_unfold _ _ _ _ Hwf Hnd Hget).
  rewrite check_valid; [reflexivity |].
  split.
  - now apply transition_dict_bounds.
  - apply round3_one. now apply transition_dict_sum.
Qed.

(** C7: for a page with at least one outbound link, [transition_model]
    returns a distribution that gives each linked page
    d/|links(page)| + (1-d)/|graph| and each other page of the graph
    (1-d)/|graph|: the two contributions are added.  The keys are the pages
    of the graph and the values sum to 1. *)
Theorem transition_model_linked (corpus : graph) (page : Page) (d : Q)
    (linkedPages : list Page) :
  dict_wf corpus -> NoDup linkedPages -> incl linkedPages (keys corpus) ->
  0 < d -> d < 1 ->
  dict_get page corpus = Some linkedPages -> linkedPages <> [] ->
  exists tm,
    transition_model corpus page d = Ok tm /\
    (forall p, In p linkedPages ->
       exists v, dict_get p tm = Some v /\
                 v == d / len linkedPages + (1 - d) / len corpus) /\
    (forall p, In p (keys corpus) -> ~ In p linkedPages ->
       exists v, dict_get p tm = Some v /\ v == (1 - d) / len corpus) /\
    (forall p, In p (keys tm) <-> In p (keys corpus)) /\
    sum_values tm == 1.
Proof.
  intros Hwf Hnd Hincl Hd0 Hd1 Hget Hne.
  assert (Hc : corpus <> []) by (intros ->; discriminate).
  exists (transition_dict corpus linkedPages d).
  split; [apply transition_model_total; auto; lra |].
  split; [| split; [| split]].
  - intros p Hp. eexists; split.
    + apply transition_dict_get; auto.
    + destruct (in_dec string_dec p linkedPages); [| contradiction].
      apply len_nonzero in Hne, Hc. now field.
  - intros p Hp Hnl. eexists; split.
    + apply transition_dict_get; auto.
    + destruct (in_dec string_dec p linkedPages); [contradiction | reflexivity].
  - intros p. now apply transition_dict_keys.
  - now apply transition_dict_sum.
Qed.

(** The 3-page example with d = 0.85: 0.475 for each linked page, 0.05 for
    the other page, and the three values sum to 1. *)
Lemma transition_model_linked_witness :
  exists tm,
    transition_model corpus_example "1.html"%string (85 # 100) = Ok tm /\
    (exists v, dict_get "2.html"%string tm = Some v /\ v == 475 # 1000) /\
    (exists v, dict_get "3.html"%string tm = Some v /\ v == 475 # 1000) /\
    (exists v, dict_get "1.html"%string tm = Some v /\ v == 5 # 100) /\
    sum_values tm == 1.
Proof.
  destruct (transition_model_linked corpus_example "1.html"%string (85 # 100)
              ["2.html"; "3.html"]%string)
    as (tm & Htm & Hlinked & Hother & _ & Hsum).
  - unfold dict_wf; simpl. repeat constructor; simpl; intuition discriminate.
  - repeat constructor; simpl; intuition discriminate.
  - intros p [<- | [<- | []]]; simpl; auto.
  - reflexivity.
  - reflexivity.
  - reflexivity.
  - discriminate.
  - exists tm. split; [exact Htm |]. split; [| split; [| split]].
    + destruct (Hlinked "2.html"%string) as (v & Hv & E); [simpl; auto |].
      exists v; split; [exact Hv | rewrite E; reflexivity].
    + destruct (Hlinked "3.html"%string) as (v & Hv & E); [simpl; auto |].
      exists v; split; [exact Hv | rewrite E; reflexivity].
    + destruct (Hother "1.html"%string) as (v & Hv & E);
        [simpl; auto | simpl; intuition discriminate |].
      exists v; split; [exact Hv | rewrite E; reflexivity].
    + exact Hsum.
Defined.

(** C8: for a page without outbound links, [transition_model] returns the
    uniform distribution: exactly 1/N for every page of the graph, the sink
    itself included, whatever the damping factor. *)
Theorem transition_model_sink (corpus : graph) (page : Page) (d : Q) :
  dict_wf corpus -> dict_get page corpus = Some [] ->
  exists tm,
    transition_model corpus page d = Ok tm /\
    keys tm = keys corpus /\
    (forall p, In p (keys corpus) -> dict_get p tm = Some (1 / len corpus)) /\
    dict_get page tm = Some (1 / len corpus).
Proof.
  intros Hwf Hget.
  assert (Hc : corpus <> []) by (intros ->; discriminate).
  assert (Hall : forall p, In p (keys corpus) ->
                 dict_get p (fill (1 / len corpus) (keys corpus))
                 = Some (1 / len corpus)).
  { intros p Hp. rewrite dict_get_fill.
    destruct (in_dec string_dec p (keys corpus)); [reflexivity | contradiction]. }
  exists (fill (1 / len corpus) (keys corpus)).
  split; [| split; [apply keys_fill | split; [exact Hall |]]].
  - rewrite (transition_model_unfold _ _ d [] Hwf (NoDup_nil _) Hget).
    change (transition_dict corpus [] d) with (fill (1 / len corpus) (keys corpus)).
    rewrite check_valid; [reflexivity |]. split.
    + apply Forall_forall. intros [p v] Hin. unfold fill in Hin.
      apply in_map_iff in Hin as (q & E & _). injection E as _ <-. simpl.
      pose proof (len_ge_1 corpus Hc).
      unfold in_bounds. destruct (Qdiv_ge_1_bounds 1 (len corpus)); lra.
    + apply round3_one. apply (transition_dict_sum corpus [] d Hc).
  - apply Hall. exact (dict_get_In_keys _ _ _ Hget).
Qed.

(** A sink in a graph of two pages: 1/2 for each page. *)
Lemma transition_model_sink_witness :
  exists tm,
    transition_model [("1.html", ["2.html"]); ("2.html", [])]%string
      "2.html"%string (85 # 100) = Ok tm /\
    dict_get "1.html"%string tm = Some (1 / 2) /\
    dict_get "2.html"%string tm = Some (1 / 2).
Proof.
  destruct (transition_model_sink
              [("1.html", ["2.html"]); ("2.html", [])]%string "2.html"%string (85 # 100))
    as (tm & Htm & _ & Hall & Hself).
  - unfold dict_wf; simpl. repeat constructor; simpl; intuition discriminate.
  - reflexivity.
  - exists tm. split; [exact Htm |]. split.
    + apply (Hall "1.html"%string). simpl; auto.
    + exact Hself.
Defined.

(** ** iterate_pagerank: the incoming-links index *)

Lemma record_incoming_sound (corpus : graph) (page p : Page)
    (incomingPages : dict (list Page)) :
  index_sound corpus incomingPages -> links_to corpus page p ->
  index_sound corpus (record_incoming page incomingPages p).
Proof.
  intros Hs Hl p' l q Hget Hq. unfold record_incoming in Hget.
  destruct (string_dec p p') as [<- | Hne].
  - destruct (dict_get p incomingPages) as [l0 |] eqn:E;
      rewrite dict_get_set_eq in Hget; injection Hget as <-.
    + apply in_app_iff in Hq as [Hq | [<- | []]]; [exact (Hs p l0 q E Hq) | exact Hl].
    + destruct Hq as [<- | []]. exact Hl.
  - destruct (dict_get p incomingPages);
      rewrite dict_get_set_neq in Hget by exact Hne; exact (Hs p' l q Hget Hq).
Qed.

Lemma record_all_sound (corpus : graph) (page : Page) (linkedTo : list Page)
    (incomingPages : dict (list Page)) :
  index_sound corpus incomingPages ->
  (forall p, In p linkedTo -> links_to corpus page p) ->
  index_sound corpus (fold_left (record_incoming page) linkedTo incomingPages).
Proof.
  revert incomingPages; induction linkedTo as [| p ls IH];
    intros incomingPages Hs Hl; simpl; [exact Hs |].
  apply IH.
  - apply record_incoming_sound; [exact Hs | apply Hl; now left].
  - intros p' Hp'. apply Hl; now right.
Qed.

Lemma index_fold_sound (corpus items : graph) (incomingPages : dict (list Page)) :
  incl items corpus -> index_sound corpus incomingPages ->
  index_sound corpus
    (fold_left
       (fun inc kv => fold_left (record_incoming (fst kv)) (snd kv) inc)
       items incomingPages).
Proof.
  revert incomingPages; induction items as [| [q ls] items IH];
    intros incomingPages Hincl Hs; simpl; [exact Hs |].
  apply IH.
  - intros kv Hkv. apply Hincl; now right.
  - apply record_all_sound; [exact Hs |].
    intros p Hp. exists ls. split; [apply Hincl; now left | exact Hp].
Qed.

Lemma incoming_index_sound (corpus : graph) :
  index_sound corpus (incoming_index corpus).
Proof.
  apply index_fold_sound; [apply incl_refl |].
  intros p l q Hget. discriminate.
Qed.

(** ** iterate_pagerank: no exception *)

Lemma covers_set (corpus : graph) (ranks : dict Q) (p : Page) (v : Q) :
  covers corpus ranks -> covers corpus (dict_set p v ranks).
Proof.
  intros Hc q Hq. destruct (string_dec p q) as [<- | Hne].
  - rewrite dict_get_set_eq. eauto.
  - rewrite dict_get_set_neq by exact Hne. auto.
Qed.

Lemma init_ranks_Ok (corpus : graph) :
  dict_wf corpus -> init_ranks corpus = Ok (fill (1 / len corpus) (keys corpus)).
Proof.
  intros Hwf. unfold init_ranks. apply set_all_loop; [exact Hwf |].
  intros Hk. apply len_nonzero. intros ->. now apply Hk.
Qed.

Lemma covers_init (corpus : graph) :
  covers corpus (fill (1 / len corpus) (keys corpus)).
Proof.
  intros p Hp. rewrite dict_get_fill.
  destruct (in_dec string_dec p (keys corpus)); [eauto | contradiction].
Qed.

(** One summand of the recurrence, for a page that links somewhere. *)
Lemma add_incoming_Ok (corpus : graph) (d : Q) (ranks : dict Q) (q : Page)
    (acc : Q) :
  dict_wf corpus -> covers corpus ranks ->
  (exists p, links_to corpus q p) ->
  exists r ls,
    dict_get q ranks = Some r /\ dict_get q corpus = Some ls /\ 0 < len ls /\
    add_incoming corpus d ranks q acc = Ok (acc + d * r / len ls).
Proof.
  intros Hwf Hcov (p & ls & Hin & Hp).
  assert (Hq : In q (keys corpus)) by (apply (in_map fst) in Hin; exact Hin).
  destruct (Hcov q Hq) as [r Hr].
  pose proof (In_dict_get _ _ _ Hwf Hin) as Hls.
  assert (Hne : ls <> []) by (intros ->; destruct Hp).
  exists r, ls. repeat split; try assumption.
  - apply len_ge_1 in Hne. lra.
  - unfold add_incoming, getitem. rewrite Hr, Hls; simpl.
    rewrite py_div_Ok by (now apply len_nonzero). reflexivity.
Qed.

Lemma update_page_Ok (corpus : graph) (d : Q) (incomingPages : dict (list Page))
    (p : Page) (ranks : dict Q) (change : Q) :
  dict_wf corpus -> index_sound corpus incomingPages ->
  In p (keys corpus) -> covers corpus ranks ->
  exists ranks' change',
    update_page corpus d incomingPages p (ranks, change) = Ok (ranks', change')
    /\ covers corpus ranks'.
Proof.
  intros Hwf Hidx Hp Hcov. unfold update_page.
  assert (Hc : corpus <> []) by (intros ->; destruct Hp).
  rewrite py_div_Ok by (now apply len_nonzero); simpl.
  destruct (dict_get p incomingPages) as [incoming |] eqn:E; [| eauto].
  destruct (for_each_invariant (fun _ : Q => True)
              (fun q => exists p', links_to corpus q p')
              (add_incoming corpus d ranks) incoming ((1 - d) / len corpus))
    as (new & -> & _); simpl.
  - intros q acc Hq _.
    destruct (add_incoming_Ok corpus d ranks q acc Hwf Hcov Hq)
      as (r & ls & _ & _ & _ & ->). eauto.
  - apply Forall_forall. intros q Hq. exists p. exact (Hidx p incoming q E Hq).
  - exact I.
  - destruct (Hcov p Hp) as [old Hold]. unfold getitem. rewrite Hold; simpl.
    eexists _, _. split; [reflexivity | now apply covers_set].
Qed.

Lemma round_Ok (corpus : graph) (d : Q) (incomingPages : dict (list Page))
    (ranks : dict Q) :
  dict_wf corpus -> index_sound corpus incomingPages -> covers corpus ranks ->
  exists ranks' change',
    round corpus d incomingPages ranks = Ok (ranks', change') /\
    covers corpus ranks'.
Proof.
  intros Hwf Hidx Hcov. unfold round.
  destruct (for_each_invariant (fun s : dict Q * Q => covers corpus (fst s))
              (fun p => In p (keys corpus))
              (update_page corpus d incomingPages) (keys corpus) (ranks, 0))
    as ([ranks' change'] & E & Hc').
  - intros p [r c] Hp Hr; simpl in Hr.
    destruct (update_page_Ok corpus d incomingPages p r c Hwf Hidx Hp Hr)
      as (r' & c' & -> & Hr'). exists (r', c'). split; [reflexivity | exact Hr'].
  - apply Forall_forall. auto.
  - exact Hcov.
  - exists ranks', change'. split; [exact E | exact Hc'].
Qed.

Lemma while_loop_no_exception (fuel : nat) (corpus : graph) (d : Q)
    (incomingPages : dict (list Page)) (ranks : dict Q) (change : Q) :
  dict_wf corpus -> index_sound corpus incomingPages -> covers corpus ranks ->
  forall e, while_loop fuel corpus d incomingPages ranks change <> Some (Raise e).
Proof.
  intros Hwf Hidx. revert ranks change.
  induction fuel as [| fuel IH]; intros ranks change Hcov e; simpl;
    destruct (Qgt_bool change (1 / 1000)); try discriminate.
  destruct (round_Ok corpus d incomingPages ranks Hwf Hidx Hcov)
    as (ranks' & change' & -> & Hcov').
  now apply IH.
Qed.

(** C10: the division oldRank(q)/|outLinks(q)| is defined on every graph.  A
    page [q] is in the index under [p] only when [p] is in [corpus[q]], so
    [corpus[q]] exists and is not empty, the divisor [len(corpus[q])] is
    positive, and no run of [iterate_pagerank], however long, raises an
    exception. *)
Theorem iterate_pagerank_division_defined (corpus : graph) (d : Q) (fuel : nat) :
  dict_wf corpus ->
  (forall p incoming q,
     dict_get p (incoming_index corpus) = Some incoming -> In q incoming ->
     exists ls, dict_get q corpus = Some ls /\ In p ls /\ 0 < len ls) /\
  (forall e, iterate_pagerank corpus d fuel <> Some (Raise e)).
Proof.
  intros Hwf. split.
  - intros p incoming q Hget Hq.
    destruct (incoming_index_sound corpus p incoming q Hget Hq) as (ls & Hin & Hp).
    exists ls. split; [now apply In_dict_get | split; [exact Hp |]].
    assert (Hne : ls <> []) by (intros ->; destruct Hp).
    apply len_ge_1 in Hne. lra.
  - intros e. unfold iterate_pagerank. rewrite (init_ranks_Ok corpus Hwf).
    apply while_loop_no_exception;
      [exact Hwf | apply incoming_index_sound | apply covers_init].
Qed.

(** The property on [corpus_sink], on which the run returns within 10
    rounds. *)
Lemma iterate_pagerank_division_defined_witness :
  ((forall p incoming q,
      dict_get p (incoming_index corpus_sink) = Some incoming -> In q incoming ->
      exists ls, dict_get q corpus_sink = Some ls /\ In p ls /\ 0 < len ls) /\
   (forall e, iterate_pagerank corpus_sink (85 # 100) 10 <> Some (Raise e))) /\
  exists ranks, iterate_pagerank corpus_sink (85 # 100) 10 = Some (Ok ranks).
Proof.
  split.
  - apply iterate_pagerank_division_defined.
    unfold dict_wf; simpl. repeat constructor; simpl; intuition discriminate.
  - eexists. vm_compute. reflexivity.
Defined.

(** ** iterate_pagerank: the keys of the result *)

Lemma update_page_keys (corpus : graph) (d : Q) (incomingPages : dict (list Page))
    (p : Page) (ranks ranks' : dict Q) (change change' : Q) :
  update_page corpus d incomingPages p (ranks, change) = Ok (ranks', change') ->
  keys ranks' = keys ranks.
Proof.
  unfold update_page. intros H.
  apply bind_Ok in H as (base & _ & H).
  destruct (dict_get p incomingPages) as [incoming |].
  - apply bind_Ok in H as (new & _ & H).
    apply bind_Ok in H as (old & Hold & H).
    injection H as <- _. unfold getitem in Hold.
    destruct (dict_get p ranks) as [v |] eqn:E; [| discriminate].
    exact (keys_dict_set_mem _ _ _ _ E).
  - now injection H as <- _.
Qed.

Lemma update_pages_keys (corpus : graph) (d : Q) (incomingPages : dict (list Page))
    (l : list Page) (ranks ranks' : dict Q) (change change' : Q) :
  for_each l (update_page corpus d incomingPages) (ranks, change)
    = Ok (ranks', change') ->
  keys ranks' = keys ranks.
Proof.
  revert ranks change.
  induction l as [| q l IH]; intros ranks change H; simpl in H.
  - now injection H as <- _.
  - apply bind_Ok in H as ([r1 c1] & H1 & H).
    rewrite (IH _ _ H). exact (update_page_keys _ _ _ _ _ _ _ _ H1).
Qed.

(** Whatever [iterate_pagerank] returns has the pages of the graph as its
    keys, in the order of the graph. *)
Lemma iterate_pagerank_keys (corpus : graph) (d : Q) (fuel : nat) (ranks : dict Q) :
  dict_wf corpus ->
  iterate_pagerank corpus d fuel = Some (Ok ranks) -> keys ranks = keys corpus.
Proof.
  intros Hwf. unfold iterate_pagerank. rewrite (init_ranks_Ok corpus Hwf).
  rewrite <- (keys_fill (1 / len corpus) (keys corpus)) at 2.
  generalize (fill (1 / len corpus) (keys corpus)) as r0.
  generalize 1 as change.
  induction fuel as [| fuel IH]; intros change r0 H; simpl in H;
    destruct (Qgt_bool change (1 / 1000)); try discriminate;
    try (now injection H as <-).
  destruct (round corpus d (incoming_index corpus) r0) as [[r1 c1] | e] eqn:E;
    [| discriminate].
  rewrite (IH _ _ H). exact (update_pages_keys _ _ _ _ _ _ _ _ E).
Qed.

(** ** iterate_pagerank: pages without incoming links *)

(** Updating [q] leaves the rank of [p] alone when [p] is another page, or
    when [p] is not in the index (the [continue]). *)
Lemma update_page_keeps (corpus : graph) (d : Q) (incomingPages : dict (list Page))
    (p q : Page) (ranks ranks' : dict Q) (change change' : Q) :
  q <> p \/ dict_get p incomingPages = None ->
  update_page corpus d incomingPages q (ranks, change) = Ok (ranks', change') ->
  dict_get p ranks' = dict_get p ranks.
Proof.
  intros Hcase H. unfold update_page in H.
  apply bind_Ok in H as (base & _ & H).
  destruct (dict_get q incomingPages) as [incoming |] eqn:E.
  - apply bind_Ok in H as (new & _ & H).
    apply bind_Ok in H as (old & _ & H).
    injection H as <- _.
    destruct (string_dec q p) as [-> | Hne].
    + destruct Hcase as [Hc | Hc]; congruence.
    + now apply dict_get_set_neq.
  - now injection H as <- _.
Qed.

Lemma update_pages_keep (corpus : graph) (d : Q) (incomingPages : dict (list Page))
    (p : Page) (l : list Page) (ranks ranks' : dict Q) (change change' : Q) :
  dict_get p incomingPages = None ->
  for_each l (update_page corpus d incomingPages) (ranks, change)
    = Ok (ranks', change') ->
  dict_get p ranks' = dict_get p ranks.
Proof.
  intros Hp. revert ranks change.
  induction l as [| q l IH]; intros ranks change H; simpl in H.
  - now injection H as <- _.
  - apply bind_Ok in H as ([r1 c1] & H1 & H).
    rewrite (IH _ _ H).
    apply (update_page_keeps _ _ _ _ _ _ _ _ _ (or_intror Hp) H1).
Qed.

Lemma while_loop_keeps (fuel : nat) (corpus : graph) (d : Q)
    (incomingPages : dict (list Page)) (p : Page) (ranks ranks' : dict Q)
    (change : Q) :
  dict_get p incomingPages = None ->
  while_loop fuel corpus d incomingPages ranks change = Some (Ok ranks') ->
  dict_get p ranks' = dict_get p ranks.
Proof.
  intros Hp. revert ranks change.
  induction fuel as [| fuel IH]; intros ranks change H; simpl in H;
    destruct (Qgt_bool change (1 / 1000)); try discriminate;
    try (now injection H as <-).
  destruct (round corpus d incomingPages ranks) as [[r1 c1] | e] eqn:E;
    [| discriminate].
  rewrite (IH _ _ H). exact (update_pages_keep _ _ _ _ _ _ _ _ _ Hp E).
Qed.

(** A page that is not in the incoming-links index keeps the initial rank
    1/N through every round: what [iterate_pagerank] returns for it is 1/N. *)
Lemma no_incoming_rank_is_initial (corpus : graph) (d : Q) (fuel : nat)
    (p : Page) (ranks : dict Q) :
  dict_wf corpus -> In p (keys corpus) ->
  dict_get p (incoming_index corpus) = None ->
  iterate_pagerank corpus d fuel = Some (Ok ranks) ->
  dict_get p ranks = Some (1 / len corpus).
Proof.
  intros Hwf Hin Hp H. unfold iterate_pagerank in H.
  rewrite (init_ranks_Ok corpus Hwf) in H.
  rewrite (while_loop_keeps _ _ _ _ _ _ _ _ Hp H), dict_get_fill.
  destruct (in_dec string_dec p (keys corpus)); [reflexivity | contradiction].
Qed.

(** C2 (the code departs from it): "1.html" has no incoming links, and the
    solver returns 1/|graph| = 1/2 for it, the initial rank, where the
    recurrence gives the base term (1-d)/|graph| = 3/40.  No exception is
    raised. *)
Theorem iterate_pagerank_no_incoming_not_base_term :
  dict_get "1.html"%string (incoming_index corpus_no_incoming) = None /\
  exists ranks,
    iterate_pagerank corpus_no_incoming (85 # 100) 1 = Some (Ok ranks) /\
    dict_get "1.html"%string ranks = Some (1 / len corpus_no_incoming) /\
    (1 - (85 # 100)) / len corpus_no_incoming == 3 # 40 /\
    ~ 1 / len corpus_no_incoming == (1 - (85 # 100)) / len corpus_no_incoming.
Proof.
  split; [reflexivity |].
  destruct (iterate_pagerank corpus_no_incoming (85 # 100) 1) as [[ranks | e] |] eqn:E;
    try (vm_compute in E; discriminate).
  exists ranks. split; [reflexivity |]. split; [| split].
  - apply (no_incoming_rank_is_initial corpus_no_incoming (85 # 100) 1).
    + unfold dict_wf; simpl. repeat constructor; simpl; intuition discriminate.
    + simpl; auto.
    + reflexivity.
    + exact E.
  - reflexivity.
  - intros H. vm_compute in H. discriminate.
Qed.

(** ** iterate_pagerank: the sum of the ranks *)

(** C1 (the code departs from it): on [corpus_sink] with d = 0.85 the solver
    converges and returns ranks whose sum is below 1/2; the validator, which
    [iterate_pagerank] never calls, rejects them. *)
Theorem iterate_pagerank_sum_not_one :
  links_closed corpus_sink /\
  exists ranks,
    iterate_pagerank corpus_sink (85 # 100) 10 = Some (Ok ranks) /\
    sum_values ranks < 1 # 2 /\
    ~ round3 (sum_values ranks) == 1 /\
    InvalidDistribution (checkProbabilityDictionary ranks).
Proof.
  split.
  - intros q ls p Hin Hp. simpl in Hin.
    destruct Hin as [E | [E | [E | []]]]; injection E as <- <-; simpl in *;
      intuition.
  - destruct (iterate_pagerank corpus_sink (85 # 100) 10) as [[ranks | e] |] eqn:E;
      try (vm_compute in E; discriminate).
    exists ranks. split; [reflexivity |].
    assert (Hs : sum_values ranks < 1 # 2).
    { vm_compute in E. injection E as <-. vm_compute. reflexivity. }
    assert (Hr : ~ round3 (sum_values ranks) == 1).
    { vm_compute in E. injection E as <-. intros H. vm_compute in H. discriminate. }
    split; [exact Hs | split; [exact Hr |]].
    apply check_invalid. intros [_ H]. exact (Hr H).
Qed.

(** ** The keys of the estimate of sample_pagerank *)

(** C5 (the code departs from it): with n = 1 on a graph of two pages,
    [sample_pagerank] returns an estimate with the single key it drew;
    "2.html", a page of the graph, is missing. *)
Theorem sample_pagerank_misses_pages :
  exists est st',
    sample_pagerank corpus_no_incoming (85 # 100) 1 zero_draws = Ok (est, st') /\
    keys est = ["1.html"%string] /\
    In "2.html"%string (keys corpus_no_incoming) /\
    dict_get "2.html"%string est = None.
Proof.
  eexists _, _. split; [vm_compute; reflexivity |].
  split; [reflexivity | split; [simpl; auto | reflexivity]].
Qed.

(** ** The graph with no page *)

(** C6, counterexample: on the graph with no page [iterate_pagerank] returns
    the empty mapping; it raises nothing. *)
Lemma iterate_pagerank_empty_returns :
  iterate_pagerank [] (85 # 100) 1 = Some (Ok []) /\
  forall e, iterate_pagerank [] (85 # 100) 1 <> Some (Raise e).
Proof.
  split; [reflexivity | intros e H; vm_compute in H; discriminate].
Qed.

(** C6, amended: on the graph with no page [sample_pagerank] fails at once,
    with the [IndexError] of [random.choice] on an empty sequence (no
    division is reached), whatever the damping factor, the sample count and
    the random source; [iterate_pagerank] does not fail: its loops have
    nothing to visit, the first round finds a change of 0, and it returns
    the empty mapping. *)
Theorem empty_graph_behaviour (d : Q) (n : Z) (st : rng) (fuel : nat) :
  sample_pagerank [] d n st = Raise IndexError /\
  iterate_pagerank [] d (S fuel) = Some (Ok []).
Proof.
  split; [reflexivity |].
  unfold iterate_pagerank; simpl.
  destruct fuel; reflexivity.
Qed.

(** ** iterate_pagerank: what a round reads *)

Lemma NoDup_app_disjoint {A : Type} (l1 l2 : list A) :
  NoDup (l1 ++ l2) -> forall x, In x l1 -> ~ In x l2.
Proof.
  induction l1 as [| a l1 IH]; intros Hnd x Hx; [destruct Hx |].
  simpl in Hnd. inversion Hnd as [| ? ? Ha Hnd']; subst.
  destruct Hx as [-> | Hx]; [| now apply IH].
  intros Hx2. apply Ha, in_app_iff. now right.
Qed.

(** C3, counterexample: in the first round on [corpus_cycle] the rank of
    "2.html" is computed from the rank "1.html" received earlier in the same
    round: it is not the rank the snapshot gives, and the round differs from
    the round of the specification. *)
Lemma round_reads_updated_rank :
  exists snapshot ranks change ranks_s change_s v v_s,
    init_ranks corpus_cycle = Ok snapshot /\
    round corpus_cycle (85 # 100) (incoming_index corpus_cycle) snapshot
      = Ok (ranks, change) /\
    round_from_snapshot corpus_cycle (85 # 100) (incoming_index corpus_cycle) snapshot
      = Ok (ranks_s, change_s) /\
    dict_get "2.html"%string ranks = Some v /\
    dict_get "2.html"%string ranks_s = Some v_s /\
    rank_from corpus_cycle (85 # 100) (incoming_index corpus_cycle) snapshot
      "2.html"%string = Some v_s /\
    ~ v == v_s /\
    ~ round_reads_snapshot corpus_cycle (85 # 100) snapshot.
Proof.
  do 7 eexists.
  split; [vm_compute; reflexivity |].
  split; [vm_compute; reflexivity |].
  split; [vm_compute; reflexivity |].
  split; [vm_compute; reflexivity |].
  split; [vm_compute; reflexivity |].
  split; [vm_compute; reflexivity |].
  split; [intros H; vm_compute in H; discriminate |].
  intros H.
  destruct (H _ _ eq_refl "2.html"%string) as (v & v_s & Hv & Hs & E);
    [simpl; auto |].
  vm_compute in Hv, Hs. injection Hv as <-. injection Hs as <-.
  vm_compute in E. discriminate.
Qed.

Lemma update_pages_keep_notin (corpus : graph) (d : Q)
    (incomingPages : dict (list Page)) (p : Page) (l : list Page)
    (ranks ranks' : dict Q) (change change' : Q) :
  ~ In p l ->
  for_each l (update_page corpus d incomingPages) (ranks, change)
    = Ok (ranks', change') ->
  dict_get p ranks' = dict_get p ranks.
Proof.
  revert ranks change.
  induction l as [| q l IH]; intros ranks change Hnin H; simpl in H.
  - now injection H as <- _.
  - apply bind_Ok in H as ([r1 c1] & H1 & H).
    rewrite (IH _ _ (fun Hin => Hnin (or_intror Hin)) H).
    apply (update_page_keeps _ _ _ _ q _ _ _ _ (or_introl
             (fun E : q = p => Hnin (or_introl E))) H1).
Qed.

(** The ranks the body stores do not depend on the running change. *)
Lemma update_page_change (corpus : graph) (d : Q) (incomingPages : dict (list Page))
    (p : Page) (ranks ranks' : dict Q) (c c' c0 : Q) :
  update_page corpus d incomingPages p (ranks, c) = Ok (ranks', c') ->
  exists c1, update_page corpus d incomingPages p (ranks, c0) = Ok (ranks', c1).
Proof.
  unfold update_page. intros H.
  apply bind_Ok in H as (base & -> & H); simpl.
  destruct (dict_get p incomingPages) as [incoming |].
  - apply bind_Ok in H as (new & -> & H); simpl.
    apply bind_Ok in H as (old & -> & H); simpl.
    injection H as <- _. eauto.
  - injection H as <- _. eauto.
Qed.

Lemma update_pages_Ok (corpus : graph) (d : Q) (incomingPages : dict (list Page))
    (l : list Page) (ranks : dict Q) (change : Q) :
  dict_wf corpus -> index_sound corpus incomingPages ->
  incl l (keys corpus) -> covers corpus ranks ->
  exists ranks' change',
    for_each l (update_page corpus d incomingPages) (ranks, change)
      = Ok (ranks', change') /\
    covers corpus ranks'.
Proof.
  intros Hwf Hidx Hincl Hcov.
  destruct (for_each_invariant (fun s : dict Q * Q => covers corpus (fst s))
              (fun p => In p (keys corpus))
              (update_page corpus d incomingPages) l (ranks, change))
    as ([ranks' change'] & E & Hc').
  - intros p [r c] Hp Hr; simpl in Hr.
    destruct (update_page_Ok corpus d incomingPages p r c Hwf Hidx Hp Hr)
      as (r' & c' & -> & Hr'). exists (r', c'). split; [reflexivity | exact Hr'].
  - apply Forall_forall. exact Hincl.
  - exact Hcov.
  - exists ranks', change'. split; [exact E | exact Hc'].
Qed.

(** C3, amended: a round works on the one mapping it updates.  When the loop
    reaches page [p], the mapping [working] it reads holds this round's
    ranks for the pages visited before [p] and the previous round's ranks
    for all the others; the rank [p] has at the end of the round is the one
    computed from [working], stored before the next page is computed. *)
Theorem round_reads_working_mapping (corpus : graph) (d : Q) (ranks : dict Q)
    (before after : list Page) (p : Page) :
  dict_wf corpus -> covers corpus ranks ->
  keys corpus = before ++ p :: after ->
  exists working change ranks' change',
    for_each before (update_page corpus d (incoming_index corpus)) (ranks, 0)
      = Ok (working, change) /\
    round corpus d (incoming_index corpus) ranks = Ok (ranks', change') /\
    (forall q, In q before -> dict_get q working = dict_get q ranks') /\
    (forall q, ~ In q before -> dict_get q working = dict_get q ranks) /\
    dict_get p ranks' = rank_from corpus d (incoming_index corpus) working p.
Proof.
  intros Hwf Hcov Hkeys.
  pose proof (incoming_index_sound corpus) as Hidx.
  assert (Hnd : NoDup (before ++ p :: after)) by (rewrite <- Hkeys; exact Hwf).
  apply NoDup_remove in Hnd as [Hnd Hp].
  assert (Hpb : ~ In p before) by (intros H; apply Hp, in_app_iff; auto).
  assert (Hpa : ~ In p after) by (intros H; apply Hp, in_app_iff; auto).
  destruct (update_pages_Ok corpus d (incoming_index corpus) before ranks 0)
    as (working & change & Hbefore & Hcw); try assumption.
  { intros q Hq. rewrite Hkeys. apply in_app_iff; auto. }
  destruct (update_page_Ok corpus d (incoming_index corpus) p working change)
    as (r1 & c1 & Hat & Hc1); try assumption.
  { rewrite Hkeys. apply in_app_iff; simpl; auto. }
  destruct (update_pages_Ok corpus d (incoming_index corpus) after r1 c1)
    as (ranks' & change' & Hafter & _); try assumption.
  { intros q Hq. rewrite Hkeys. apply in_app_iff; simpl; auto. }
  exists working, change, ranks', change'.
  split; [exact Hbefore |]. split; [| split; [| split]].
  - unfold round. rewrite Hkeys, for_each_app, Hbefore. cbn [bind for_each].
    rewrite Hat. cbn [bind]. exact Hafter.
  - intros q Hq.
    assert (Hqa : ~ In q after) by exact (NoDup_app_disjoint _ _ Hnd q Hq).
    rewrite (update_pages_keep_notin _ _ _ _ _ _ _ _ _ Hqa Hafter).
    symmetry. apply (update_page_keeps _ _ _ _ p _ _ _ _ (or_introl
                       (fun E : p = q => Hpb (eq_ind_r (fun x => In x before) Hq E))) Hat).
  - intros q Hq. exact (update_pages_keep_notin _ _ _ _ _ _ _ _ _ Hq Hbefore).
  - rewrite (update_pages_keep_notin _ _ _ _ _ _ _ _ _ Hpa Hafter).
    unfold rank_from.
    destruct (update_page_change _ _ _ _ _ _ _ _ 0 Hat) as [c0 ->]. reflexivity.
Qed.

(** The first round on [corpus_cycle], when the loop reaches "2.html". *)
Lemma round_reads_working_mapping_witness :
  exists working change ranks' change',
    for_each ["1.html"%string]
      (update_page corpus_cycle (85 # 100) (incoming_index corpus_cycle))
      (fill (1 / 3) (keys corpus_cycle), 0) = Ok (working, change) /\
    round corpus_cycle (85 # 100) (incoming_index corpus_cycle)
      (fill (1 / 3) (keys corpus_cycle)) = Ok (ranks', change') /\
    (forall q, In q ["1.html"%string] -> dict_get q working = dict_get q ranks') /\
    (forall q, ~ In q ["1.html"%string] ->
       dict_get q working = dict_get q (fill (1 / 3) (keys corpus_cycle))) /\
    dict_get "2.html"%string ranks'
    = rank_from corpus_cycle (85 # 100) (incoming_index corpus_cycle) working
        "2.html"%string.
Proof.
  apply (round_reads_working_mapping corpus_cycle (85 # 100)
           (fill (1 / 3) (keys corpus_cycle))
           ["1.html"%string] ["3.html"%string] "2.html"%string).
  - unfold dict_wf; simpl. repeat constructor; simpl; intuition discriminate.
  - intros p Hp. simpl in Hp.
    destruct Hp as [<- | [<- | [<- | []]]]; eexists; reflexivity.
  - reflexivity.
Defined.

(** ** The random draws *)

Lemma length_accumulate (acc : Q) (weights : list Q) :
  List.length (accumulate acc weights) = List.length weights.
Proof.
  revert acc; induction weights as [| w ws IH]; intros acc; simpl; [reflexivity |].
  now rewrite IH.
Qed.

Lemma last_accumulate (acc dflt : Q) (weights : list Q) :
  weights <> [] ->
  last (accumulate acc weights) dflt == fold_left Qplus weights acc.
Proof.
  revert acc; induction weights as [| w ws IH]; intros acc Hne; [congruence |].
  destruct ws as [| w' ws'].
  - simpl. reflexivity.
  - change (last (accumulate acc (w :: w' :: ws')) dflt)
      with (last (accumulate (acc + w) (w' :: ws')) dflt).
    rewrite IH by discriminate. reflexivity.
Qed.

Lemma bisect_le (a : list Q) (x : Q) (hi : nat) : (bisect a x hi <= hi)%nat.
Proof.
  revert a; induction hi as [| hi IH]; intros [| c a']; simpl; try lia.
  destruct (Qle_bool c x); [specialize (IH a'); lia | lia].
Qed.

(** A weighted draw returns a member of the population when the weights
    match it and their total is positive. *)
Lemma choices_Ok {A : Type} (population : list A) (weights : list Q) (st : rng) :
  List.length weights = List.length population -> population <> [] ->
  0 < fold_left Qplus weights 0 ->
  exists x, choices population weights st = Ok (x, advance 1 st) /\ In x population.
Proof.
  intros Hlen Hne Htot. unfold choices.
  rewrite length_accumulate, Hlen, Nat.eqb_refl; simpl.
  assert (Hw : weights <> []).
  { intros ->. destruct population; [congruence | discriminate]. }
  destruct (accumulate 0 weights) as [| c cs] eqn:Eacc.
  { destruct weights; [congruence | discriminate]. }
  rewrite <- Eacc.
  assert (Hle : Qle_bool (last (accumulate 0 weights) 0) 0 = false).
  { rewrite (last_accumulate 0 0 weights Hw).
    destruct (Qle_bool (fold_left Qplus weights 0) 0) eqn:E; [| reflexivity].
    apply Qle_bool_iff in E. lra. }
  rewrite Hle. unfold random.
  assert (Hpos : (0 < List.length population)%nat).
  { destruct population; [congruence | simpl; lia]. }
  pose proof (bisect_le (accumulate 0 weights)
                (draws st (pos st) * last (accumulate 0 weights) 0)
                (List.length population - 1)) as Hb.
  set (i := bisect _ _ _) in *.
  assert (Hi : (i < List.length population)%nat) by lia.
  destruct (nth_error population i) as [x |] eqn:Ex.
  - exists x. split; [reflexivity | exact (nth_error_In _ _ Ex)].
  - apply nth_error_None in Ex. lia.
Qed.

(** A uniform draw returns a member of the sequence when the unit draw lies
    in [0, 1). *)
Lemma choice_Ok {A : Type} (seq : list A) (st : rng) :
  seq <> [] -> unit_draws st ->
  exists x, choice seq st = Ok (x, advance 1 st) /\ In x seq.
Proof.
  intros Hne Hu. unfold choice.
  destruct seq as [| a seq']; [congruence |].
  set (seq := a :: seq') in *. unfold random.
  destruct (Hu (pos st)) as [H0 H1].
  set (r := draws st (pos st)) in *.
  pose proof (len_ge_1 seq Hne) as HL.
  assert (Hlo : (0 <= Qfloor (r * len seq))%Z).
  { change 0%Z with (Qfloor 0). apply Qfloor_resp_le. nra. }
  assert (Hhi : (Qfloor (r * len seq) < Z.of_nat (List.length seq))%Z).
  { rewrite Zlt_Qlt. fold (len seq).
    apply Qle_lt_trans with (r * len seq); [apply Qfloor_le | nra]. }
  destruct (nth_error seq (Z.to_nat (Qfloor (r * len seq)))) as [x |] eqn:Ex.
  - exists x. split; [reflexivity | exact (nth_error_In _ _ Ex)].
  - apply nth_error_None in Ex. lia.
Qed.

(** The draw of the method: the linked pages exactly when the unit draw is
    below the damping factor. *)
Lemma sample_method_draw (d : Q) (st : rng) :
  choices [sampleFromLinkedPage; sampleFromAllPages] [d; 1 - d] st
  = Ok (if Qlt_bool (draws st (pos st)) d
        then sampleFromLinkedPage else sampleFromAllPages,
        advance 1 st).
Proof.
  unfold choices; simpl.
  assert (Ht : Qle_bool (0 + d + (1 - d)) 0 = false).
  { destruct (Qle_bool (0 + d + (1 - d)) 0) eqn:E; [| reflexivity].
    apply Qle_bool_iff in E. lra. }
  rewrite Ht. unfold Qlt_bool.
  assert (Hc : Qle_bool (0 + d) (draws st (pos st) * (0 + d + (1 - d)))
               = Qle_bool d (draws st (pos st))).
  { apply Qleb_comp; ring. }
  rewrite Hc. destruct (Qle_bool d (draws st (pos st))); reflexivity.
Qed.

(** ** sample_pagerank: one step *)

Lemma unit_draws_advance (k : nat) (st : rng) :
  unit_draws st -> unit_draws (advance k st).
Proof. intros H i. exact (H i). Qed.

Lemma advance_advance (j k : nat) (st : rng) :
  advance j (advance k st) = advance (j + k) st.
Proof. unfold advance; simpl. f_equal. lia. Qed.

(** A weighted draw from a transition distribution returns a page of the
    graph. *)
Lemma transition_draw_Ok (corpus : graph) (linkedPages : list Page) (d : Q)
    (st : rng) :
  corpus <> [] -> incl linkedPages (keys corpus) ->
  exists x,
    choices (keys (transition_dict corpus linkedPages d))
            (values (transition_dict corpus linkedPages d)) st
      = Ok (x, advance 1 st) /\
    In x (keys corpus).
Proof.
  intros Hc Hincl.
  set (tm := transition_dict corpus linkedPages d).
  assert (Hk : forall p, In p (keys tm) <-> In p (keys corpus))
    by (intros p; now apply transition_dict_keys).
  destruct (choices_Ok (keys tm) (values tm) st) as (x & Hx & Hin).
  - unfold keys, values. now rewrite !length_map.
  - destruct corpus as [| [p0 l0] corpus']; [congruence |].
    intros E. assert (Hp0 : In p0 (keys tm)) by (apply Hk; simpl; auto).
    rewrite E in Hp0. destruct Hp0.
  - fold (sum_values tm). unfold tm. rewrite transition_dict_sum by exact Hc. lra.
  - exists x. split; [exact Hx | now apply Hk].
Qed.

(** C4 (the code departs from it): the page a step credits is not the page
    it makes current.  On [corpus_cycle], from "1.html", with the draws of
    [three_draws], the step credits "2.html", the weighted draw of lines
    139-145, and makes "3.html", the separate draw of lines 148-152, the
    current page; "3.html" is not credited, and it is the page whose
    transition distribution the next step uses. *)
Lemma sample_step_credits_another_page :
  sample_step corpus_cycle (85 # 100) 2
    ("1.html"%string, [("1.html"%string, 1 / 2)], three_draws)
  = Ok ("3.html"%string,
        credit "2.html"%string (1 / 2) [("1.html"%string, 1 / 2)],
        advance 3 three_draws)
  /\ ~ credits_the_next_page corpus_cycle (85 # 100) 2 "1.html"%string
         [("1.html"%string, 1 / 2)] three_draws.
Proof.
  assert (E : sample_step corpus_cycle (85 # 100) 2
                ("1.html"%string, [("1.html"%string, 1 / 2)], three_draws)
              = Ok ("3.html"%string,
                    credit "2.html"%string (1 / 2) [("1.html"%string, 1 / 2)],
                    advance 3 three_draws))
    by (vm_compute; reflexivity).
  split; [exact E |].
  intros H. specialize (H _ _ _ E). vm_compute in H. discriminate.
Qed.

(** The links of a page of the graph: a set of pages of the graph. *)
Lemma current_page_links (corpus : graph) (cur : Page) :
  dict_wf corpus -> links_wf corpus -> links_closed corpus ->
  In cur (keys corpus) ->
  exists linkedPages,
    dict_get cur corpus = Some linkedPages /\
    NoDup linkedPages /\ incl linkedPages (keys corpus).
Proof.
  intros Hwf Hlw Hlc Hcur.
  destruct (In_keys_dict_get _ _ Hcur) as [linkedPages Hget].
  pose proof (dict_get_Some_In _ _ _ Hget) as Hin.
  exists linkedPages. split; [exact Hget |]. split.
  - unfold links_wf in Hlw. rewrite Forall_forall in Hlw. exact (Hlw _ Hin).
  - intros p Hp. exact (Hlc _ _ _ Hin Hp).
Qed.

(** The two-stage choice of the next current page returns a page of the
    graph, after two more draws. *)
Lemma next_page_Ok (corpus : graph) (linkedPages : list Page) (d : Q) (st : rng) :
  corpus <> [] -> incl linkedPages (keys corpus) -> unit_draws st ->
  exists next,
    (if Qlt_bool (draws st (S (pos st))) d
     then choices (keys (transition_dict corpus linkedPages d))
                  (values (transition_dict corpus linkedPages d)) (advance 2 st)
     else choice (keys corpus) (advance 2 st)) = Ok (next, advance 3 st) /\
    In next (keys corpus).
Proof.
  intros Hc Hincl Hu.
  destruct (Qlt_bool (draws st (S (pos st))) d).
  - destruct (transition_draw_Ok corpus linkedPages d (advance 2 st) Hc Hincl)
      as (next & Hx & Hi).
    rewrite advance_advance in Hx. exists next. split; assumption.
  - destruct (choice_Ok (keys corpus) (advance 2 st)) as (next & Hx & Hi).
    + destruct corpus; [congruence | discriminate].
    + now apply unit_draws_advance.
    + rewrite advance_advance in Hx. exists next. split; assumption.
Qed.

(** The step, once its three draws are known. *)
Lemma sample_step_eq (corpus : graph) (d : Q) (n : Z) (cur : Page) (est : dict Q)
    (st : rng) (tm : dict Q) (drawn next : Page) :
  (n <> 0)%Z ->
  transition_model corpus cur d = Ok tm ->
  choices (keys tm) (values tm) st = Ok (drawn, advance 1 st) ->
  (if Qlt_bool (draws st (S (pos st))) d
   then choices (keys tm) (values tm) (advance 2 st)
   else choice (keys corpus) (advance 2 st)) = Ok (next, advance 3 st) ->
  sample_step corpus d n (cur, est, st)
  = Ok (next, credit drawn (1 / inject_Z n) est, advance 3 st).
Proof.
  intros Hn Htm Hdraw1 Hdraw3.
  unfold sample_step. rewrite Htm. cbn [bind]. rewrite Hdraw1. cbn [bind].
  rewrite py_div_Ok.
  2:{ change 0 with (inject_Z 0). rewrite inject_Z_injective. exact Hn. }
  cbn [bind]. rewrite sample_method_draw. cbn [bind].
  change (draws (advance 1 st) (pos (advance 1 st))) with (draws st (S (pos st))).
  rewrite advance_advance. change (1 + 1)%nat with 2%nat.
  destruct (Qlt_bool (draws st (S (pos st))) d); rewrite Hdraw3; reflexivity.
Qed.

(** What a step of the loop computes, on every valid input: a page is drawn
    weighted by the transition distribution of the current page, and that
    page is credited 1/n (added to its entry if it has one); the current
    page for the next step comes from fresh draws, in two stages: when the
    unit draw is below d a page is drawn weighted by the same transition
    distribution, otherwise a page is drawn uniformly over all pages of the
    graph.  The page chosen in two stages is not credited by this step. *)
Lemma sample_step_two_selections (corpus : graph) (d : Q) (n : Z)
    (cur : Page) (est : dict Q) (st : rng) :
  dict_wf corpus -> links_wf corpus -> links_closed corpus ->
  0 < d -> d < 1 -> (n <> 0)%Z -> In cur (keys corpus) -> unit_draws st ->
  exists tm credited next,
    transition_model corpus cur d = Ok tm /\
    choices (keys tm) (values tm) st = Ok (credited, advance 1 st) /\
    (if Qlt_bool (draws st (S (pos st))) d
     then choices (keys tm) (values tm) (advance 2 st)
     else choice (keys corpus) (advance 2 st)) = Ok (next, advance 3 st) /\
    sample_step corpus d n (cur, est, st)
      = Ok (next, credit credited (1 / inject_Z n) est, advance 3 st) /\
    In credited (keys corpus) /\ In next (keys corpus).
Proof.
  intros Hwf Hlw Hlc Hd0 Hd1 Hn Hcur Hu.
  assert (Hc : corpus <> []) by (intros ->; destruct Hcur).
  destruct (current_page_links corpus cur Hwf Hlw Hlc Hcur)
    as (linkedPages & Hget & Hnd & Hincl).
  assert (Htm : transition_model corpus cur d
                = Ok (transition_dict corpus linkedPages d)).
  { apply transition_model_total; auto; lra. }
  destruct (transition_draw_Ok corpus linkedPages d st Hc Hincl)
    as (credited & Hdraw1 & Hcred).
  destruct (next_page_Ok corpus linkedPages d st Hc Hincl Hu)
    as (next & Hdraw3 & Hnextin).
  exists (transition_dict corpus linkedPages d), credited, next.
  split; [exact Htm |]. split; [exact Hdraw1 |]. split; [exact Hdraw3 |].
  split; [| split; assumption].
  now apply (sample_step_eq corpus d n cur est st
               (transition_dict corpus linkedPages d)).
Qed.

(** A step on [corpus_cycle] from "1.html" with the draws of [three_draws]. *)
Lemma sample_step_two_selections_witness :
  exists tm credited next,
    transition_model corpus_cycle "1.html"%string (85 # 100) = Ok tm /\
    choices (keys tm) (values tm) three_draws = Ok (credited, advance 1 three_draws) /\
    (if Qlt_bool (draws three_draws (S (pos three_draws))) (85 # 100)
     then choices (keys tm) (values tm) (advance 2 three_draws)
     else choice (keys corpus_cycle) (advance 2 three_draws))
    = Ok (next, advance 3 three_draws) /\
    sample_step corpus_cycle (85 # 100) 2
      ("1.html"%string, [("1.html"%string, 1 / 2)], three_draws)
    = Ok (next, credit credited (1 / inject_Z 2) [("1.html"%string, 1 / 2)],
          advance 3 three_draws) /\
    In credited (keys corpus_cycle) /\ In next (keys corpus_cycle).
Proof.
  apply (sample_step_two_selections corpus_cycle (85 # 100) 2 "1.html"%string
           [("1.html"%string, 1 / 2)] three_draws).
  - unfold dict_wf; simpl. repeat constructor; simpl; intuition discriminate.
  - repeat constructor; simpl; intuition discriminate.
  - intros q ls p Hin Hp. simpl in Hin.
    destruct Hin as [E | [E | [E | []]]]; injection E as <- <-; simpl in *;
      intuition.
  - reflexivity.
  - reflexivity.
  - discriminate.
  - simpl; auto.
  - intros [| i]; simpl; split; (discriminate || reflexivity).
Defined.

(** ** What transition_model and sample_pagerank return *)

(** Whatever [transition_model] returns went through the validator. *)
Lemma transition_model_valid (corpus : graph) (page : Page) (d : Q) (tm : dict Q) :
  transition_model corpus page d = Ok tm -> valid_distribution tm.
Proof.
  unfold transition_model. intros H.
  apply bind_Ok in H as (linkedPages & _ & H).
  apply bind_Ok in H as (tm1 & _ & H).
  apply bind_Ok in H as (rsp & _ & H).
  apply bind_Ok in H as (tm2 & _ & H).
  apply bind_Ok in H as (tm3 & _ & H).
  apply bind_Ok in H as (b & Hcheck & H).
  injection H as <-. exact (check_Ok_valid _ _ Hcheck).
Qed.

Lemma nonneg_values_set (k : Page) (v : Q) (d : dict Q) :
  0 <= v -> nonneg_values d -> nonneg_values (dict_set k v d).
Proof.
  intros Hv. unfold nonneg_values.
  induction d as [| [k' v'] d IH]; intros Hd; simpl.
  - repeat constructor. exact Hv.
  - inversion Hd as [| ? ? Hv' Hd']; subst.
    destruct (String.eqb k k'); constructor; auto.
Qed.

Lemma nonneg_values_credit (p : Page) (inc : Q) (d : dict Q) :
  0 <= inc -> nonneg_values d -> nonneg_values (credit p inc d).
Proof.
  intros Hinc Hd. unfold credit.
  destruct (dict_get p d) as [v |] eqn:E; apply nonneg_values_set; auto.
  apply dict_get_Some_In in E. unfold nonneg_values in Hd.
  rewrite Forall_forall in Hd. specialize (Hd _ E). simpl in Hd. lra.
Qed.

Lemma sum_values_nonneg (d : dict Q) : nonneg_values d -> 0 <= sum_values d.
Proof.
  induction d as [| [k v] d IH]; intros Hd.
  - change (sum_values []) with 0. lra.
  - inversion Hd as [| ? ? Hv Hd']; subst. simpl in Hv.
    rewrite sum_values_cons. specialize (IH Hd'). lra.
Qed.

Lemma value_le_sum (d : dict Q) (kv : Page * Q) :
  nonneg_values d -> In kv d -> snd kv <= sum_values d.
Proof.
  induction d as [| [k v] d IH]; intros Hd Hin; [destruct Hin |].
  inversion Hd as [| ? ? Hv Hd']; subst. simpl in Hv.
  rewrite sum_values_cons. destruct Hin as [<- | Hin]; simpl.
  - pose proof (sum_values_nonneg d Hd'). lra.
  - specialize (IH Hd' Hin). lra.
Qed.

Lemma len_range1 (n : Z) : (1 <= n)%Z -> len (range1 n) == inject_Z n - 1.
Proof.
  intros Hn. unfold len, range1. rewrite length_map, length_seq, Z2Nat.id by lia.
  unfold Zminus. rewrite inject_Z_plus. reflexivity.
Qed.

Section SampleLoop.
Variables (corpus : graph) (d : Q) (n : Z).
Hypothesis Hwf : dict_wf corpus.
Hypothesis Hlw : links_wf corpus.
Hypothesis Hlc : links_closed corpus.
Hypothesis Hd0 : 0 < d.
Hypothesis Hd1 : d < 1.
Hypothesis Hn : (1 <= n)%Z.

Lemma credit_unit_nonneg : 0 <= 1 / inject_Z n.
Proof.
  apply Qle_shift_div_l.
  - change 0 with (inject_Z 0). rewrite <- Zlt_Qlt. lia.
  - lra.
Qed.

(** The loop of [sample_pagerank]: it ends normally, and every turn adds
    1/n to the sum of the estimate. *)
Lemma sample_loop (A : Type) (l : list A) (cur : Page) (est : dict Q) (st : rng) :
  In cur (keys corpus) -> unit_draws st -> nonneg_values est ->
  exists cur' est' st',
    for_each l (fun _ s => sample_step corpus d n s) (cur, est, st)
      = Ok (cur', est', st') /\
    sum_values est' == sum_values est + len l * (1 / inject_Z n) /\
    nonneg_values est'.
Proof.
  revert cur est st.
  induction l as [| x l IH]; intros cur est st Hcur Hu Hnn.
  - exists cur, est, st. split; [reflexivity |]. split; [| exact Hnn].
    unfold len; simpl. ring.
  - assert (Hc : corpus <> []) by (intros E; rewrite E in Hcur; destruct Hcur).
    destruct (current_page_links corpus cur Hwf Hlw Hlc Hcur)
      as (linkedPages & Hget & Hnd & Hincl).
    destruct (transition_draw_Ok corpus linkedPages d st Hc Hincl)
      as (credited_page & Hdraw1 & _).
    destruct (next_page_Ok corpus linkedPages d st Hc Hincl Hu)
      as (next & Hdraw3 & Hnext).
    assert (Hstep : sample_step corpus d n (cur, est, st)
                    = Ok (next, credit credited_page (1 / inject_Z n) est,
                          advance 3 st)).
    { apply (sample_step_eq corpus d n cur est st
               (transition_dict corpus linkedPages d)); try assumption; [lia |].
      apply transition_model_total; auto; lra. }
    destruct (IH next (credit credited_page (1 / inject_Z n) est) (advance 3 st))
      as (cur' & est' & st' & Hloop & Hsum & Hnn').
    + exact Hnext.
    + now apply unit_draws_advance.
    + apply nonneg_values_credit; [apply credit_unit_nonneg | exact Hnn].
    + exists cur', est', st'. split; [| split; [| exact Hnn']].
      * cbn [for_each]. rewrite Hstep. cbn [bind]. exact Hloop.
      * rewrite Hsum, sum_values_credit, len_cons. ring.
Qed.

(** On a non-empty graph whose links resolve, with a damping factor in
    (0,1) and n >= 1: with the credits added exactly, the estimate has its
    values in [0,1] and sums to 1, the validator accepts it and
    [sample_pagerank] returns it. *)
Lemma sample_pagerank_valid (st : rng) :
  corpus <> [] -> unit_draws st ->
  exists est st',
    sample_pagerank corpus d n st = Ok (est, st') /\
    valid_distribution est /\ sum_values est == 1.
Proof.
  intros Hc Hu. unfold sample_pagerank.
  destruct (choice_Ok (keys corpus) st) as (first & -> & Hfirst);
    [destruct corpus; [congruence | discriminate] | exact Hu |].
  cbn [bind].
  assert (Hn0 : ~ inject_Z n == 0).
  { change 0 with (inject_Z 0). rewrite inject_Z_injective. lia. }
  rewrite py_div_Ok by exact Hn0. cbn [bind].
  destruct (sample_loop Z (range1 n) first (dict_set first (1 / inject_Z n) []) (advance 1 st))
    as (cur' & est' & st' & -> & Hsum & Hnn).
  - exact Hfirst.
  - now apply unit_draws_advance.
  - simpl. repeat constructor. simpl. apply credit_unit_nonneg.
  - cbn [bind].
    assert (Hone : sum_values est' == 1).
    { rewrite Hsum, len_range1 by exact Hn.
      change (sum_values (dict_set first (1 / inject_Z n) [])) with (0 + 1 / inject_Z n).
    now field. }
    assert (Hv : valid_distribution est').
    { split; [| now apply round3_one].
      apply Forall_forall. intros kv Hin. split.
      - unfold nonneg_values in Hnn. rewrite Forall_forall in Hnn. auto.
      - rewrite <- Hone. now apply value_le_sum. }
    rewrite (check_valid _ Hv). cbn [bind].
    exists est', st'. split; [reflexivity | split; assumption].
Qed.

End SampleLoop.

(** * Further properties *)

(** ** crawl *)

Lemma endswith_spec (s suffix : string) :
  endswith s suffix = true <-> exists pre, s = (pre ++ suffix)%string.
Proof.
  induction s as [| a s IH]; cbn [endswith].
  - rewrite orb_false_r, String.eqb_eq. split.
    + intros <-. exists EmptyString. reflexivity.
    + intros [pre E]. destruct pre; simpl in E; [exact E | discriminate].
  - rewrite orb_true_iff, String.eqb_eq, IH. split.
    + intros [<- | [pre ->]].
      * exists EmptyString. reflexivity.
      * exists (String a pre). reflexivity.
    + intros [pre E]. destruct pre as [| b pre]; simpl in E.
      * left. exact E.
      * right. injection E as _ E. exists pre. exact E.
Qed.

Lemma In_dict_set {V : Type} (k k' : Page) (v v' : V) (d : dict V) :
  In (k', v') (dict_set k v d) -> (k' = k /\ v' = v) \/ In (k', v') d.
Proof.
  induction d as [| [k0 v0] d IH]; simpl.
  - intros [E | []]. injection E as <- <-. auto.
  - destruct (String.eqb k k0); simpl.
    + intros [E | H]; [injection E as <- <-; auto | auto].
    + intros [E | H]; [auto | destruct (IH H); auto].
Qed.

Lemma NoDup_remove_elt (x : string) (l : list string) :
  NoDup l -> NoDup (remove string_dec x l).
Proof.
  induction 1 as [| y l Hy Hl IH]; simpl; [constructor |].
  destruct (string_dec x y); [exact IH |].
  constructor; [| exact IH].
  intros H. apply in_remove in H. tauto.
Qed.

Lemma links_of_NoDup (filename : string) (links : list string) :
  NoDup (links_of filename links).
Proof. apply NoDup_remove_elt, NoDup_nodup. Qed.

Lemma In_links_of (filename : string) (links : list string) (l : string) :
  In l (links_of filename links) <-> In l links /\ l <> filename.
Proof.
  unfold links_of. split.
  - intros H. apply in_remove in H as [H Hne]. now rewrite nodup_In in H.
  - intros [H Hne]. apply in_in_remove; [exact Hne | now rewrite nodup_In].
Qed.

Lemma extract_wf (findall : string -> list string)
    (directory : list (string * string)) (pages : graph) :
  dict_wf pages -> dict_wf (fold_left (extract_file findall) directory pages).
Proof.
  revert pages; induction directory as [| file directory IH]; intros pages Hwf;
    simpl; [exact Hwf |].
  apply IH. unfold extract_file.
  destruct (negb _); [exact Hwf | now apply dict_wf_set].
Qed.

(** Every entry of the first loop comes from an html file of the directory. *)
Lemma extract_entries (findall : string -> list string)
    (directory : list (string * string)) (pages : graph) (f : Page) (ls : list Page) :
  In (f, ls) (fold_left (extract_file findall) directory pages) ->
  In (f, ls) pages \/
  exists c, In (f, c) directory /\ endswith f ".html" = true /\
            ls = links_of f (findall c).
Proof.
  revert pages; induction directory as [| [f0 c0] directory IH]; intros pages H;
    simpl in H; [auto |].
  apply IH in H as [H | (c & Hc & Hh & E)].
  - unfold extract_file in H; simpl in H.
    destruct (endswith f0 ".html") eqn:Eh; simpl in H; [| auto].
    apply In_dict_set in H as [[-> ->] | H]; [| auto].
    right. exists c0. simpl. auto.
  - right. exists c. simpl. auto.
Qed.

(** The keys of the first loop: the keys it started with, then the html
    files that were not keys yet, in the order of the directory. *)
Lemma extract_keys (findall : string -> list string)
    (directory : list (string * string)) (pages : graph) :
  NoDup (map fst directory) ->
  (forall f, In f (map fst directory) -> ~ In f (keys pages)) ->
  keys (fold_left (extract_file findall) directory pages)
  = keys pages ++ filter (fun f => endswith f ".html") (map fst directory).
Proof.
  revert pages; induction directory as [| [f0 c0] directory IH];
    intros pages Hnd Hnew; simpl.
  - now rewrite app_nil_r.
  - inversion Hnd as [| ? ? Hf0 Hnd']; subst.
    assert (Hnone : dict_get f0 pages = None).
    { apply dict_get_None. apply Hnew. simpl; auto. }
    unfold extract_file at 2; simpl.
    destruct (endswith f0 ".html") eqn:Eh; simpl.
    + rewrite IH; [| exact Hnd' |].
      * rewrite (dict_set_new _ _ _ Hnone). unfold keys at 1.
        rewrite map_app; simpl. now rewrite <- app_assoc.
      * intros f Hf Hin. apply In_keys_dict_set in Hin as [-> | Hin];
          [contradiction | apply (Hnew f); simpl; auto].
    + apply IH; [exact Hnd' |]. intros f Hf. apply Hnew. simpl; auto.
Qed.

Lemma dict_mem_keys {V W : Type} (a : dict V) (b : dict W) (l : Page) :
  keys a = keys b -> dict_mem l a = dict_mem l b.
Proof.
  intros E. unfold dict_mem.
  destruct (dict_get l a) as [v |] eqn:Ea; destruct (dict_get l b) as [w |] eqn:Eb;
    try reflexivity; exfalso.
  - apply dict_get_In_keys in Ea. apply dict_get_None in Eb. congruence.
  - apply dict_get_In_keys in Eb. apply dict_get_None in Ea. congruence.
Qed.

Lemma dict_mem_true {V : Type} (d : dict V) (l : Page) :
  dict_mem l d = true <-> In l (keys d).
Proof.
  unfold dict_mem. destruct (dict_get l d) as [v |] eqn:E.
  - apply dict_get_In_keys in E. tauto.
  - apply dict_get_None in E. split; [discriminate | tauto].
Qed.

Lemma dict_get_middle {V : Type} (pre post : dict V) (k : Page) (v : V) :
  ~ In k (keys pre) -> dict_get k (pre ++ (k, v) :: post) = Some v.
Proof.
  induction pre as [| [k0 v0] pre IH]; simpl; intros Hk.
  - now rewrite String.eqb_refl.
  - destruct (String.eqb_spec k k0) as [-> | Hne]; [tauto | apply IH; tauto].
Qed.

Lemma dict_set_middle {V : Type} (pre post : dict V) (k : Page) (v v' : V) :
  ~ In k (keys pre) ->
  dict_set k v' (pre ++ (k, v) :: post) = pre ++ (k, v') :: post.
Proof.
  induction pre as [| [k0 v0] pre IH]; simpl; intros Hk.
  - now rewrite String.eqb_refl.
  - destruct (String.eqb_spec k k0) as [-> | Hne]; [tauto |].
    f_equal. apply IH. tauto.
Qed.

Lemma keys_prune (pages entries : graph) :
  keys (map (prune_entry pages) entries) = keys entries.
Proof. unfold keys. rewrite map_map. reflexivity. Qed.

Lemma prune_loop (pages done todo : graph) :
  NoDup (keys (done ++ todo)) -> keys (done ++ todo) = keys pages ->
  for_each (keys todo)
    (fun filename pages =>
       links <- getitem filename pages ;;
       Ok (dict_set filename (filter (fun link => dict_mem link pages) links) pages))
    (done ++ todo)
  = Ok (done ++ map (prune_entry pages) todo).
Proof.
  revert done; induction todo as [| [k v] todo IH]; intros done Hnd Hk; simpl.
  - reflexivity.
  - assert (Hkd : ~ In k (keys done)).
    { unfold keys in Hnd. rewrite map_app in Hnd. simpl in Hnd.
      apply NoDup_remove_2 in Hnd. intros H. apply Hnd, in_app_iff. now left. }
    unfold getitem. rewrite (dict_get_middle _ _ _ _ Hkd). cbn [bind].
    rewrite (dict_set_middle _ _ _ _ _ Hkd).
    rewrite (filter_ext _ (fun link => dict_mem link pages)
               (fun l => dict_mem_keys _ _ l Hk)).
    change (done ++ (k, filter (fun link => dict_mem link pages) v) :: todo)
      with (done ++ [prune_entry pages (k, v)] ++ todo).
    rewrite app_assoc. rewrite IH.
    + rewrite <- app_assoc. reflexivity.
    + rewrite <- app_assoc. unfold keys in *. rewrite !map_app in *. exact Hnd.
    + rewrite <- app_assoc. unfold keys in *. rewrite !map_app in *. exact Hk.
Qed.

(** The second loop never fails: it prunes every entry in place. *)
Lemma crawl_prune_Ok (pages : graph) :
  dict_wf pages -> crawl_prune pages = Ok (map (prune_entry pages) pages).
Proof.
  intros Hwf. exact (prune_loop pages [] pages Hwf eq_refl).
Qed.

Lemma crawl_Ok (findall : string -> list string) (directory : list (string * string)) :
  crawl findall directory
  = Ok (map (prune_entry (crawl_extract findall directory))
            (crawl_extract findall directory)).
Proof.
  unfold crawl. apply crawl_prune_Ok.
  unfold crawl_extract. apply extract_wf. constructor.
Qed.

Lemma crawled_entry (findall : string -> list string)
    (directory : list (string * string)) (f : Page) (ls : list Page) :
  In (f, ls) (crawled findall directory) ->
  exists c,
    In (f, c) directory /\ endswith f ".html" = true /\
    ls = filter (fun link => dict_mem link (crawl_extract findall directory))
           (links_of f (findall c)).
Proof.
  intros H. unfold crawled in H. apply in_map_iff in H as ([f0 ls0] & E & H).
  unfold prune_entry in E; simpl in E. injection E as -> <-.
  unfold crawl_extract in H.
  apply extract_entries in H as [[] | (c & Hc & Hh & ->)].
  exists c. auto.
Qed.

Lemma keys_crawled (findall : string -> list string)
    (directory : list (string * string)) :
  keys (crawled findall directory) = keys (crawl_extract findall directory).
Proof. apply keys_prune. Qed.

Lemma crawled_wf (findall : string -> list string)
    (directory : list (string * string)) :
  dict_wf (crawled findall directory).
Proof.
  unfold dict_wf. rewrite keys_crawled. unfold crawl_extract.
  apply extract_wf. constructor.
Qed.

Lemma crawled_links_wf (findall : string -> list string)
    (directory : list (string * string)) :
  links_wf (crawled findall directory).
Proof.
  apply Forall_forall. intros [f ls] H.
  apply crawled_entry in H as (c & _ & _ & ->). simpl.
  apply NoDup_filter, links_of_NoDup.
Qed.

Lemma crawled_links_closed (findall : string -> list string)
    (directory : list (string * string)) :
  links_closed (crawled findall directory).
Proof.
  intros q ls p H Hp.
  apply crawled_entry in H as (c & _ & _ & ->).
  apply filter_In in Hp as [_ Hp].
  rewrite keys_crawled. now apply dict_mem_true.
Qed.

Lemma crawled_no_self_link (findall : string -> list string)
    (directory : list (string * string)) (f : Page) (ls : list Page) :
  In (f, ls) (crawled findall directory) -> ~ In f ls.
Proof.
  intros H Hf. apply crawled_entry in H as (c & _ & _ & ->).
  apply filter_In in Hf as [Hf _]. apply In_links_of in Hf. tauto.
Qed.

Lemma extract_keys_complete (findall : string -> list string)
    (directory : list (string * string)) (pages : graph) (f : Page) :
  In f (keys pages) \/
  (exists c, In (f, c) directory /\ endswith f ".html" = true) ->
  In f (keys (fold_left (extract_file findall) directory pages)).
Proof.
  revert pages; induction directory as [| [f0 c0] directory IH]; intros pages H;
    simpl.
  - destruct H as [H | (c & [] & _)]. exact H.
  - apply IH. unfold extract_file; simpl.
    destruct H as [H | (c & [E | Hc] & Hh)].
    + left. destruct (negb _); [exact H | apply In_keys_dict_set; auto].
    + injection E as -> ->. rewrite Hh; simpl. left. apply In_keys_dict_set; auto.
    + right. exists c. auto.
Qed.

Lemma NoDup_fst_functional {A B : Type} (l : list (A * B)) (a : A) (b b' : B) :
  NoDup (map fst l) -> In (a, b) l -> In (a, b') l -> b = b'.
Proof.
  induction l as [| [a0 b0] l IH]; simpl; intros Hnd H H'; [destruct H |].
  inversion Hnd as [| ? ? Ha Hnd']; subst.
  destruct H as [E | H], H' as [E' | H'].
  - congruence.
  - injection E as -> _. exfalso. apply Ha. apply (in_map fst) in H'. exact H'.
  - injection E' as -> _. exfalso. apply Ha. apply (in_map fst) in H. exact H.
  - now apply IH.
Qed.

(** X1: once the entries of the directory and their texts are read, [crawl]
    raises no exception, whatever the pattern finds, and what it returns is
    a graph as the estimators need it: no page twice, every set of links
    without repetition, every link a page of the graph, and no page linking
    to itself. *)
Theorem crawl_returns_graph (findall : string -> list string)
    (directory : list (string * string)) :
  exists g,
    crawl findall directory = Ok g /\
    dict_wf g /\ links_wf g /\ links_closed g /\
    (forall f ls, In (f, ls) g -> ~ In f ls).
Proof.
  exists (crawled findall directory).
  split; [apply crawl_Ok |].
  split; [apply crawled_wf |].
  split; [apply crawled_links_wf |].
  split; [apply crawled_links_closed |].
  apply crawled_no_self_link.
Qed.

(** X2: the pages of the crawled graph are the entries of the directory
    whose name ends with ".html", in the order of the directory; the links
    of a page are exactly the links found in its text that are not the page
    itself and that are pages of the graph. *)
Theorem crawl_pages_and_links (findall : string -> list string)
    (directory : list (string * string)) :
  NoDup (map fst directory) ->
  exists g,
    crawl findall directory = Ok g /\
    keys g = filter (fun f => endswith f ".html") (map fst directory) /\
    (forall f, In f (keys g) -> exists pre, f = (pre ++ ".html")%string) /\
    (forall f c,
       In (f, c) directory -> endswith f ".html" = true ->
       exists ls,
         dict_get f g = Some ls /\
         forall l, In l ls <-> In l (findall c) /\ l <> f /\ In l (keys g)).
Proof.
  intros Hnd. exists (crawled findall directory).
  assert (Hkeys : keys (crawled findall directory)
                  = filter (fun f => endswith f ".html") (map fst directory)).
  { rewrite keys_crawled. unfold crawl_extract.
    rewrite (extract_keys findall directory [] Hnd); [reflexivity |].
    intros f _ []. }
  split; [apply crawl_Ok |]. split; [exact Hkeys |]. split.
  - intros f Hf. rewrite Hkeys in Hf. apply filter_In in Hf as [_ Hf].
    now apply endswith_spec.
  - intros f c Hc Hh.
    assert (Hf : In f (keys (crawled findall directory))).
    { rewrite Hkeys. apply filter_In. split; [| exact Hh].
      apply (in_map fst) in Hc. exact Hc. }
    destruct (In_keys_dict_get _ _ Hf) as [ls Hls]. exists ls.
    split; [exact Hls |].
    apply dict_get_Some_In, crawled_entry in Hls as (c' & Hc' & _ & ->).
    rewrite (NoDup_fst_functional _ _ _ _ Hnd Hc' Hc).
    intros l. rewrite filter_In, In_links_of, dict_mem_true, keys_crawled. tauto.
Qed.

(** A directory of two pages and a text file; the link to "9.html", which
    is not in the directory, is pruned. *)
Lemma crawl_pages_and_links_witness :
  exists g,
    crawl (fun contents => [contents])
      [("1.html", "2.html"); ("2.html", "9.html"); ("notes.txt", "1.html")]%string
      = Ok g /\
    keys g = ["1.html"; "2.html"]%string /\
    dict_get "1.html"%string g = Some ["2.html"%string] /\
    (exists ls, dict_get "2.html"%string g = Some ls /\
                ~ In "9.html"%string ls).
Proof.
  destruct (crawl_pages_and_links (fun contents => [contents])
              [("1.html", "2.html"); ("2.html", "9.html"); ("notes.txt", "1.html")]%string)
    as (g & Hg & Hkeys & _ & Hlinks).
  - simpl. repeat constructor; simpl; intuition discriminate.
  - exists g. split; [exact Hg |]. split; [exact Hkeys |]. split.
    + pose proof Hg as Hg'. vm_compute in Hg'. injection Hg' as <-. reflexivity.
    + destruct (Hlinks "2.html"%string "9.html"%string) as (ls & Hls & Hin).
      * simpl; auto.
      * reflexivity.
      * exists ls. split; [exact Hls |]. intros H9. apply Hin in H9 as (_ & _ & H9).
        rewrite Hkeys in H9. simpl in H9. intuition discriminate.
Defined.

(** ** The incoming-links index, exactly *)

Lemma append_to_app (o : option (list Page)) (l1 l2 : list Page) :
  append_to (append_to o l1) l2 = append_to o (l1 ++ l2).
Proof.
  destruct l1 as [| a l1]; [reflexivity |].
  destruct l2 as [| b l2]; simpl.
  - now rewrite app_nil_r.
  - destruct o; simpl; f_equal. now rewrite <- app_assoc.
Qed.

Lemma record_incoming_get_eq (page p : Page) (incomingPages : dict (list Page)) :
  dict_get p (record_incoming page incomingPages p)
  = append_to (dict_get p incomingPages) [page].
Proof.
  unfold record_incoming.
  destruct (dict_get p incomingPages); rewrite dict_get_set_eq; reflexivity.
Qed.

Lemma record_incoming_get_neq (page p a : Page) (incomingPages : dict (list Page)) :
  a <> p ->
  dict_get p (record_incoming page incomingPages a) = dict_get p incomingPages.
Proof.
  intros Hne. unfold record_incoming.
  destruct (dict_get a incomingPages); now apply dict_get_set_neq.
Qed.

Lemma record_all_get (page p : Page) (linkedTo : list Page)
    (incomingPages : dict (list Page)) :
  NoDup linkedTo ->
  dict_get p (fold_left (record_incoming page) linkedTo incomingPages)
  = append_to (dict_get p incomingPages)
      (if in_dec string_dec p linkedTo then [page] else []).
Proof.
  revert incomingPages; induction linkedTo as [| a ls IH];
    intros incomingPages Hnd; [reflexivity |].
  inversion Hnd as [| ? ? Ha Hnd']; subst.
  cbn [fold_left]. rewrite (IH _ Hnd').
  destruct (string_dec a p) as [-> | Hne].
  - rewrite record_incoming_get_eq.
    destruct (in_dec string_dec p ls) as [Hin | _]; [contradiction |].
    destruct (in_dec string_dec p (p :: ls)) as [_ | Hn];
      [reflexivity | exfalso; apply Hn; now left].
  - rewrite record_incoming_get_neq by exact Hne.
    destruct (in_dec string_dec p ls) as [Hin | Hnin];
      destruct (in_dec string_dec p (a :: ls)) as [Hin' | Hnin'];
      try reflexivity; exfalso.
    + apply Hnin'. now right.
    + destruct Hin' as [E | Hin']; [exact (Hne E) | exact (Hnin Hin')].
Qed.

Lemma index_fold_get (items : graph) (incomingPages : dict (list Page)) (p : Page) :
  links_wf items ->
  dict_get p
    (fold_left
       (fun inc kv => fold_left (record_incoming (fst kv)) (snd kv) inc)
       items incomingPages)
  = append_to (dict_get p incomingPages) (linkers items p).
Proof.
  revert incomingPages; induction items as [| [q ls] items IH];
    intros incomingPages Hwf; [reflexivity |].
  inversion Hwf as [| ? ? Hls Hwf']; subst. simpl in Hls.
  cbn [fold_left]. rewrite (IH _ Hwf'). cbn [fst snd].
  rewrite (record_all_get q p ls incomingPages Hls), append_to_app.
  f_equal. unfold linkers. cbn [filter]. unfold links_to_b at 2. cbn [snd].
  destruct (in_dec string_dec p ls); reflexivity.
Qed.

Lemma incoming_index_get (corpus : graph) (p : Page) :
  links_wf corpus ->
  dict_get p (incoming_index corpus)
  = match linkers corpus p with [] => None | l => Some l end.
Proof.
  intros Hwf. unfold incoming_index. rewrite (index_fold_get corpus [] p Hwf).
  simpl. destruct (linkers corpus p); reflexivity.
Qed.

Lemma In_linkers (corpus : graph) (p q : Page) :
  In q (linkers corpus p) <-> links_to corpus q p.
Proof.
  unfold linkers, links_to. rewrite in_map_iff. split.
  - intros ([q' ls] & E & H). simpl in E. subst q'.
    apply filter_In in H as [H Hb]. unfold links_to_b in Hb. simpl in Hb.
    destruct (in_dec string_dec p ls); [eauto | discriminate].
  - intros (ls & H & Hp). exists (q, ls). split; [reflexivity |].
    apply filter_In. split; [exact H |]. unfold links_to_b. simpl.
    destruct (in_dec string_dec p ls); [reflexivity | contradiction].
Qed.

Lemma NoDup_keys_filter {V : Type} (f : Page * V -> bool) (d : dict V) :
  dict_wf d -> NoDup (map fst (filter f d)).
Proof.
  unfold dict_wf, keys. induction d as [| kv d IH]; simpl; intros Hnd;
    [constructor |].
  inversion Hnd as [| ? ? Hk Hnd']; subst.
  destruct (f kv); simpl; [| auto].
  constructor; [| auto].
  intros H. apply Hk. apply in_map_iff in H as (kv' & E & H).
  apply filter_In in H as [H _]. apply in_map_iff. eauto.
Qed.

(** X4: the index holds, under each page [p], exactly the pages whose links
    hold [p], each once and in the order of the graph; a page that nothing
    links to has no entry. *)
Theorem incoming_index_exact (corpus : graph) (p : Page) :
  dict_wf corpus -> links_wf corpus ->
  dict_get p (incoming_index corpus)
  = match linkers corpus p with [] => None | l => Some l end
  /\ NoDup (linkers corpus p)
  /\ (forall q, In q (linkers corpus p) <->
               exists ls, dict_get q corpus = Some ls /\ In p ls).
Proof.
  intros Hwf Hlw. split; [now apply incoming_index_get |].
  split; [now apply NoDup_keys_filter |].
  intros q. rewrite In_linkers. unfold links_to. split.
  - intros (ls & H & Hp). exists ls. split; [now apply In_dict_get | exact Hp].
  - intros (ls & H & Hp). exists ls. split; [now apply dict_get_Some_In | exact Hp].
Qed.

Lemma incoming_index_exact_witness :
  dict_get "1.html"%string (incoming_index corpus_cycle)
  = Some ["2.html"; "3.html"]%string
  /\ dict_get "1.html"%string (incoming_index corpus_no_incoming) = None.
Proof.
  split.
  - destruct (incoming_index_exact corpus_cycle "1.html"%string) as (E & _).
    + unfold dict_wf; simpl. repeat constructor; simpl; intuition discriminate.
    + repeat constructor; simpl; intuition discriminate.
    + exact E.
  - destruct (incoming_index_exact corpus_no_incoming "1.html"%string) as (E & _).
    + unfold dict_wf; simpl. repeat constructor; simpl; intuition discriminate.
    + repeat constructor; simpl; intuition discriminate.
    + exact E.
Defined.

(** ** The recurrence *)

Lemma fold_recurrence (d : Q) (f : Page -> Q) (l : list Page) (acc : Q) :
  fold_left (fun acc q => acc + d * f q) l acc == acc + d * Qsum (map f l).
Proof.
  revert acc; induction l as [| q l IH]; intros acc; simpl.
  - ring.
  - rewrite IH. ring.
Qed.

Lemma add_incoming_loop (corpus : graph) (d : Q) (ranks : dict Q)
    (incoming : list Page) (acc : Q) :
  dict_wf corpus -> covers corpus ranks ->
  (forall q, In q incoming -> exists p, links_to corpus q p) ->
  exists v,
    for_each incoming (add_incoming corpus d ranks) acc = Ok v /\
    v == acc + d * Qsum (map (fun q => rank_of ranks q / out_degree corpus q) incoming).
Proof.
  intros Hwf Hcov. revert acc.
  induction incoming as [| q incoming IH]; intros acc Hl.
  - exists acc. split; [reflexivity | simpl; ring].
  - destruct (add_incoming_Ok corpus d ranks q acc Hwf Hcov)
      as (r & ls & Hr & Hls & _ & Hadd); [apply Hl; now left |].
    destruct (IH (acc + d * r / len ls)) as (v & Hv & E);
      [intros q' Hq'; apply Hl; now right |].
    exists v. split.
    + cbn [for_each]. rewrite Hadd. exact Hv.
    + rewrite E.
      change (Qsum (map (fun q => rank_of ranks q / out_degree corpus q)
                        (q :: incoming)))
        with (rank_of ranks q / out_degree corpus q
              + Qsum (map (fun q => rank_of ranks q / out_degree corpus q) incoming)).
      generalize (Qsum (map (fun q => rank_of ranks q / out_degree corpus q) incoming)).
      intros s. unfold rank_of, out_degree. rewrite Hr, Hls. unfold Qdiv. ring.
Qed.

(** The step of the loop on a page that some page links to. *)
Lemma update_page_linked (corpus : graph) (d : Q) (p : Page) (ranks : dict Q)
    (change : Q) :
  dict_wf corpus -> links_wf corpus -> covers corpus ranks ->
  In p (keys corpus) -> linkers corpus p <> [] ->
  exists v,
    update_page corpus d (incoming_index corpus) p (ranks, change)
    = Ok (dict_set p v ranks, change + Qabs (rank_of ranks p - v)) /\
    v == recurrence corpus d ranks p.
Proof.
  intros Hwf Hlw Hcov Hp Hne. unfold update_page.
  assert (Hc : corpus <> []) by (intros ->; destruct Hp).
  rewrite py_div_Ok by (now apply len_nonzero). cbn [bind].
  rewrite (incoming_index_get corpus p Hlw).
  destruct (linkers corpus p) as [| q0 qs] eqn:El; [congruence |].
  rewrite <- El.
  destruct (add_incoming_loop corpus d ranks (linkers corpus p)
              ((1 - d) / len corpus) Hwf Hcov) as (v & -> & Ev).
  { intros q Hq. exists p. now apply In_linkers. }
  cbn [bind]. destruct (Hcov p Hp) as [old Hold].
  unfold getitem. rewrite Hold. cbn [bind].
  exists v. split.
  - unfold rank_of. rewrite Hold. reflexivity.
  - exact Ev.
Qed.

(** X5: for a page that some page links to, the step of the loop stores the
    value of the PageRank recurrence read on the working mapping,
    (1-d)/N + d * sum of rank(q)/|links(q)| over the pages q linking to it,
    and adds the absolute change of the rank to the change of the round. *)
Theorem update_page_recurrence (corpus : graph) (d : Q) (p : Page) (ranks : dict Q)
    (change : Q) :
  dict_wf corpus -> links_wf corpus -> covers corpus ranks ->
  In p (keys corpus) -> (exists q, links_to corpus q p) ->
  exists v,
    update_page corpus d (incoming_index corpus) p (ranks, change)
    = Ok (dict_set p v ranks, change + Qabs (rank_of ranks p - v)) /\
    v == (1 - d) / len corpus
         + d * Qsum (map (fun q => rank_of ranks q / out_degree corpus q)
                         (linkers corpus p)).
Proof.
  intros Hwf Hlw Hcov Hp [q Hq].
  apply update_page_linked; try assumption.
  apply In_linkers in Hq. intros E. rewrite E in Hq. destruct Hq.
Qed.

Lemma update_page_recurrence_witness :
  exists v,
    update_page corpus_cycle (85 # 100) (incoming_index corpus_cycle)
      "1.html"%string (fill (1 / 3) (keys corpus_cycle), 0)
    = Ok (dict_set "1.html"%string v (fill (1 / 3) (keys corpus_cycle)),
          0 + Qabs (rank_of (fill (1 / 3) (keys corpus_cycle)) "1.html"%string - v))
    /\ v == 37 # 60.
Proof.
  destruct (update_page_recurrence corpus_cycle (85 # 100) "1.html"%string
              (fill (1 / 3) (keys corpus_cycle)) 0) as (v & Hv & E).
  - unfold dict_wf; simpl. repeat constructor; simpl; intuition discriminate.
  - repeat constructor; simpl; intuition discriminate.
  - intros p Hp. simpl in Hp.
    destruct Hp as [<- | [<- | [<- | []]]]; eexists; reflexivity.
  - simpl; auto.
  - exists "2.html"%string, ["1.html"%string]. simpl; auto.
  - exists v. split; [exact Hv |]. rewrite E. reflexivity.
Defined.

(** ** transition_model: every outcome *)

Lemma transition_dict_get_outside (corpus : graph) (linkedPages : list Page)
    (d : Q) (p : Page) :
  linkedPages <> [] -> ~ In p (keys corpus) ->
  dict_get p (transition_dict corpus linkedPages d)
  = if in_dec string_dec p linkedPages
    then Some (d * 1 / len linkedPages) else None.
Proof.
  intros Hne Hp. unfold transition_dict.
  destruct linkedPages as [| l0 ls]; [congruence |].
  rewrite credit_all_get_notin by exact Hp. apply dict_get_fill.
Qed.

Lemma transition_dict_keys_any (corpus : graph) (linkedPages : list Page) (d : Q)
    (p : Page) :
  In p (keys (transition_dict corpus linkedPages d))
  <-> In p (keys corpus) \/ In p linkedPages.
Proof.
  unfold transition_dict. destruct linkedPages as [| l0 ls].
  - rewrite keys_fill. simpl. tauto.
  - rewrite In_keys_credit_all, keys_fill. tauto.
Qed.

(** The dictionary passes the validator whether the links stay inside the
    graph or not. *)
Lemma transition_dict_valid (corpus : graph) (linkedPages : list Page) (d : Q) :
  dict_wf corpus -> NoDup linkedPages -> corpus <> [] -> 0 <= d -> d <= 1 ->
  valid_distribution (transition_dict corpus linkedPages d).
Proof.
  intros Hwf Hnd Hc Hd0 Hd1.
  split; [| apply round3_one; now apply transition_dict_sum].
  pose proof (len_ge_1 corpus Hc) as HN.
  destruct (Qdiv_ge_1_bounds (1 - d) (len corpus)) as [Hr0 Hr1]; [lra | exact HN |].
  apply Forall_forall. intros [p v] Hin. simpl.
  destruct linkedPages as [| l0 ls].
  - unfold transition_dict, fill in Hin.
    apply in_map_iff in Hin as (q & E & _). injection E as _ <-.
    unfold in_bounds. destruct (Qdiv_ge_1_bounds 1 (len corpus)); lra.
  - assert (HL : 1 <= len (l0 :: ls)) by (apply len_ge_1; discriminate).
    destruct (Qdiv_ge_1_bounds (d * 1) (len (l0 :: ls))) as [Hv0 Hv1];
      [lra | exact HL |].
    apply In_dict_get in Hin; [| now apply transition_dict_wf].
    unfold in_bounds.
    destruct (in_dec string_dec p (keys corpus)) as [Hk | Hk].
    + rewrite transition_dict_get in Hin by (assumption || discriminate).
      destruct (in_dec string_dec p (l0 :: ls)); injection Hin as <-; lra.
    + rewrite transition_dict_get_outside in Hin by (assumption || discriminate).
      destruct (in_dec string_dec p (l0 :: ls)); [| discriminate].
      injection Hin as <-. lra.
Qed.

Lemma links_wf_get (corpus : graph) (page : Page) (linkedPages : list Page) :
  links_wf corpus -> dict_get page corpus = Some linkedPages -> NoDup linkedPages.
Proof.
  intros Hlw Hget. apply dict_get_Some_In in Hget.
  unfold links_wf in Hlw. rewrite Forall_forall in Hlw. exact (Hlw _ Hget).
Qed.

(** X6: with a damping factor in [0,1], [transition_model] fails for one
    reason only, a page that is not in the graph, and then with [KeyError]
    on that page.  For a page of the graph it returns, also when some links
    lead outside the graph: the values sum to 1, the keys are the pages of
    the graph and the linked pages, and a linked page outside the graph has
    d/|links| alone. *)
Theorem transition_model_outcome (corpus : graph) (page : Page) (d : Q) :
  dict_wf corpus -> links_wf corpus -> 0 <= d -> d <= 1 ->
  (~ In page (keys corpus) ->
   transition_model corpus page d = Raise (KeyError page)) /\
  (forall linkedPages,
     dict_get page corpus = Some linkedPages ->
     exists tm,
       transition_model corpus page d = Ok tm /\
       sum_values tm == 1 /\
       (forall p, In p (keys tm) <-> In p (keys corpus) \/ In p linkedPages) /\
       (forall p, In p linkedPages -> ~ In p (keys corpus) ->
          exists v, dict_get p tm = Some v /\ v == d / len linkedPages)).
Proof.
  intros Hwf Hlw Hd0 Hd1. split.
  - intros Hp. apply dict_get_None in Hp.
    unfold transition_model, getitem. now rewrite Hp.
  - intros linkedPages Hget.
    assert (Hc : corpus <> []) by (intros ->; discriminate).
    pose proof (links_wf_get _ _ _ Hlw Hget) as Hnd.
    exists (transition_dict corpus linkedPages d).
    split; [| split; [| split]].
    + rewrite (transition_model_unfold _ _ _ _ Hwf Hnd Hget).
      rewrite check_valid; [reflexivity |]. now apply transition_dict_valid.
    + now apply transition_dict_sum.
    + intros p. apply transition_dict_keys_any.
    + intros p Hp Hout. eexists. split.
      * rewrite transition_dict_get_outside;
          [| intros ->; destruct Hp | exact Hout].
        destruct (in_dec string_dec p linkedPages); [reflexivity | contradiction].
      * assert (Hl : ~ len linkedPages == 0).
        { apply len_nonzero. intros ->. destruct Hp. }
        now field.
Qed.

Lemma transition_model_outcome_witness :
  transition_model [("1.html", ["2.html"; "9.html"]); ("2.html", [])]%string
    "9.html"%string (1 # 2) = Raise (KeyError "9.html"%string) /\
  exists tm,
    transition_model [("1.html", ["2.html"; "9.html"]); ("2.html", [])]%string
      "1.html"%string (1 # 2) = Ok tm /\
    sum_values tm == 1 /\
    exists v, dict_get "9.html"%string tm = Some v /\ v == 1 # 4.
Proof.
  destruct (transition_model_outcome
              [("1.html", ["2.html"; "9.html"]); ("2.html", [])]%string
              "9.html"%string (1 # 2)) as [Hout _].
  - unfold dict_wf; simpl. repeat constructor; simpl; intuition discriminate.
  - repeat constructor; simpl; intuition discriminate.
  - discriminate.
  - discriminate.
  - split; [apply Hout; simpl; intuition discriminate |].
    destruct (transition_model_outcome
                [("1.html", ["2.html"; "9.html"]); ("2.html", [])]%string
                "1.html"%string (1 # 2)) as [_ Hin].
    + unfold dict_wf; simpl. repeat constructor; simpl; intuition discriminate.
    + repeat constructor; simpl; intuition discriminate.
    + discriminate.
    + discriminate.
    + destruct (Hin ["2.html"; "9.html"]%string eq_refl)
        as (tm & Htm & Hsum & _ & Hdangling).
      exists tm. split; [exact Htm |]. split; [exact Hsum |].
      destruct (Hdangling "9.html"%string) as (v & Hv & E).
      * simpl; auto.
      * simpl; intuition discriminate.
      * exists v. split; [exact Hv | rewrite E; reflexivity].
Defined.

(** X7: a damping factor above 1 is caught by the validator: for a page
    that has links but does not link to every page of the graph,
    [transition_model] raises the bounds exception, because a page that is
    not linked gets (1-d)/N, which is negative. *)
Theorem transition_model_damping_above_one (corpus : graph) (page other : Page)
    (d : Q) (linkedPages : list Page) :
  dict_wf corpus -> NoDup linkedPages -> 1 < d ->
  dict_get page corpus = Some linkedPages -> linkedPages <> [] ->
  In other (keys corpus) -> ~ In other linkedPages ->
  transition_model corpus page d = Raise (Exception ProbabilityNotInBounds).
Proof.
  intros Hwf Hnd Hd Hget Hne Hother Hnl.
  assert (Hc : corpus <> []) by (intros ->; discriminate).
  rewrite (transition_model_unfold _ _ _ _ Hwf Hnd Hget).
  unfold checkProbabilityDictionary.
  destruct (check_loop (transition_dict corpus linkedPages d) 0)
    as [[HF _] | [_ ->]]; [exfalso | reflexivity].
  pose proof (transition_dict_get corpus linkedPages d other Hwf Hne Hother) as Hv.
  destruct (in_dec string_dec other linkedPages); [contradiction |].
  apply dict_get_Some_In in Hv. rewrite Forall_forall in HF.
  destruct (HF _ Hv) as [H0 _]. simpl in H0.
  pose proof (len_ge_1 corpus Hc) as HN.
  assert (Hneg : (1 - d) / len corpus < 0).
  { apply Qlt_shift_div_r; lra. }
  lra.
Qed.

Lemma transition_model_damping_above_one_witness :
  transition_model corpus_cycle "1.html"%string (3 # 2)
  = Raise (Exception ProbabilityNotInBounds).
Proof.
  apply (transition_model_damping_above_one corpus_cycle "1.html"%string
           "1.html"%string (3 # 2) ["2.html"; "3.html"]%string).
  - unfold dict_wf; simpl. repeat constructor; simpl; intuition discriminate.
  - repeat constructor; simpl; intuition discriminate.
  - reflexivity.
  - reflexivity.
  - discriminate.
  - simpl; auto.
  - simpl; intuition discriminate.
Defined.

(** ** sample_pagerank: the sample count *)

Lemma Qinv_neg (x : Q) : x < 0 -> 1 / x < 0.
Proof.
  intros Hx. apply Qnot_le_lt. intros H.
  assert (E : x * (1 / x) == 1) by (field; lra).
  nra.
Qed.

(** X8: a sample count that is not positive makes [sample_pagerank] fail
    on every non-empty graph, after the first page is drawn.  The count 0
    raises [ZeroDivisionError] at the first [1/n].  A negative count skips
    the loop and hands the single credit 1/n to the validator, which
    raises; as long as 1/n is a nonzero float (here: n >= -10^300) the
    credit is below 0 and the exception is the one of the bounds test. *)
Theorem sample_pagerank_nonpositive_count (corpus : graph) (d : Q) (n : Z)
    (st : rng) :
  corpus <> [] -> unit_draws st -> (n <= 0)%Z ->
  (n = 0%Z -> sample_pagerank corpus d n st = Raise ZeroDivisionError) /\
  ((n < 0)%Z -> InvalidDistribution (sample_pagerank corpus d n st)) /\
  ((- 10 ^ 300 <= n < 0)%Z ->
   sample_pagerank corpus d n st = Raise (Exception ProbabilityNotInBounds)).
Proof.
  intros Hc Hu Hn.
  assert (Hneg : (n < 0)%Z ->
                 sample_pagerank corpus d n st
                 = Raise (Exception ProbabilityNotInBounds)).
  { intros Hlt. unfold sample_pagerank.
    destruct (choice_Ok (keys corpus) st) as (first & -> & _);
      [destruct corpus; [congruence | discriminate] | exact Hu |].
    cbn [bind].
    assert (Hq : inject_Z n < 0).
    { change 0 with (inject_Z 0). rewrite <- Zlt_Qlt. exact Hlt. }
    rewrite py_div_Ok by lra. cbn [bind].
    assert (Hr : range1 n = []).
    { unfold range1. replace (Z.to_nat (n - 1)) with 0%nat by lia. reflexivity. }
    rewrite Hr. cbn [for_each bind dict_set].
    unfold checkProbabilityDictionary. cbn [for_each].
    rewrite check_entry_Raise; [reflexivity |].
    simpl. intros [H0 _]. pose proof (Qinv_neg _ Hq). lra. }
  split; [| split].
  - intros ->. unfold sample_pagerank.
    destruct (choice_Ok (keys corpus) st) as (first & -> & _);
      [destruct corpus; [congruence | discriminate] | exact Hu |].
    reflexivity.
  - intros Hlt. exists ProbabilityNotInBounds. exact (Hneg Hlt).
  - intros [_ Hlt]. exact (Hneg Hlt).
Qed.

Lemma sample_pagerank_nonpositive_count_witness :
  sample_pagerank corpus_cycle (85 # 100) 0 zero_draws = Raise ZeroDivisionError /\
  InvalidDistribution (sample_pagerank corpus_cycle (85 # 100) (-3) zero_draws) /\
  sample_pagerank corpus_cycle (85 # 100) (-3) zero_draws
  = Raise (Exception ProbabilityNotInBounds).
Proof.
  assert (Hu : unit_draws zero_draws)
    by (intros i; simpl; split; [discriminate | reflexivity]).
  assert (Hc : corpus_cycle <> []) by discriminate.
  split; [| split].
  - apply (sample_pagerank_nonpositive_count corpus_cycle (85 # 100) 0 zero_draws);
      [exact Hc | exact Hu | discriminate | reflexivity].
  - apply (sample_pagerank_nonpositive_count corpus_cycle (85 # 100) (-3) zero_draws);
      [exact Hc | exact Hu | discriminate | reflexivity].
  - apply (sample_pagerank_nonpositive_count corpus_cycle (85 # 100) (-3) zero_draws);
      [exact Hc | exact Hu | discriminate |].
    split; [| reflexivity]. apply Z.leb_le. vm_compute. reflexivity.
Defined.

(** ** sample_pagerank: the sampling loop *)

Lemma advance_0 (st : rng) : advance 0 st = st.
Proof. destruct st. reflexivity. Qed.

Lemma incl_keys_credit (p : Page) (inc : Q) (est : dict Q) (pages : list Page) :
  In p pages -> incl (keys est) pages -> incl (keys (credit p inc est)) pages.
Proof.
  intros Hp Hincl q Hq. apply In_keys_credit in Hq as [-> | Hq]; auto.
Qed.

Lemma at_least_set (b : Q) (k : Page) (v : Q) (d : dict Q) :
  b <= v -> Forall (fun kv => b <= snd kv) d ->
  Forall (fun kv => b <= snd kv) (dict_set k v d).
Proof.
  intros Hv. induction d as [| [k' v'] d IH]; intros Hd; simpl.
  - repeat constructor. exact Hv.
  - inversion Hd as [| ? ? Hv' Hd']; subst.
    destruct (String.eqb k k'); constructor; auto.
Qed.

(** A credit of [inc >= 0] keeps every value at or above [inc]. *)
Lemma at_least_credit (p : Page) (inc : Q) (d : dict Q) :
  0 <= inc -> Forall (fun kv => inc <= snd kv) d ->
  Forall (fun kv => inc <= snd kv) (credit p inc d).
Proof.
  intros Hinc Hd. unfold credit.
  destruct (dict_get p d) as [v |] eqn:E; apply at_least_set; auto; [| lra].
  apply dict_get_Some_In in E. rewrite Forall_forall in Hd.
  specialize (Hd _ E). simpl in Hd. lra.
Qed.

(** The validator raises nothing but its own exception. *)
Lemma check_raises_Exception (model : dict Q) (e : exn) :
  checkProbabilityDictionary model = Raise e -> exists msg, e = Exception msg.
Proof.
  unfold checkProbabilityDictionary. intros H.
  destruct (check_loop model 0) as [[_ E] | [_ E]]; rewrite E in H; cbn [bind] in H.
  - destruct (negb (Qeq_bool (round3 (fold_left Qplus (values model) 0)) 1));
      [| discriminate].
    injection H as <-. eexists; reflexivity.
  - injection H as <-. eexists; reflexivity.
Qed.

(** The loop of [sample_pagerank] raises no exception: every turn makes
    three draws and credits a page of the graph. *)
Lemma sample_loop_estimate (corpus : graph) (d : Q) (n : Z) (A : Type) (l : list A)
    (cur : Page) (est : dict Q) (st : rng) :
  dict_wf corpus -> links_wf corpus -> links_closed corpus ->
  0 < d -> d < 1 -> (1 <= n)%Z ->
  In cur (keys corpus) -> unit_draws st ->
  Forall (fun kv => 1 / inject_Z n <= snd kv) est ->
  dict_wf est -> incl (keys est) (keys corpus) ->
  exists cur' est',
    for_each l (fun _ s => sample_step corpus d n s) (cur, est, st)
      = Ok (cur', est', advance (3 * List.length l) st) /\
    In cur' (keys corpus) /\
    Forall (fun kv => 1 / inject_Z n <= snd kv) est' /\
    dict_wf est' /\ incl (keys est') (keys corpus) /\
    incl (keys est) (keys est').
Proof.
  intros Hwf Hlw Hlc Hd0 Hd1 Hn. revert cur est st.
  induction l as [| x l IH]; intros cur est st Hcur Hu Hal Hewf Hincl.
  - exists cur, est. cbn [for_each List.length Nat.mul]. rewrite advance_0.
    split; [reflexivity |]. repeat split; auto. apply incl_refl.
  - assert (Hc : corpus <> []) by (intros E; rewrite E in Hcur; destruct Hcur).
    destruct (current_page_links corpus cur Hwf Hlw Hlc Hcur)
      as (linkedPages & Hget & Hnd & Hli).
    destruct (transition_draw_Ok corpus linkedPages d st Hc Hli)
      as (drawn & Hdraw1 & Hdrawn).
    destruct (next_page_Ok corpus linkedPages d st Hc Hli Hu)
      as (next & Hdraw3 & Hnext).
    assert (Hstep : sample_step corpus d n (cur, est, st)
                    = Ok (next, credit drawn (1 / inject_Z n) est, advance 3 st)).
    { apply (sample_step_eq corpus d n cur est st
               (transition_dict corpus linkedPages d)); try assumption; [lia |].
      apply transition_model_total; auto; lra. }
    assert (Hinc : 0 <= 1 / inject_Z n) by (now apply credit_unit_nonneg).
    destruct (IH next (credit drawn (1 / inject_Z n) est) (advance 3 st))
      as (cur' & est' & Hloop & Hcur' & Hal' & Hwf' & Hincl' & Hsub).
    + exact Hnext.
    + now apply unit_draws_advance.
    + now apply at_least_credit.
    + now apply dict_wf_credit.
    + now apply incl_keys_credit.
    + exists cur', est'. split; [| repeat split; auto].
      * cbn [for_each]. rewrite Hstep. cbn [bind]. rewrite Hloop.
        rewrite advance_advance. do 2 f_equal. unfold advance. f_equal.
        simpl List.length. lia.
      * intros q Hq. apply Hsub. apply In_keys_credit. right. exact Hq.
Qed.

(** [sample_pagerank] up to its last statement: the first page, the loop,
    and the estimate that goes to the validator. *)
Lemma sample_pagerank_to_validator (corpus : graph) (d : Q) (n : Z) (st : rng) :
  dict_wf corpus -> links_wf corpus -> links_closed corpus -> corpus <> [] ->
  0 < d -> d < 1 -> (1 <= n)%Z -> unit_draws st ->
  exists first cur est,
    choice (keys corpus) st = Ok (first, advance 1 st) /\
    for_each (range1 n) (fun _ s => sample_step corpus d n s)
      (first, dict_set first (1 / inject_Z n) [], advance 1 st)
      = Ok (cur, est, advance (3 * Z.to_nat (n - 1) + 1) st) /\
    sample_pagerank corpus d n st
      = (_ <- checkProbabilityDictionary est ;;
         Ok (est, advance (3 * Z.to_nat (n - 1) + 1) st)) /\
    In first (keys est) /\ dict_wf est /\ incl (keys est) (keys corpus) /\
    Forall (fun kv => 1 / inject_Z n <= snd kv) est.
Proof.
  intros Hwf Hlw Hlc Hc Hd0 Hd1 Hn Hu.
  destruct (choice_Ok (keys corpus) st) as (first & Hch & Hfirst);
    [destruct corpus; [congruence | discriminate] | exact Hu |].
  assert (Hn0 : ~ inject_Z n == 0).
  { change 0 with (inject_Z 0). rewrite inject_Z_injective. lia. }
  destruct (sample_loop_estimate corpus d n Z (range1 n) first
              (dict_set first (1 / inject_Z n) []) (advance 1 st))
    as (cur' & est' & Hloop & _ & Hal & Hewf & Hincl & Hsub); try assumption.
  - simpl. repeat constructor. simpl. lra.
  - apply dict_wf_set. constructor.
  - intros q [<- | []]. exact Hfirst.
  - assert (Hk : advance (3 * List.length (range1 n)) (advance 1 st)
                 = advance (3 * Z.to_nat (n - 1) + 1) st).
    { rewrite advance_advance. unfold range1. now rewrite length_map, length_seq. }
    rewrite Hk in Hloop.
    exists first, cur', est'. split; [exact Hch |]. split; [exact Hloop |].
    split; [| split; [| auto]].
    + unfold sample_pagerank. rewrite Hch. cbn [bind].
      rewrite py_div_Ok by exact Hn0. cbn [bind]. rewrite Hloop. reflexivity.
    + apply Hsub. simpl. auto.
Qed.

(** X9: on a non-empty graph whose links resolve, with a damping factor in
    (0,1), n >= 1 and draws in [0,1), the sampling part of
    [sample_pagerank] raises no exception: the first page is drawn, every
    step of the loop gets its transition distribution and its three draws,
    and the run makes 3n-2 calls to the random source.  The estimate the
    loop leaves has the first page among its keys, pages of the graph as
    its keys, no key twice and every value at least 1/n.  The result of
    [sample_pagerank] is what the final validation makes of that estimate,
    so the only exception it can raise is the validator's. *)
Theorem sample_pagerank_sampling_runs (corpus : graph) (d : Q) (n : Z) (st : rng) :
  dict_wf corpus -> links_wf corpus -> links_closed corpus -> corpus <> [] ->
  0 < d -> d < 1 -> (1 <= n)%Z -> unit_draws st ->
  (exists first cur est,
     choice (keys corpus) st = Ok (first, advance 1 st) /\
     for_each (range1 n) (fun _ s => sample_step corpus d n s)
       (first, dict_set first (1 / inject_Z n) [], advance 1 st)
       = Ok (cur, est, advance (3 * Z.to_nat (n - 1) + 1) st) /\
     sample_pagerank corpus d n st
       = (_ <- checkProbabilityDictionary est ;;
          Ok (est, advance (3 * Z.to_nat (n - 1) + 1) st)) /\
     In first (keys est) /\ dict_wf est /\ incl (keys est) (keys corpus) /\
     (forall p v, In (p, v) est -> 1 / inject_Z n <= v)) /\
  (forall e, sample_pagerank corpus d n st = Raise e -> exists msg, e = Exception msg).
Proof.
  intros Hwf Hlw Hlc Hc Hd0 Hd1 Hn Hu.
  destruct (sample_pagerank_to_validator corpus d n st Hwf Hlw Hlc Hc Hd0 Hd1 Hn Hu)
    as (first & cur & est & Hch & Hloop & Hs & Hin & Hewf & Hincl & Hal).
  split.
  - exists first, cur, est. repeat (split; [assumption |]).
    intros p v Hpv. rewrite Forall_forall in Hal. exact (Hal _ Hpv).
  - intros e He. rewrite Hs in He.
    destruct (checkProbabilityDictionary est) as [b | e'] eqn:Ec;
      cbn [bind] in He; [discriminate |].
    injection He as <-. exact (check_raises_Exception est e' Ec).
Qed.

Lemma sample_pagerank_sampling_runs_witness :
  (exists first cur est,
     choice (keys corpus_cycle) three_draws = Ok (first, advance 1 three_draws) /\
     for_each (range1 3) (fun _ s => sample_step corpus_cycle (85 # 100) 3 s)
       (first, dict_set first (1 / inject_Z 3) [], advance 1 three_draws)
       = Ok (cur, est, advance (3 * Z.to_nat (3 - 1) + 1) three_draws) /\
     sample_pagerank corpus_cycle (85 # 100) 3 three_draws
       = (_ <- checkProbabilityDictionary est ;;
          Ok (est, advance (3 * Z.to_nat (3 - 1) + 1) three_draws)) /\
     In first (keys est) /\ dict_wf est /\ incl (keys est) (keys corpus_cycle) /\
     (forall p v, In (p, v) est -> 1 / inject_Z 3 <= v)) /\
  (forall e, sample_pagerank corpus_cycle (85 # 100) 3 three_draws = Raise e ->
             exists msg, e = Exception msg).
Proof.
  apply (sample_pagerank_sampling_runs corpus_cycle (85 # 100) 3 three_draws).
  - unfold dict_wf; simpl. repeat constructor; simpl; intuition discriminate.
  - repeat constructor; simpl; intuition discriminate.
  - intros q ls p Hin Hp. simpl in Hin.
    destruct Hin as [E | [E | [E | []]]]; injection E as <- <-; simpl in *;
      intuition.
  - discriminate.
  - reflexivity.
  - reflexivity.
  - discriminate.
  - intros [| i]; simpl; split; (discriminate || reflexivity).
Defined.

(** ** crawl, then the estimators *)

(** X3: the graph [crawl] builds from a directory with at least one html
    file can be handed to the estimators as it is: for a damping factor in
    (0,1), n >= 1 and draws in [0,1), [transition_model] returns a valid
    distribution for each of its pages, the sampling of [sample_pagerank]
    reaches the final validation with an estimate over pages of the graph
    (no [KeyError], [IndexError], [ValueError] or [ZeroDivisionError] on
    the way), and no run of [iterate_pagerank] raises an exception. *)
Theorem crawl_feeds_estimators (findall : string -> list string)
    (directory : list (string * string)) (d : Q) (n : Z) (st : rng) :
  (exists f c, In (f, c) directory /\ endswith f ".html" = true) ->
  0 < d -> d < 1 -> (1 <= n)%Z -> unit_draws st ->
  exists g,
    crawl findall directory = Ok g /\
    (forall page, In page (keys g) ->
       exists tm, transition_model g page d = Ok tm /\ valid_distribution tm) /\
    (exists first cur est st',
       choice (keys g) st = Ok (first, advance 1 st) /\
       for_each (range1 n) (fun _ s => sample_step g d n s)
         (first, dict_set first (1 / inject_Z n) [], advance 1 st)
         = Ok (cur, est, st') /\
       sample_pagerank g d n st
         = (_ <- checkProbabilityDictionary est ;; Ok (est, st')) /\
       incl (keys est) (keys g)) /\
    (forall fuel e, iterate_pagerank g d fuel <> Some (Raise e)).
Proof.
  intros (f & c & Hf & Hh) Hd0 Hd1 Hn Hu.
  set (g := crawled findall directory).
  pose proof (crawled_wf findall directory) as Hwf.
  pose proof (crawled_links_wf findall directory) as Hlw.
  pose proof (crawled_links_closed findall directory) as Hlc.
  fold g in Hwf, Hlw, Hlc.
  assert (Hg : g <> []).
  { assert (Hk : In f (keys g)).
    { unfold g. rewrite keys_crawled. unfold crawl_extract.
      apply extract_keys_complete. right. eauto. }
    intros E. rewrite E in Hk. destruct Hk. }
  exists g. split; [apply crawl_Ok |]. split; [| split].
  - intros page Hpage.
    destruct (current_page_links g page Hwf Hlw Hlc Hpage)
      as (linkedPages & Hget & Hnd & Hincl).
    exists (transition_dict g linkedPages d). split.
    + apply transition_model_total; auto; lra.
    + apply transition_dict_valid; auto; lra.
  - destruct (sample_pagerank_to_validator g d n st Hwf Hlw Hlc Hg Hd0 Hd1 Hn Hu)
      as (first & cur & est & Hch & Hloop & Hs & _ & _ & Hincl & _).
    exists first, cur, est, (advance (3 * Z.to_nat (n - 1) + 1) st).
    repeat (split; [assumption |]). exact Hincl.
  - intros fuel e. unfold iterate_pagerank. rewrite (init_ranks_Ok g Hwf).
    apply while_loop_no_exception;
      [exact Hwf | apply incoming_index_sound | apply covers_init].
Qed.

Lemma crawl_feeds_estimators_witness :
  exists g,
    crawl (fun contents => [contents])
      [("1.html", "2.html"); ("2.html", "1.html"); ("notes.txt", "1.html")]%string
      = Ok g /\
    (forall page, In page (keys g) ->
       exists tm, transition_model g page (85 # 100) = Ok tm /\
                  valid_distribution tm) /\
    (exists first cur est st',
       choice (keys g) three_draws = Ok (first, advance 1 three_draws) /\
       for_each (range1 2) (fun _ s => sample_step g (85 # 100) 2 s)
         (first, dict_set first (1 / inject_Z 2) [], advance 1 three_draws)
         = Ok (cur, est, st') /\
       sample_pagerank g (85 # 100) 2 three_draws
         = (_ <- checkProbabilityDictionary est ;; Ok (est, st')) /\
       incl (keys est) (keys g)) /\
    (forall fuel e, iterate_pagerank g (85 # 100) fuel <> Some (Raise e)).
Proof.
  apply crawl_feeds_estimators.
  - exists "1.html"%string, "2.html"%string. split; [simpl; auto | reflexivity].
  - reflexivity.
  - reflexivity.
  - discriminate.
  - intros [| i]; simpl; split; (discriminate || reflexivity).
Defined.

(** ** The tolerance of the validator *)

Lemma round_half_even_1000 (x : Q) :
  round_half_even x = 1000%Z <-> (1999 # 2) <= x /\ x <= (2001 # 2).
Proof.
  unfold round_half_even.
  pose proof (Qfloor_le x) as Hlo. pose proof (Qlt_floor x) as Hhi.
  rewrite inject_Z_plus in Hhi. change (inject_Z 1) with 1 in Hhi.
  set (f := Qfloor x) in *.
  assert (Hz : forall a b : Z, inject_Z a < inject_Z b -> (a < b)%Z)
    by (intros a b H; now rewrite Zlt_Qlt).
  destruct (Qcompare_spec (x - inject_Z f) (1 # 2)) as [E | L | G].
  - destruct (Z.even f) eqn:Ev; split.
    + intros ->. change (inject_Z 1000) with 1000 in *. lra.
    + intros [H1 H2].
      assert (H998 : (998 < f)%Z) by (apply Hz; change (inject_Z 998) with 998; lra).
      assert (H1001 : (f < 1001)%Z) by (apply Hz; change (inject_Z 1001) with 1001; lra).
      assert (Hf : f = 999%Z \/ f = 1000%Z) by lia.
      destruct Hf as [Hf | Hf]; [rewrite Hf in Ev; discriminate | exact Hf].
    + intros Hf. assert (Hf' : f = 999%Z) by lia. rewrite Hf' in *.
      change (inject_Z 999) with 999 in *. lra.
    + intros [H1 H2].
      assert (H998 : (998 < f)%Z) by (apply Hz; change (inject_Z 998) with 998; lra).
      assert (H1001 : (f < 1001)%Z) by (apply Hz; change (inject_Z 1001) with 1001; lra).
      assert (Hf : f = 999%Z \/ f = 1000%Z) by lia.
      destruct Hf as [Hf | Hf]; [lia | rewrite Hf in Ev; discriminate].
  - split.
    + intros ->. change (inject_Z 1000) with 1000 in *. lra.
    + intros [H1 H2].
      assert (H999 : (999 < f)%Z) by (apply Hz; change (inject_Z 999) with 999; lra).
      assert (H1001 : (f < 1001)%Z) by (apply Hz; change (inject_Z 1001) with 1001; lra).
      lia.
  - split.
    + intros Hf. assert (Hf' : f = 999%Z) by lia. rewrite Hf' in *.
      change (inject_Z 999) with 999 in *. lra.
    + intros [H1 H2].
      assert (H998 : (998 < f)%Z) by (apply Hz; change (inject_Z 998) with 998; lra).
      assert (H1000 : (f < 1000)%Z) by (apply Hz; change (inject_Z 1000) with 1000; lra).
      lia.
Qed.

Lemma round3_one_iff (s : Q) :
  round3 s == 1 <-> (1999 # 2000) <= s /\ s <= (2001 # 2000).
Proof.
  unfold round3. split.
  - intros H.
    assert (Hz : round_half_even (s * 1000) = 1000%Z).
    { apply inject_Z_injective. change (inject_Z 1000) with 1000.
      set (z := inject_Z (round_half_even (s * 1000))) in *.
      assert (E : z == z / 1000 * 1000) by field.
      rewrite H in E. rewrite E. reflexivity. }
    apply round_half_even_1000 in Hz. lra.
  - intros H.
    assert (Hz : round_half_even (s * 1000) = 1000%Z)
      by (apply round_half_even_1000; lra).
    rewrite Hz. reflexivity.
Qed.

(** X10: once the loop of the validator has passed every value and
    accumulated their sum s, the validator returns True exactly when s lies
    in [0.9995, 1.0005], and raises the exception of the sum test, which
    carries s, otherwise.  (The two ends are ties of the rounding to three
    decimals, which go to the even digit; no binary float equals them.) *)
Theorem checkProbabilityDictionary_window (model : dict Q) (s : Q) :
  for_each model check_entry 0 = Ok s ->
  (checkProbabilityDictionary model = Ok true <->
   (9995 # 10000) <= s /\ s <= (10005 # 10000)) /\
  (~ ((9995 # 10000) <= s /\ s <= (10005 # 10000)) ->
   checkProbabilityDictionary model = Raise (Exception (SumProbability s))).
Proof.
  intros Hs. unfold checkProbabilityDictionary. rewrite Hs. cbn [bind].
  destruct (Qeq_bool (round3 s) 1) eqn:E; cbn [negb].
  - apply Qeq_bool_iff, round3_one_iff in E. split.
    + split; [intros _; lra | reflexivity].
    + intros H. exfalso. apply H. lra.
  - assert (Hn : ~ ((1999 # 2000) <= s /\ s <= (2001 # 2000))).
    { intros H. apply round3_one_iff, Qeq_bool_iff in H. congruence. }
    split.
    + split; [discriminate |]. intros H. exfalso. apply Hn. lra.
    + reflexivity.
Qed.

Lemma checkProbabilityDictionary_window_witness :
  (checkProbabilityDictionary [("1.html"%string, 1 # 2); ("2.html"%string, 1 # 2)]
   = Ok true <->
   (9995 # 10000) <= 0 + (1 # 2) + (1 # 2) /\
   0 + (1 # 2) + (1 # 2) <= (10005 # 10000)) /\
  (~ ((9995 # 10000) <= 0 + (1 # 2) + (1 # 2) /\
      0 + (1 # 2) + (1 # 2) <= (10005 # 10000)) ->
   checkProbabilityDictionary [("1.html"%string, 1 # 2); ("2.html"%string, 1 # 2)]
   = Raise (Exception (SumProbability (0 + (1 # 2) + (1 # 2))))).
Proof.
  apply (checkProbabilityDictionary_window
           [("1.html"%string, 1 # 2); ("2.html"%string, 1 # 2)]
           (0 + (1 # 2) + (1 # 2))).
  reflexivity.
Defined.

(** ** iterate_pagerank on a graph without links *)

Lemma incoming_index_no_links (items : graph) (incomingPages : dict (list Page)) :
  (forall q ls, In (q, ls) items -> ls = []) ->
  fold_left
    (fun inc kv => fold_left (record_incoming (fst kv)) (snd kv) inc)
    items incomingPages
  = incomingPages.
Proof.
  revert incomingPages; induction items as [| [q ls] items IH];
    intros incomingPages H; [reflexivity |].
  cbn [fold_left fst snd]. rewrite (H q ls (or_introl eq_refl)). cbn [fold_left].
  apply IH. intros q' ls' Hin. apply (H q' ls'). now right.
Qed.

Lemma update_pages_empty_index (corpus : graph) (d : Q) (l : list Page)
    (s : dict Q * Q) :
  corpus <> [] ->
  for_each l (update_page corpus d []) s = Ok s.
Proof.
  intros Hc. induction l as [| p l IH]; [reflexivity |].
  cbn [for_each]. destruct s as [ranks change]. unfold update_page at 1.
  rewrite py_div_Ok by (now apply len_nonzero). cbn [bind dict_get]. exact IH.
Qed.

(** X12: on a graph in which no page has a link, [iterate_pagerank] stops
    after its first round, whatever the damping factor, and returns the
    initial rank 1/N for every page. *)
Theorem iterate_pagerank_no_links (corpus : graph) (d : Q) (fuel : nat) :
  dict_wf corpus -> (forall q ls, In (q, ls) corpus -> ls = []) ->
  iterate_pagerank corpus d (S fuel)
  = Some (Ok (fill (1 / len corpus) (keys corpus))).
Proof.
  intros Hwf Hno. unfold iterate_pagerank. rewrite (init_ranks_Ok corpus Hwf).
  unfold incoming_index. rewrite (incoming_index_no_links corpus [] Hno).
  cbn [while_loop]. change (Qgt_bool 1 (1 / 1000)) with true. cbv iota.
  unfold round. destruct corpus as [| kv corpus'].
  - destruct fuel; reflexivity.
  - rewrite update_pages_empty_index by discriminate.
    destruct fuel; reflexivity.
Qed.

Lemma iterate_pagerank_no_links_witness :
  iterate_pagerank [("1.html", []); ("2.html", [])]%string (85 # 100) 1
  = Some (Ok [("1.html"%string, 1 / 2); ("2.html"%string, 1 / 2)]).
Proof.
  apply (iterate_pagerank_no_links [("1.html", []); ("2.html", [])]%string
           (85 # 100) 0).
  - unfold dict_wf; simpl. repeat constructor; simpl; intuition discriminate.
  - intros q ls [E | [E | []]]; now injection E as _ <-.
Defined.

(** ** Sums *)

Lemma Qsum_app (l1 l2 : list Q) : Qsum (l1 ++ l2) == Qsum l1 + Qsum l2.
Proof.
  induction l1 as [| x l1 IH]; simpl; [ring | rewrite IH; ring].
Qed.

Lemma Qsum_map_ext {A : Type} (f g : A -> Q) (l : list A) :
  (forall x, In x l -> f x == g x) -> Qsum (map f l) == Qsum (map g l).
Proof.
  induction l as [| x l IH]; intros H; simpl; [reflexivity |].
  rewrite (H x (or_introl eq_refl)), IH; [reflexivity |].
  intros y Hy. apply H. now right.
Qed.

Lemma Qsum_map_le {A : Type} (f g : A -> Q) (l : list A) :
  (forall x, In x l -> f x <= g x) -> Qsum (map f l) <= Qsum (map g l).
Proof.
  induction l as [| x l IH]; intros H; simpl; [lra |].
  pose proof (H x (or_introl eq_refl)).
  assert (Qsum (map f l) <= Qsum (map g l)) by (apply IH; intros y Hy; apply H; now right).
  lra.
Qed.

Lemma Qsum_map_nonneg {A : Type} (f : A -> Q) (l : list A) :
  (forall x, In x l -> 0 <= f x) -> 0 <= Qsum (map f l).
Proof.
  induction l as [| x l IH]; intros H; simpl; [lra |].
  pose proof (H x (or_introl eq_refl)).
  assert (0 <= Qsum (map f l)) by (apply IH; intros y Hy; apply H; now right).
  lra.
Qed.

Lemma Qsum_map_scale {A : Type} (a : Q) (f : A -> Q) (l : list A) :
  Qsum (map (fun x => a * f x) l) == a * Qsum (map f l).
Proof.
  induction l as [| x l IH]; simpl; [ring | rewrite IH; ring].
Qed.

Lemma Qsum_map_minus {A : Type} (f g : A -> Q) (l : list A) :
  Qsum (map (fun x => f x - g x) l) == Qsum (map f l) - Qsum (map g l).
Proof.
  induction l as [| x l IH]; simpl; [ring | rewrite IH; ring].
Qed.

Lemma Qabs_Qsum {A : Type} (f : A -> Q) (l : list A) :
  Qabs (Qsum (map f l)) <= Qsum (map (fun x => Qabs (f x)) l).
Proof.
  induction l as [| x l IH]; simpl.
  - apply Qle_refl.
  - eapply Qle_trans; [apply Qabs_triangle |]. lra.
Qed.

(** ** Shares *)

Lemma share_nonneg (corpus : graph) (i q : Page) : 0 <= share corpus i q.
Proof.
  unfold share. destruct (dict_get q corpus) as [ls |]; [| lra].
  destruct (in_dec string_dec i ls) as [Hin | _]; [| lra].
  assert (Hne : ls <> []) by (intros ->; destruct Hin).
  apply len_ge_1 in Hne. apply Qle_shift_div_l; lra.
Qed.

Lemma Qsum_indicator (P : Page -> bool) (x : Q) (l : list Page) :
  Qsum (map (fun i => if P i then x else 0) l) == len (filter P l) * x.
Proof.
  induction l as [| i l IH]; simpl.
  - unfold len; simpl. ring.
  - destruct (P i); rewrite IH; [rewrite len_cons |]; ring.
Qed.

Lemma len_le {A : Type} (l1 l2 : list A) :
  (List.length l1 <= List.length l2)%nat -> len l1 <= len l2.
Proof.
  intros H. unfold len. rewrite <- Zle_Qle. lia.
Qed.

(** A page sends at most the whole of its rank: its shares to the pages of
    a list without repetition sum to at most 1. *)
Lemma share_column (corpus : graph) (q : Page) (l : list Page) :
  NoDup l -> Qsum (map (fun i => share corpus i q) l) <= 1.
Proof.
  intros Hnd. unfold share.
  destruct (dict_get q corpus) as [ls |].
  - rewrite (Qsum_map_ext _
               (fun i => if (if in_dec string_dec i ls then true else false)
                         then 1 / len ls else 0)).
    2:{ intros i _. destruct (in_dec string_dec i ls); reflexivity. }
    rewrite Qsum_indicator.
    match goal with |- len (filter ?P0 l) * _ <= _ => set (P := P0) end.
    assert (Hlen : len (filter P l) <= len ls).
    { apply len_le, NoDup_incl_length; [now apply NoDup_filter |].
      intros i Hi. apply filter_In in Hi as [_ Hi]. unfold P in Hi.
      destruct (in_dec string_dec i ls); [assumption | discriminate]. }
    pose proof (len_nonneg (filter P l)) as HF.
    set (F := len (filter P l)) in *. clearbody F. clear P.
    destruct ls as [| l0 ls'].
    + change (1 / len (@nil Page)) with 0. lra.
    + assert (HL : 1 <= len (l0 :: ls')) by (apply len_ge_1; discriminate).
      set (L := len (l0 :: ls')) in *.
      assert (E : F * (1 / L) == F / L) by (field; lra).
      rewrite E. apply Qle_shift_div_r; lra.
  - rewrite (Qsum_map_ext _ (fun _ => 0 * 0)) by (intros; ring).
    rewrite Qsum_map_scale. lra.
Qed.

(** The sum of the recurrence, over the pages linking to [i], is the sum of
    the shares over all the pages. *)
Lemma linkers_cons (q : Page) (ls : list Page) (items : graph) (i : Page) :
  linkers ((q, ls) :: items) i
  = if in_dec string_dec i ls then q :: linkers items i else linkers items i.
Proof.
  unfold linkers. cbn [filter]. unfold links_to_b at 1. cbn [snd].
  destruct (in_dec string_dec i ls); reflexivity.
Qed.

Lemma linkers_sum (corpus items : graph) (c : Page -> Q) (i : Page) :
  (forall kv, In kv items -> dict_get (fst kv) corpus = Some (snd kv)) ->
  Qsum (map (fun q => c q / out_degree corpus q) (linkers items i))
  == Qsum (map (fun q => share corpus i q * c q) (keys items)).
Proof.
  induction items as [| [q ls] items IH]; intros H; [reflexivity |].
  assert (Hq : dict_get q corpus = Some ls) by (apply (H (q, ls)); now left).
  assert (IH' : Qsum (map (fun q => c q / out_degree corpus q) (linkers items i))
                == Qsum (map (fun q => share corpus i q * c q) (keys items))).
  { apply IH. intros kv Hkv. apply H. now right. }
  rewrite linkers_cons.
  change (keys ((q, ls) :: items)) with (q :: keys items).
  assert (Hs : share corpus i q
               = if in_dec string_dec i ls then 1 / len ls else 0).
  { unfold share. now rewrite Hq. }
  assert (Ho : out_degree corpus q = len ls).
  { unfold out_degree. now rewrite Hq. }
  destruct (in_dec string_dec i ls).
  - cbn [map Qsum fold_right].
    change (fold_right Qplus 0 ?l) with (Qsum l).
    rewrite IH', Hs, Ho. unfold Qdiv. ring.
  - cbn [map Qsum fold_right].
    change (fold_right Qplus 0 ?l) with (Qsum l).
    rewrite IH', Hs. ring.
Qed.

Lemma recurrence_inflow (corpus : graph) (d : Q) (ranks : dict Q) (i : Page) :
  dict_wf corpus ->
  recurrence corpus d ranks i
  == (1 - d) / len corpus + d * inflow corpus (rank_of ranks) i.
Proof.
  intros Hwf. unfold recurrence, inflow.
  rewrite (linkers_sum corpus corpus (rank_of ranks) i); [reflexivity |].
  intros [q ls] Hin. now apply In_dict_get.
Qed.

(** ** One step of the loop, on ranks read as numbers *)

Lemma rank_of_set_eq (i : Page) (v : Q) (y : dict Q) :
  rank_of (dict_set i v y) i = v.
Proof. unfold rank_of. now rewrite dict_get_set_eq. Qed.

Lemma rank_of_set_neq (i q : Page) (v : Q) (y : dict Q) :
  q <> i -> rank_of (dict_set i v y) q = rank_of y q.
Proof.
  intros H. unfold rank_of. rewrite dict_get_set_neq; [reflexivity |].
  intros E. apply H. now symmetry.
Qed.

Lemma update_page_step (corpus : graph) (d : Q) (i : Page) (y : dict Q) (a : Q) :
  dict_wf corpus -> links_wf corpus -> covers corpus y -> In i (keys corpus) ->
  exists y' a',
    update_page corpus d (incoming_index corpus) i (y, a) = Ok (y', a') /\
    covers corpus y' /\
    (forall q, q <> i -> rank_of y' q = rank_of y q) /\
    a' == a + gap y y' i /\
    (linkers corpus i = [] -> rank_of y' i = rank_of y i) /\
    (linkers corpus i <> [] ->
     rank_of y' i == (1 - d) / len corpus + d * inflow corpus (rank_of y) i).
Proof.
  intros Hwf Hlw Hcov Hi.
  destruct (linkers corpus i) as [| q0 qs] eqn:El.
  - exists y, a. split; [| split; [exact Hcov | split; [reflexivity |]]].
    + unfold update_page.
      assert (Hc : corpus <> []) by (intros ->; destruct Hi).
      rewrite py_div_Ok by (now apply len_nonzero). cbn [bind].
      rewrite (incoming_index_get corpus i Hlw), El. reflexivity.
    + split; [| split; [reflexivity | congruence]].
      unfold gap. setoid_replace (rank_of y i - rank_of y i) with 0 by ring.
      simpl. ring.
  - destruct (update_page_linked corpus d i y a Hwf Hlw Hcov Hi) as (v & Hv & Ev);
      [congruence |].
    exists (dict_set i v y), (a + Qabs (rank_of y i - v)).
    split; [exact Hv |]. split; [now apply covers_set |].
    split; [intros q Hq; now apply rank_of_set_neq |].
    split; [unfold gap; rewrite rank_of_set_eq; reflexivity |].
    split; [discriminate |].
    intros _. rewrite rank_of_set_eq, Ev. now apply recurrence_inflow.
Qed.

Lemma gap_nonneg (y z : dict Q) (q : Page) : 0 <= gap y z q.
Proof. apply Qabs_nonneg. Qed.

Lemma inflow_nonneg (corpus : graph) (c : Page -> Q) (i : Page) :
  (forall q, 0 <= c q) -> 0 <= inflow corpus c i.
Proof.
  intros Hc. unfold inflow. apply Qsum_map_nonneg. intros q _.
  apply Qmult_le_0_compat; [apply share_nonneg | apply Hc].
Qed.

(** Two runs of the step, side by side: the new gap at [i] is at most d
    times the inflow of the old gaps. *)
Lemma inflow_gap (corpus : graph) (y z : dict Q) (i : Page) :
  Qabs (inflow corpus (rank_of y) i - inflow corpus (rank_of z) i)
  <= inflow corpus (gap y z) i.
Proof.
  unfold inflow. rewrite <- Qsum_map_minus.
  eapply Qle_trans; [apply Qabs_Qsum |].
  apply Qsum_map_le. intros q _. cbv beta.
  setoid_replace (share corpus i q * rank_of y q - share corpus i q * rank_of z q)
    with (share corpus i q * (rank_of y q - rank_of z q)) by ring.
  rewrite Qabs_Qmult, (Qabs_pos (share corpus i q)) by apply share_nonneg.
  apply Qle_refl.
Qed.

Lemma gap_step (corpus : graph) (d : Q) (i : Page) (y z y' z' : dict Q) :
  0 <= d ->
  (linkers corpus i = [] -> rank_of y' i = rank_of y i) ->
  (linkers corpus i = [] -> rank_of z' i = rank_of z i) ->
  (linkers corpus i <> [] ->
   rank_of y' i == (1 - d) / len corpus + d * inflow corpus (rank_of y) i) ->
  (linkers corpus i <> [] ->
   rank_of z' i == (1 - d) / len corpus + d * inflow corpus (rank_of z) i) ->
  (linkers corpus i = [] -> gap y z i == 0) ->
  gap y' z' i <= d * inflow corpus (gap y z) i.
Proof.
  intros Hd Hy0 Hz0 Hy1 Hz1 Hzero.
  pose proof (inflow_nonneg corpus (gap y z) i (gap_nonneg y z)) as Hin.
  destruct (linkers corpus i) as [| q0 qs] eqn:El.
  - unfold gap at 1. rewrite (Hy0 eq_refl), (Hz0 eq_refl).
    fold (gap y z i). rewrite (Hzero eq_refl). nra.
  - unfold gap at 1.
    rewrite (Hy1 ltac:(discriminate)), (Hz1 ltac:(discriminate)).
    setoid_replace ((1 - d) / len corpus + d * inflow corpus (rank_of y) i
                    - ((1 - d) / len corpus + d * inflow corpus (rank_of z) i))
      with (d * (inflow corpus (rank_of y) i - inflow corpus (rank_of z) i))
      by ring.
    rewrite Qabs_Qmult, (Qabs_pos d) by exact Hd.
    pose proof (inflow_gap corpus y z i). nra.
Qed.

(** ** Weights *)

Lemma wsweep_notin (corpus : graph) (d : Q) (l : list Page) (u : Page -> Q)
    (q : Page) :
  ~ In q l ->
  wsweep corpus d l u q == u q - d * Qsum (map (fun i => share corpus i q) l).
Proof.
  revert u; induction l as [| i l IH]; intros u Hq.
  - simpl. ring.
  - change (wsweep corpus d (i :: l) u) with (wsweep corpus d l (wstep corpus d i u)).
    rewrite IH by (intros H; apply Hq; now right).
    unfold wstep. destruct (string_dec q i) as [-> | _];
      [exfalso; apply Hq; now left |].
    simpl. ring.
Qed.

Lemma wsweep_in (corpus : graph) (d : Q) (l1 l2 : list Page) (u : Page -> Q)
    (q : Page) :
  ~ In q l2 ->
  wsweep corpus d (l1 ++ q :: l2) u q
  == 1 - d * Qsum (map (fun i => share corpus i q) l2).
Proof.
  intros Hq. unfold wsweep. rewrite fold_left_app. cbn [fold_left].
  fold (wsweep corpus d l1 u).
  fold (wsweep corpus d l2 (wstep corpus d q (wsweep corpus d l1 u))).
  rewrite wsweep_notin by exact Hq. unfold wstep.
  destruct (string_dec q q); [reflexivity | congruence].
Qed.

Lemma shares_nonneg (corpus : graph) (q : Page) (l : list Page) :
  0 <= Qsum (map (fun i => share corpus i q) l).
Proof. apply Qsum_map_nonneg. intros i _. apply share_nonneg. Qed.

Lemma weight_bounds (corpus : graph) (d : Q) (q : Page) :
  dict_wf corpus -> 0 <= d -> d <= 1 -> In q (keys corpus) ->
  1 - d <= weight corpus d q /\ weight corpus d q <= 1.
Proof.
  intros Hwf Hd0 Hd1 Hq. unfold weight.
  destruct (in_split _ _ Hq) as (l1 & l2 & E).
  assert (Hnd : NoDup (l1 ++ q :: l2)) by (rewrite <- E; exact Hwf).
  assert (Hq2 : ~ In q l2).
  { apply NoDup_remove_2 in Hnd. intros H. apply Hnd, in_app_iff. now right. }
  rewrite E, wsweep_in by exact Hq2.
  pose proof (shares_nonneg corpus q l2).
  assert (Qsum (map (fun i => share corpus i q) l2) <= 1).
  { apply share_column. apply NoDup_remove_1 in Hnd.
    now apply NoDup_app_remove_l in Hnd. }
  split; nra.
Qed.

Lemma wsum_app (u c : Page -> Q) (l1 l2 : list Page) :
  wsum u c (l1 ++ l2) == wsum u c l1 + wsum u c l2.
Proof. unfold wsum. rewrite map_app. apply Qsum_app. Qed.

(** Visiting [i] does not raise the weighted sum of the gaps. *)
Lemma potential_step (corpus : graph) (d : Q) (i : Page) (u c c' : Page -> Q) :
  dict_wf corpus -> In i (keys corpus) -> 0 <= d ->
  (forall q, 0 <= c q) ->
  (forall q, q <> i -> c' q == c q) ->
  c' i <= d * inflow corpus c i ->
  d * share corpus i i <= u i ->
  wsum (wstep corpus d i u) c' (keys corpus) <= wsum u c (keys corpus).
Proof.
  intros Hwf Hi Hd Hc Hsame Hnew Hu.
  destruct (in_split _ _ Hi) as (l1 & l2 & E).
  assert (Hnd : NoDup (l1 ++ i :: l2)) by (rewrite <- E; exact Hwf).
  assert (Hi1 : ~ In i l1).
  { apply NoDup_remove_2 in Hnd. intros H. apply Hnd, in_app_iff. now left. }
  assert (Hi2 : ~ In i l2).
  { apply NoDup_remove_2 in Hnd. intros H. apply Hnd, in_app_iff. now right. }
  assert (Hpart : forall l, ~ In i l ->
            wsum (wstep corpus d i u) c' l
            == wsum u c l - d * Qsum (map (fun q => share corpus i q * c q) l)).
  { intros l Hl. unfold wsum. rewrite <- Qsum_map_scale, <- Qsum_map_minus.
    apply Qsum_map_ext. intros q Hq. unfold wstep.
    destruct (string_dec q i) as [-> | Hne]; [contradiction |].
    rewrite (Hsame q Hne). ring. }
  unfold inflow in Hnew. rewrite E in *.
  change (l1 ++ i :: l2) with (l1 ++ [i] ++ l2) in *.
  rewrite !wsum_app, (Hpart l1 Hi1), (Hpart l2 Hi2).
  rewrite !map_app, !Qsum_app in Hnew.
  unfold wsum at 2 5. cbn [map Qsum fold_right] in *.
  unfold wstep at 1. destruct (string_dec i i) as [_ | Hn]; [| congruence].
  pose proof (Hc i) as Hci.
  set (S1 := Qsum (map (fun q => share corpus i q * c q) l1)) in *.
  set (S2 := Qsum (map (fun q => share corpus i q * c q) l2)) in *.
  nra.
Qed.

(** ** A round, on two mappings side by side *)

Lemma weight_side (corpus : graph) (d : Q) (P R : list Page) (i : Page) :
  dict_wf corpus -> 0 <= d -> d <= 1 -> keys corpus = P ++ i :: R ->
  d * share corpus i i
  <= wsweep corpus d P (fun q => d * weight corpus d q) i.
Proof.
  intros Hwf Hd0 Hd1 E.
  assert (Hnd : NoDup (P ++ i :: R)) by (rewrite <- E; exact Hwf).
  assert (HiP : ~ In i P).
  { apply NoDup_remove_2 in Hnd. intros H. apply Hnd, in_app_iff. now left. }
  assert (HiR : ~ In i R).
  { apply NoDup_remove_2 in Hnd. intros H. apply Hnd, in_app_iff. now right. }
  rewrite wsweep_notin by exact HiP.
  unfold weight. rewrite E, wsweep_in by exact HiR.
  pose proof (share_column corpus i (P ++ i :: R) Hnd) as Hcol.
  rewrite map_app, Qsum_app in Hcol. cbn [map Qsum fold_right] in Hcol.
  change (fold_right Qplus 0 ?l) with (Qsum l) in Hcol.
  pose proof (shares_nonneg corpus i P). pose proof (shares_nonneg corpus i R).
  pose proof (share_nonneg corpus i i).
  set (SP := Qsum (map (fun j => share corpus j i) P)) in *.
  set (SR := Qsum (map (fun j => share corpus j i) R)) in *.
  set (s := share corpus i i) in *.
  assert (d * SR <= SR) by nra.
  assert (0 <= 1 - d * SR - SP - s) by lra.
  nra.
Qed.

Lemma sweep_potential (corpus : graph) (d : Q) :
  dict_wf corpus -> links_wf corpus -> 0 <= d -> d <= 1 ->
  forall (R P : list Page) (y z : dict Q) (a b : Q) (y' z' : dict Q) (a' b' : Q),
    keys corpus = P ++ R -> covers corpus y -> covers corpus z ->
    (forall q, linkers corpus q = [] -> gap y z q == 0) ->
    for_each R (update_page corpus d (incoming_index corpus)) (y, a) = Ok (y', a') ->
    for_each R (update_page corpus d (incoming_index corpus)) (z, b) = Ok (z', b') ->
    wsum (wsweep corpus d R (wsweep corpus d P (fun q => d * weight corpus d q)))
         (gap y' z') (keys corpus)
    <= wsum (wsweep corpus d P (fun q => d * weight corpus d q))
            (gap y z) (keys corpus).
Proof.
  intros Hwf Hlw Hd0 Hd1.
  induction R as [| i R IH]; intros P y z a b y' z' a' b' E Hy Hz Hzero Hry Hrz.
  - cbn [for_each] in Hry, Hrz. injection Hry as <- _. injection Hrz as <- _.
    apply Qle_refl.
  - assert (Hi : In i (keys corpus)) by (rewrite E; apply in_app_iff; simpl; auto).
    destruct (update_page_step corpus d i y a Hwf Hlw Hy Hi)
      as (y1 & a1 & Hy1 & Hcy1 & Hy_other & _ & Hy_none & Hy_some).
    destruct (update_page_step corpus d i z b Hwf Hlw Hz Hi)
      as (z1 & b1 & Hz1 & Hcz1 & Hz_other & _ & Hz_none & Hz_some).
    cbn [for_each] in Hry, Hrz. rewrite Hy1 in Hry. rewrite Hz1 in Hrz.
    cbn [bind] in Hry, Hrz.
    assert (Hother : forall q, q <> i -> gap y1 z1 q = gap y z q).
    { intros q Hq. unfold gap. now rewrite (Hy_other q Hq), (Hz_other q Hq). }
    assert (Hstep : wsum (wstep corpus d i
                            (wsweep corpus d P (fun q => d * weight corpus d q)))
                         (gap y1 z1) (keys corpus)
                    <= wsum (wsweep corpus d P (fun q => d * weight corpus d q))
                            (gap y z) (keys corpus)).
    { apply potential_step; try assumption.
      - apply gap_nonneg.
      - intros q Hq. rewrite (Hother q Hq). reflexivity.
      - apply gap_step; auto.
      - now apply (weight_side corpus d P R i). }
    eapply Qle_trans; [| exact Hstep].
    change (wsweep corpus d (i :: R)
              (wsweep corpus d P (fun q => d * weight corpus d q)))
      with (wsweep corpus d R
              (wstep corpus d i
                 (wsweep corpus d P (fun q => d * weight corpus d q)))).
    assert (EP : wstep corpus d i (wsweep corpus d P (fun q => d * weight corpus d q))
                 = wsweep corpus d (P ++ [i]) (fun q => d * weight corpus d q)).
    { unfold wsweep. rewrite fold_left_app. reflexivity. }
    rewrite EP.
    apply (IH (P ++ [i]) y1 z1 a1 b1 y' z' a' b'); try assumption.
    + rewrite E, <- app_assoc. reflexivity.
    + intros q Hq. destruct (string_dec q i) as [-> | Hne].
      * unfold gap. rewrite (Hy_none Hq), (Hz_none Hq). exact (Hzero i Hq).
      * rewrite (Hother q Hne). exact (Hzero q Hq).
Qed.

Lemma wsweep_full (corpus : graph) (d : Q) (u u' : Page -> Q) (q : Page) :
  dict_wf corpus -> In q (keys corpus) ->
  wsweep corpus d (keys corpus) u q == wsweep corpus d (keys corpus) u' q.
Proof.
  intros Hwf Hq. destruct (in_split _ _ Hq) as (l1 & l2 & E).
  assert (Hnd : NoDup (l1 ++ q :: l2)) by (rewrite <- E; exact Hwf).
  assert (Hq2 : ~ In q l2).
  { apply NoDup_remove_2 in Hnd. intros H. apply Hnd, in_app_iff. now right. }
  rewrite E, !wsweep_in by exact Hq2. reflexivity.
Qed.

Lemma round_keeps_unlinked (corpus : graph) (d : Q) (x x1 : dict Q) (c : Q) (q : Page) :
  links_wf corpus ->
  round corpus d (incoming_index corpus) x = Ok (x1, c) ->
  linkers corpus q = [] -> gap x x1 q == 0.
Proof.
  intros Hlw Hr Hq.
  assert (Hnone : dict_get q (incoming_index corpus) = None).
  { rewrite (incoming_index_get corpus q Hlw), Hq. reflexivity. }
  unfold gap, rank_of.
  rewrite (update_pages_keep _ _ _ _ _ _ _ _ _ Hnone Hr).
  setoid_replace (match dict_get q x with Some r => r | None => 0 end
                  - match dict_get q x with Some r => r | None => 0 end)
    with 0 by ring.
  reflexivity.
Qed.

Lemma round_covers (corpus : graph) (d : Q) (x x1 : dict Q) (c : Q) :
  dict_wf corpus -> covers corpus x ->
  round corpus d (incoming_index corpus) x = Ok (x1, c) -> covers corpus x1.
Proof.
  intros Hwf Hx Hr.
  destruct (round_Ok corpus d (incoming_index corpus) x Hwf
              (incoming_index_sound corpus) Hx) as (r' & c' & Hr' & Hc).
  rewrite Hr in Hr'. injection Hr' as <- _. exact Hc.
Qed.

(** Each round brings consecutive mappings closer by the factor d, in the
    weighted distance. *)
Lemma round_contracts (corpus : graph) (d : Q) (x x1 x2 : dict Q) (c1 c2 : Q) :
  dict_wf corpus -> links_wf corpus -> 0 <= d -> d <= 1 -> covers corpus x ->
  round corpus d (incoming_index corpus) x = Ok (x1, c1) ->
  round corpus d (incoming_index corpus) x1 = Ok (x2, c2) ->
  distance corpus d x1 x2 <= d * distance corpus d x x1.
Proof.
  intros Hwf Hlw Hd0 Hd1 Hx H1 H2.
  pose proof (round_covers corpus d x x1 c1 Hwf Hx H1) as Hx1.
  pose proof (sweep_potential corpus d Hwf Hlw Hd0 Hd1 (keys corpus) []
                x x1 0 0 x1 x2 c1 c2 eq_refl Hx Hx1
                (fun q => round_keeps_unlinked corpus d x x1 c1 q Hlw H1) H1 H2)
    as Hpot.
  cbn [wsweep fold_left] in Hpot.
  fold (wsweep corpus d (keys corpus) (fun q => d * weight corpus d q)) in Hpot.
  unfold distance.
  assert (EL : wsum (weight corpus d) (gap x1 x2) (keys corpus)
               == wsum (wsweep corpus d (keys corpus)
                          (fun q => d * weight corpus d q))
                       (gap x1 x2) (keys corpus)).
  { unfold wsum. apply Qsum_map_ext. intros q Hq. unfold weight.
    rewrite (wsweep_full corpus d (fun _ => 1) (fun q => d * weight corpus d q) q Hwf Hq).
    reflexivity. }
  assert (ER : wsum (fun q => d * weight corpus d q) (gap x x1) (keys corpus)
               == d * wsum (weight corpus d) (gap x x1) (keys corpus)).
  { unfold wsum. rewrite <- Qsum_map_scale. apply Qsum_map_ext.
    intros q _. ring. }
  rewrite EL, <- ER. exact Hpot.
Qed.

(** ** The change a round reports *)

Lemma sweep_change (corpus : graph) (d : Q) :
  dict_wf corpus -> links_wf corpus ->
  forall (l : list Page) (y : dict Q) (a : Q) (y' : dict Q) (a' : Q),
    NoDup l -> incl l (keys corpus) -> covers corpus y ->
    for_each l (update_page corpus d (incoming_index corpus)) (y, a) = Ok (y', a') ->
    a' == a + Qsum (map (gap y y') l) /\
    (forall q, ~ In q l -> rank_of y' q = rank_of y q).
Proof.
  intros Hwf Hlw.
  induction l as [| i l IH]; intros y a y' a' Hnd Hincl Hy Hr.
  - cbn [for_each] in Hr. injection Hr as <- <-. split; [simpl; ring | reflexivity].
  - inversion Hnd as [| ? ? Hi Hnd']; subst.
    destruct (update_page_step corpus d i y a Hwf Hlw Hy (Hincl i (or_introl eq_refl)))
      as (y1 & a1 & Hy1 & Hcy1 & Hother & Ha1 & _ & _).
    cbn [for_each] in Hr. rewrite Hy1 in Hr. cbn [bind] in Hr.
    destruct (IH y1 a1 y' a' Hnd' (fun q Hq => Hincl q (or_intror Hq)) Hcy1 Hr)
      as [Ha' Hrest].
    split.
    + rewrite Ha', Ha1. cbn [map Qsum fold_right].
      change (fold_right Qplus 0 ?l0) with (Qsum l0).
      assert (Ei : gap y y' i = gap y y1 i).
      { unfold gap. now rewrite (Hrest i Hi). }
      assert (El : Qsum (map (gap y1 y') l) == Qsum (map (gap y y') l)).
      { apply Qsum_map_ext. intros q Hq. unfold gap.
        rewrite (Hother q); [reflexivity |]. intros ->. contradiction. }
      rewrite Ei, El. ring.
    + intros q Hq. rewrite (Hrest q (fun H => Hq (or_intror H))).
      apply Hother. intros ->. apply Hq. now left.
Qed.

Lemma round_change (corpus : graph) (d : Q) (x x1 : dict Q) (c : Q) :
  dict_wf corpus -> links_wf corpus -> covers corpus x ->
  round corpus d (incoming_index corpus) x = Ok (x1, c) ->
  c == Qsum (map (gap x x1) (keys corpus)).
Proof.
  intros Hwf Hlw Hx Hr.
  destruct (sweep_change corpus d Hwf Hlw (keys corpus) x 0 x1 c Hwf
              (incl_refl _) Hx Hr) as [Hc _].
  rewrite Hc. ring.
Qed.

Lemma change_le_distance (corpus : graph) (d : Q) (y z : dict Q) :
  dict_wf corpus -> 0 <= d -> d <= 1 ->
  (1 - d) * Qsum (map (gap y z) (keys corpus)) <= distance corpus d y z.
Proof.
  intros Hwf Hd0 Hd1. unfold distance, wsum. rewrite <- Qsum_map_scale.
  apply Qsum_map_le. intros q Hq.
  destruct (weight_bounds corpus d q Hwf Hd0 Hd1 Hq) as [Hw _].
  pose proof (gap_nonneg y z q). nra.
Qed.

(** ** iterate_pagerank returns *)

Lemma while_loop_stop (fuel : nat) (corpus : graph) (d : Q)
    (incomingPages : dict (list Page)) (ranks : dict Q) (change : Q) :
  change <= 1 / 1000 ->
  while_loop fuel corpus d incomingPages ranks change = Some (Ok ranks).
Proof.
  intros H.
  assert (E : Qgt_bool change (1 / 1000) = false).
  { unfold Qgt_bool. apply Qle_bool_iff in H. now rewrite H. }
  destruct fuel; simpl; now rewrite E.
Qed.

Lemma while_loop_terminates (corpus : graph) (d : Q) :
  dict_wf corpus -> links_wf corpus -> 0 <= d -> d < 1 ->
  forall (r : nat) (t : Q) (prev ranks : dict Q) (change : Q),
    covers corpus prev ->
    round corpus d (incoming_index corpus) prev = Ok (ranks, change) ->
    distance corpus d prev ranks <= t ->
    rounds_enough d r t ->
    exists result,
      forall fuel, (r <= fuel)%nat ->
        while_loop fuel corpus d (incoming_index corpus) ranks change
        = Some (Ok result).
Proof.
  intros Hwf Hlw Hd0 Hd1.
  induction r as [| r IH]; intros t prev ranks change Hprev Hr Ht Hen.
  - destruct Hen as [Hen | []].
    exists ranks. intros fuel _. apply while_loop_stop.
    pose proof (change_le_distance corpus d prev ranks Hwf Hd0 (Qlt_le_weak _ _ Hd1)).
    rewrite <- (round_change corpus d prev ranks change Hwf Hlw Hprev Hr) in H.
    nra.
  - destruct (Qlt_le_dec (1 / 1000) change) as [Hgt | Hle].
    2:{ exists ranks. intros fuel _. now apply while_loop_stop. }
    destruct Hen as [Hen | Hen].
    { exfalso.
      pose proof (change_le_distance corpus d prev ranks Hwf Hd0 (Qlt_le_weak _ _ Hd1)).
      rewrite <- (round_change corpus d prev ranks change Hwf Hlw Hprev Hr) in H.
      nra. }
    pose proof (round_covers corpus d prev ranks change Hwf Hprev Hr) as Hranks.
    destruct (round_Ok corpus d (incoming_index corpus) ranks Hwf
                (incoming_index_sound corpus) Hranks) as (x2 & c2 & Hr2 & _).
    destruct (IH (d * t) ranks x2 c2 Hranks Hr2) as [result Hres].
    + pose proof (round_contracts corpus d prev ranks x2 change c2 Hwf Hlw Hd0
                    (Qlt_le_weak _ _ Hd1) Hprev Hr Hr2).
      nra.
    + exact Hen.
    + exists result. intros fuel Hfuel.
      destruct fuel as [| fuel]; [lia |].
      cbn [while_loop].
      assert (E : Qgt_bool change (1 / 1000) = true).
      { unfold Qgt_bool. destruct (Qle_bool change (1 / 1000)) eqn:Eb; [| reflexivity].
        apply Qle_bool_iff in Eb. lra. }
      rewrite E, Hr2. apply Hres. lia.
Qed.

Lemma rounds_enough_bound (d : Q) (r : nat) (t : Q) :
  0 <= d -> d < 1 ->
  t <= (1 - d) * (1 / 1000) * (1 + inject_Z (Z.of_nat r) * (1 - d)) ->
  rounds_enough d r t.
Proof.
  intros Hd0 Hd1. revert t. induction r as [| r IH]; intros t Ht.
  - left. change (inject_Z (Z.of_nat 0)) with 0 in Ht. lra.
  - right. apply IH.
    rewrite Nat2Z.inj_succ, <- Z.add_1_l, inject_Z_plus in Ht.
    change (inject_Z 1) with 1 in Ht.
    assert (Hrho : 0 <= inject_Z (Z.of_nat r)).
    { change 0 with (inject_Z 0). rewrite <- Zle_Qle. lia. }
    set (rho := inject_Z (Z.of_nat r)) in *.
    assert (Hdt : d * t <= d * ((1 - d) * (1 / 1000) * (1 + (1 + rho) * (1 - d))))
      by nra.
    assert (Hkey : d * ((1 - d) * (1 / 1000) * (1 + (1 + rho) * (1 - d)))
                   <= (1 - d) * (1 / 1000) * (1 + rho * (1 - d))).
    { assert (E : (1 - d) * (1 / 1000) * (1 + rho * (1 - d))
                  - d * ((1 - d) * (1 / 1000) * (1 + (1 + rho) * (1 - d)))
                  == (1 / 1000) * ((1 - d) * (1 - d) * (1 - d)) * (1 + rho))
        by ring.
      assert (0 <= (1 - d) * (1 - d) * (1 - d)).
      { apply Qmult_le_0_compat; [apply Qmult_le_0_compat |]; lra. }
      assert (0 <= (1 / 1000) * ((1 - d) * (1 - d) * (1 - d)) * (1 + rho)).
      { apply Qmult_le_0_compat; [apply Qmult_le_0_compat |].
        - discriminate.
        - assumption.
        - lra. }
      lra. }
    lra.
Qed.

Lemma Qle_nat_ceiling (x : Q) :
  x <= inject_Z (Z.of_nat (Z.to_nat (Qceiling x))).
Proof.
  eapply Qle_trans; [apply Qle_ceiling |].
  rewrite <- Zle_Qle. lia.
Qed.

Lemma rounds_enough_exists (d t : Q) :
  0 <= d -> d < 1 -> exists r, rounds_enough d r t.
Proof.
  intros Hd0 Hd1.
  set (e := (1 - d) * (1 / 1000) * (1 - d)).
  assert (He : 0 < e).
  { unfold e. apply Qmult_lt_0_compat; [apply Qmult_lt_0_compat |];
      [lra | reflexivity | lra]. }
  exists (Z.to_nat (Qceiling (t / e))).
  apply rounds_enough_bound; try assumption.
  pose proof (Qle_nat_ceiling (t / e)) as Hc.
  set (rho := inject_Z (Z.of_nat (Z.to_nat (Qceiling (t / e))))) in *.
  assert (Ht : t == t / e * e) by (field; lra).
  assert (Hte : t <= rho * e).
  { rewrite Ht. apply Qmult_le_compat_r; lra. }
  unfold e in Hte.
  assert (0 <= (1 - d) * (1 / 1000))
    by (apply Qmult_le_0_compat; [lra | discriminate]).
  lra.
Qed.

(** For every graph and every damping factor in [0,1) the loop ends: from
    some number of rounds on, [iterate_pagerank] returns one and the same
    mapping. *)
Lemma iterate_pagerank_returns (corpus : graph) (d : Q) :
  dict_wf corpus -> links_wf corpus -> 0 <= d -> d < 1 ->
  exists fuel0 ranks,
    forall fuel, (fuel0 <= fuel)%nat ->
      iterate_pagerank corpus d fuel = Some (Ok ranks).
Proof.
  intros Hwf Hlw Hd0 Hd1. unfold iterate_pagerank.
  rewrite (init_ranks_Ok corpus Hwf).
  set (x0 := fill (1 / len corpus) (keys corpus)).
  pose proof (covers_init corpus) as Hx0. fold x0 in Hx0.
  destruct (round_Ok corpus d (incoming_index corpus) x0 Hwf
              (incoming_index_sound corpus) Hx0) as (x1 & c1 & Hr1 & _).
  destruct (rounds_enough_exists d (distance corpus d x0 x1) Hd0 Hd1) as [r Hen].
  destruct (while_loop_terminates corpus d Hwf Hlw Hd0 Hd1 r
              (distance corpus d x0 x1) x0 x1 c1 Hx0 Hr1 (Qle_refl _) Hen)
    as [result Hres].
  exists (S r), result. intros fuel Hfuel.
  destruct fuel as [| fuel]; [lia |].
  cbn [while_loop]. change (Qgt_bool 1 (1 / 1000)) with true. cbv iota.
  rewrite Hr1. apply Hres. lia.
Qed.

(** ** A lower bound on the ranks *)

Lemma ranks_at_least_set (b : Q) (k : Page) (v : Q) (ranks : dict Q) :
  b <= v -> ranks_at_least b ranks -> ranks_at_least b (dict_set k v ranks).
Proof.
  intros Hv. unfold ranks_at_least.
  induction ranks as [| [k' v'] ranks IH]; intros H; simpl.
  - repeat constructor. exact Hv.
  - inversion H as [| ? ? Hv' H']; subst.
    destruct (String.eqb k k'); constructor; auto.
Qed.

Lemma add_incoming_grows (corpus : graph) (d b : Q) (ranks : dict Q) (q : Page)
    (acc acc' : Q) :
  0 <= d -> 0 <= b -> ranks_at_least b ranks ->
  add_incoming corpus d ranks q acc = Ok acc' -> acc <= acc'.
Proof.
  intros Hd Hb Hranks H. unfold add_incoming in H.
  apply bind_Ok in H as (r & Hr & H).
  apply bind_Ok in H as (ls & _ & H).
  apply bind_Ok in H as (t & Ht & H).
  injection H as <-.
  unfold getitem in Hr. destruct (dict_get q ranks) as [r' |] eqn:E; [| discriminate].
  injection Hr as ->. apply dict_get_Some_In in E.
  unfold ranks_at_least in Hranks. rewrite Forall_forall in Hranks.
  pose proof (Hranks _ E) as Hbr. simpl in Hbr.
  unfold py_div in Ht. destruct (Qeq_bool (len ls) 0) eqn:Ez; [discriminate |].
  injection Ht as <-. apply Qeq_bool_neq in Ez.
  pose proof (len_nonneg ls).
  assert (0 <= d * r / len ls).
  { apply Qle_shift_div_l; [lra |]. rewrite Qmult_0_l.
    apply Qmult_le_0_compat; lra. }
  lra.
Qed.

Lemma add_incoming_loop_grows (corpus : graph) (d b : Q) (ranks : dict Q)
    (incoming : list Page) (acc acc' : Q) :
  0 <= d -> 0 <= b -> ranks_at_least b ranks ->
  for_each incoming (add_incoming corpus d ranks) acc = Ok acc' -> acc <= acc'.
Proof.
  intros Hd Hb Hranks. revert acc.
  induction incoming as [| q incoming IH]; intros acc H; cbn [for_each] in H.
  - injection H as <-. apply Qle_refl.
  - apply bind_Ok in H as (acc1 & H1 & H).
    apply (add_incoming_grows corpus d b ranks q acc acc1 Hd Hb Hranks) in H1.
    apply IH in H. lra.
Qed.

Lemma update_page_at_least (corpus : graph) (d : Q) (incomingPages : dict (list Page))
    (p : Page) (ranks ranks' : dict Q) (change change' : Q) :
  0 <= d -> d <= 1 ->
  ranks_at_least ((1 - d) / len corpus) ranks ->
  update_page corpus d incomingPages p (ranks, change) = Ok (ranks', change') ->
  ranks_at_least ((1 - d) / len corpus) ranks'.
Proof.
  intros Hd0 Hd1 Hranks H. unfold update_page in H.
  apply bind_Ok in H as (base & Hbase & H).
  unfold py_div in Hbase.
  destruct (Qeq_bool (len corpus) 0) eqn:Ez; [discriminate |].
  injection Hbase as <-. apply Qeq_bool_neq in Ez.
  assert (Hb : 0 <= (1 - d) / len corpus).
  { pose proof (len_nonneg corpus). apply Qle_shift_div_l; lra. }
  destruct (dict_get p incomingPages) as [incoming |].
  - apply bind_Ok in H as (new & Hnew & H).
    apply bind_Ok in H as (old & _ & H).
    injection H as <- _.
    apply ranks_at_least_set; [| exact Hranks].
    exact (add_incoming_loop_grows corpus d _ ranks incoming _ _ Hd0 Hb Hranks Hnew).
  - now injection H as <- _.
Qed.

Lemma update_pages_at_least (corpus : graph) (d : Q) (incomingPages : dict (list Page))
    (l : list Page) (ranks ranks' : dict Q) (change change' : Q) :
  0 <= d -> d <= 1 ->
  ranks_at_least ((1 - d) / len corpus) ranks ->
  for_each l (update_page corpus d incomingPages) (ranks, change)
    = Ok (ranks', change') ->
  ranks_at_least ((1 - d) / len corpus) ranks'.
Proof.
  intros Hd0 Hd1. revert ranks change.
  induction l as [| p l IH]; intros ranks change Hranks H; cbn [for_each] in H.
  - now injection H as <- _.
  - apply bind_Ok in H as ([r1 c1] & H1 & H).
    apply (IH r1 c1); [| exact H].
    exact (update_page_at_least _ _ _ _ _ _ _ _ Hd0 Hd1 Hranks H1).
Qed.

Lemma while_loop_at_least (fuel : nat) (corpus : graph) (d : Q)
    (incomingPages : dict (list Page)) (ranks ranks' : dict Q) (change : Q) :
  0 <= d -> d <= 1 ->
  ranks_at_least ((1 - d) / len corpus) ranks ->
  while_loop fuel corpus d incomingPages ranks change = Some (Ok ranks') ->
  ranks_at_least ((1 - d) / len corpus) ranks'.
Proof.
  intros Hd0 Hd1. revert ranks change.
  induction fuel as [| fuel IH]; intros ranks change Hranks H; simpl in H;
    destruct (Qgt_bool change (1 / 1000)); try discriminate;
    try (now injection H as <-).
  destruct (round corpus d incomingPages ranks) as [[r1 c1] | e] eqn:E;
    [| discriminate].
  apply (IH r1 c1); [| exact H].
  exact (update_pages_at_least _ _ _ _ _ _ _ _ Hd0 Hd1 Hranks E).
Qed.

Lemma init_at_least (corpus : graph) (d : Q) :
  0 <= d ->
  ranks_at_least ((1 - d) / len corpus) (fill (1 / len corpus) (keys corpus)).
Proof.
  intros Hd. apply Forall_forall. intros [p v] Hin. simpl.
  unfold fill in Hin. apply in_map_iff in Hin as (q & E & Hq). injection E as _ <-.
  assert (Hc : corpus <> []) by (intros ->; destruct Hq).
  pose proof (len_ge_1 corpus Hc).
  apply Qle_shift_div_l; [lra |].
  assert (E : (1 - d) / len corpus * len corpus == 1 - d) by (field; lra).
  rewrite E. lra.
Qed.

Lemma iterate_pagerank_at_least (corpus : graph) (d : Q) (fuel : nat) (ranks : dict Q) :
  dict_wf corpus -> 0 <= d -> d <= 1 ->
  iterate_pagerank corpus d fuel = Some (Ok ranks) ->
  ranks_at_least ((1 - d) / len corpus) ranks.
Proof.
  intros Hwf Hd0 Hd1 H. unfold iterate_pagerank in H.
  rewrite (init_ranks_Ok corpus Hwf) in H.
  exact (while_loop_at_least _ _ _ _ _ _ _ Hd0 Hd1 (init_at_least corpus d Hd0) H).
Qed.

(** X13: [iterate_pagerank] terminates.  For every graph and every damping
    factor in [0,1) there is a number of rounds after which the change is
    at most 0.001: with that much fuel or more the function returns one
    and the same mapping, whose keys are the pages of the graph in the
    order of the graph. *)
Theorem iterate_pagerank_terminates (corpus : graph) (d : Q) :
  dict_wf corpus -> links_wf corpus -> 0 <= d -> d < 1 ->
  exists fuel0 ranks,
    (forall fuel, (fuel0 <= fuel)%nat ->
       iterate_pagerank corpus d fuel = Some (Ok ranks)) /\
    keys ranks = keys corpus.
Proof.
  intros Hwf Hlw Hd0 Hd1.
  destruct (iterate_pagerank_returns corpus d Hwf Hlw Hd0 Hd1) as (fuel0 & ranks & H).
  exists fuel0, ranks. split; [exact H |].
  apply (iterate_pagerank_keys corpus d fuel0 ranks Hwf).
  apply H. lia.
Qed.

Lemma iterate_pagerank_terminates_witness :
  exists fuel0 ranks,
    (forall fuel, (fuel0 <= fuel)%nat ->
       iterate_pagerank corpus_cycle (85 # 100) fuel = Some (Ok ranks)) /\
    keys ranks = keys corpus_cycle.
Proof.
  apply iterate_pagerank_terminates.
  - unfold dict_wf; simpl. repeat constructor; simpl; intuition discriminate.
  - repeat constructor; simpl; intuition discriminate.
  - discriminate.
  - reflexivity.
Defined.

(** X11: the ranks [iterate_pagerank] returns are never below the base
    term: for every graph and damping factor in [0,1) the function returns
    a mapping in which every rank is at least (1-d)/N, hence positive. *)
Theorem iterate_pagerank_ranks_at_least_base (corpus : graph) (d : Q) :
  dict_wf corpus -> links_wf corpus -> 0 <= d -> d < 1 ->
  exists fuel ranks,
    iterate_pagerank corpus d fuel = Some (Ok ranks) /\
    forall p v, In (p, v) ranks -> (1 - d) / len corpus <= v /\ 0 < v.
Proof.
  intros Hwf Hlw Hd0 Hd1.
  destruct (iterate_pagerank_returns corpus d Hwf Hlw Hd0 Hd1) as (fuel0 & ranks & H).
  exists fuel0, ranks. split; [apply H; lia |].
  intros p v Hin.
  pose proof (iterate_pagerank_at_least corpus d fuel0 ranks Hwf Hd0
                (Qlt_le_weak _ _ Hd1) (H fuel0 (Nat.le_refl _))) as Hb.
  unfold ranks_at_least in Hb. rewrite Forall_forall in Hb.
  pose proof (Hb _ Hin) as Hv. simpl in Hv. split; [exact Hv |].
  assert (Hk : In p (keys corpus)).
  { rewrite <- (iterate_pagerank_keys corpus d fuel0 ranks Hwf (H fuel0 (Nat.le_refl _))).
    apply (in_map fst) in Hin. exact Hin. }
  assert (Hc : corpus <> []) by (intros E; rewrite E in Hk; destruct Hk).
  pose proof (len_ge_1 corpus Hc).
  assert (0 < (1 - d) / len corpus) by (apply Qlt_shift_div_l; lra).
  lra.
Qed.

Lemma iterate_pagerank_ranks_at_least_base_witness :
  exists fuel ranks,
    iterate_pagerank corpus_cycle (85 # 100) fuel = Some (Ok ranks) /\
    forall p v, In (p, v) ranks ->
      (1 - (85 # 100)) / len corpus_cycle <= v /\ 0 < v.
Proof.
  apply iterate_pagerank_ranks_at_least_base.
  - unfold dict_wf; simpl. repeat constructor; simpl; intuition discriminate.
  - repeat constructor; simpl; intuition discriminate.
  - discriminate.
  - reflexivity.
Defined.

(** X14: the change a round reports is the sum, over all the pages of the
    graph, of the absolute difference between the rank before the round
    and the rank after it. *)
Theorem round_reports_total_change (corpus : graph) (d : Q) (ranks : dict Q) :
  dict_wf corpus -> links_wf corpus -> covers corpus ranks ->
  exists ranks' change,
    round corpus d (incoming_index corpus) ranks = Ok (ranks', change) /\
    keys ranks' = keys ranks /\
    change == Qsum (map (fun q => Qabs (rank_of ranks q - rank_of ranks' q))
                        (keys corpus)).
Proof.
  intros Hwf Hlw Hcov.
  destruct (round_Ok corpus d (incoming_index corpus) ranks Hwf
              (incoming_index_sound corpus) Hcov) as (ranks' & change & Hr & _).
  exists ranks', change. split; [exact Hr |]. split.
  - exact (update_pages_keys _ _ _ _ _ _ _ _ Hr).
  - exact (round_change corpus d ranks ranks' change Hwf Hlw Hcov Hr).
Qed.

Lemma round_reports_total_change_witness :
  exists ranks' change,
    round corpus_cycle (85 # 100) (incoming_index corpus_cycle)
      (fill (1 / 3) (keys corpus_cycle)) = Ok (ranks', change) /\
    keys ranks' = keys (fill (1 / 3) (keys corpus_cycle)) /\
    change == Qsum (map (fun q => Qabs (rank_of (fill (1 / 3) (keys corpus_cycle)) q
                                        - rank_of ranks' q))
                        (keys corpus_cycle)).
Proof.
  apply round_reports_total_change.
  - unfold dict_wf; simpl. repeat constructor; simpl; intuition discriminate.
  - repeat constructor; simpl; intuition discriminate.
  - intros p Hp. simpl in Hp.
    destruct Hp as [<- | [<- | [<- | []]]]; eexists; reflexivity.
Defined.

(** X15: the rounds contract.  With the weight of a page between 1-d and
    1, the weighted sum of the rank changes of a round is at most d times
    the weighted sum of the rank changes of the round before it. *)
Theorem rounds_contract (corpus : graph) (d : Q) (x : dict Q) :
  dict_wf corpus -> links_wf corpus -> 0 <= d -> d <= 1 -> covers corpus x ->
  (forall q, In q (keys corpus) ->
     1 - d <= weight corpus d q /\ weight corpus d q <= 1) /\
  exists x1 c1 x2 c2,
    round corpus d (incoming_index corpus) x = Ok (x1, c1) /\
    round corpus d (incoming_index corpus) x1 = Ok (x2, c2) /\
    Qsum (map (fun q => weight corpus d q * Qabs (rank_of x1 q - rank_of x2 q))
              (keys corpus))
    <= d * Qsum (map (fun q => weight corpus d q * Qabs (rank_of x q - rank_of x1 q))
                     (keys corpus)).
Proof.
  intros Hwf Hlw Hd0 Hd1 Hx. split.
  - intros q Hq. now apply weight_bounds.
  - destruct (round_Ok corpus d (incoming_index corpus) x Hwf
                (incoming_index_sound corpus) Hx) as (x1 & c1 & H1 & Hx1).
    destruct (round_Ok corpus d (incoming_index corpus) x1 Hwf
                (incoming_index_sound corpus) Hx1) as (x2 & c2 & H2 & _).
    exists x1, c1, x2, c2. split; [exact H1 |]. split; [exact H2 |].
    exact (round_contracts corpus d x x1 x2 c1 c2 Hwf Hlw Hd0 Hd1 Hx H1 H2).
Qed.

Lemma rounds_contract_witness :
  (forall q, In q (keys corpus_sink) ->
     1 - (85 # 100) <= weight corpus_sink (85 # 100) q /\
     weight corpus_sink (85 # 100) q <= 1) /\
  exists x1 c1 x2 c2,
    round corpus_sink (85 # 100) (incoming_index corpus_sink)
      (fill (1 / 3) (keys corpus_sink)) = Ok (x1, c1) /\
    round corpus_sink (85 # 100) (incoming_index corpus_sink) x1 = Ok (x2, c2) /\
    Qsum (map (fun q => weight corpus_sink (85 # 100) q
                        * Qabs (rank_of x1 q - rank_of x2 q))
              (keys corpus_sink))
    <= (85 # 100)
       * Qsum (map (fun q => weight corpus_sink (85 # 100) q
                             * Qabs (rank_of (fill (1 / 3) (keys corpus_sink)) q
                                     - rank_of x1 q))
                   (keys corpus_sink)).
Proof.
  apply rounds_contract.
  - unfold dict_wf; simpl. repeat constructor; simpl; intuition discriminate.
  - repeat constructor; simpl; intuition discriminate.
  - discriminate.
  - discriminate.
  - intros p Hp. simpl in Hp.
    destruct Hp as [<- | [<- | [<- | []]]]; eexists; reflexivity.
Defined.
